(** * aws-cost-control: the scheduled housekeeping Lambda

    A shallow embedding of [src/lambda/lambda_function.py] and the proofs of
    the properties stated about it.

    - Time.  A [datetime] is the number of microseconds since the epoch and a
      [timedelta] a number of microseconds, both in [Z]; Python compares
      them exactly at that resolution.
    - Text.  An f-string is the list of its fragments: the literal text
      ([Txt]) and the interpolated values, each under the constructor of its
      type.  What a line shows is therefore exactly the values the source
      interpolates into it.
    - Effects.  The boto3 clients and [urllib] are an environment: an
      inventory (the read-only calls) and the outcomes of the mutating
      calls.  A run threads a [State] that counts the calls made so far and
      records, in order, every line printed and every call issued with its
      outcome.  A Python exception is a [Raise] result that keeps the state
      reached when it was raised. *)

From Stdlib Require Import ZArith List String Ascii Bool Arith Lia.
Import ListNotations.
Open Scope string_scope.
Open Scope list_scope.
Open Scope Z_scope.

Set Implicit Arguments.

(** ** Time *)

Definition datetime := Z.
Definition timedelta := Z.

Definition timedelta_hours (h : Z) : timedelta := h * 3600000000.
Definition timedelta_days (d : Z) : timedelta := d * 86400000000.

(** ** Exceptions

    Every exception the program can catch is an [Exception].  The only class
    the source tells apart is Secrets Manager's [ResourceExistsException];
    urllib's [HTTPError] is part of the outcome of [urlopen] below. *)

Inductive Exn : Type :=
| ResourceExistsException (msg : string)
| OtherException (msg : string).

Inductive Result (A : Type) : Type :=
| Ok (a : A)
| Raise (e : Exn).
Arguments Ok {A} a.
Arguments Raise {A} e.

(** ** Data of the external services *)

Record Filter : Type := { Name : string; Values : list string }.

Record Instance : Type := { InstanceId : string; LaunchTime : datetime }.

(** A reservation is its ["Instances"] list and a page its ["Reservations"]
    list (an absent key is the empty list, as [.get(..., [])] makes it). *)
Definition Reservation := list Instance.
Definition InstancesPage := list Reservation.

(** A page of [list_users] is its ["Users"] list; a user is its
    ["UserName"]. *)
Definition UsersPage := list string.

Record KeyMeta : Type :=
  { AccessKeyId : string; Status : string; CreateDate : datetime }.

(** The ["AccessKey"] of a [create_access_key] response. *)
Record AccessKey : Type :=
  { NewAccessKeyId : string;
    SecretAccessKey : string;
    NewCreateDate : option datetime }.

(** The dictionary that [json.dumps] serialises into the secret string. *)
Record SecretPayload : Type :=
  { p_UserName : string;
    p_AccessKeyId : string;
    p_SecretAccessKey : string;
    p_CreateDate : option datetime }.

(** ** Text *)

Inductive Frag : Type :=
| Txt (s : string)              (* literal text of the source *)
| Str (s : string)              (* an interpolated string *)
| Time (t : datetime)           (* an interpolated datetime *)
| Delta (d : timedelta)         (* an interpolated timedelta *)
| Num (n : nat)                 (* an interpolated integer *)
| Flag (b : bool)               (* an interpolated boolean *)
| Ids (l : list string)         (* an interpolated list of strings *)
| Err (e : Exn).                (* an interpolated exception *)

Definition Text := list Frag.

Definition nl : string := String (ascii_of_nat 10) EmptyString.

(** [sep.join(lines)] *)
Fixpoint join (sep : Text) (lines : list Text) : Text :=
  match lines with
  | [] => []
  | [l] => l
  | l :: rest => l ++ sep ++ join sep rest
  end.

(** ** The environment *)

(** Outcome of [urllib.request.urlopen] followed by reading and decoding the
    body: a response, an [HTTPError] (whose own body may fail to read), or
    any other exception. *)
Inductive HttpOutcome : Type :=
| HttpResponse (status : nat) (body : string)
| HttpError (code : nat) (reason : string) (body : option string)
| HttpFailure (e : Exn).

(** The read-only calls.  A paginator is the list of the pages it yields, a
    page whose fetch raises being an [inl]; the other answers may depend on
    how many read calls were made before. *)
Record Inventory : Type :=
  { describe_instances : list Filter -> list (Exn + InstancesPage);
    list_users : list (Exn + UsersPage);
    list_access_keys : nat -> string -> Exn + list KeyMeta;
    get_access_key_last_used : nat -> string -> Exn + option datetime }.

(** The outcomes of the mutating calls, which may depend on how many
    mutating calls were made before, and of the webhook.  [request] is the
    construction [urllib.request.Request(url, ...)], which raises (a
    [ValueError]) on a value urllib does not take for a URL; [urlopen] is
    what sending a request that could be built gives. *)
Record Outcomes : Type :=
  { stop_instances : nat -> list string -> Exn + string;
    update_access_key : nat -> string -> string -> string -> Exn + unit;
    create_access_key : nat -> string -> Exn + AccessKey;
    create_secret : nat -> string -> SecretPayload -> Exn + unit;
    put_secret_value : nat -> string -> SecretPayload -> Exn + unit;
    request : string -> Exn + unit;
    urlopen : string -> Text -> HttpOutcome }.

(** ** Configuration (the module-level globals) *)

Record Config : Type :=
  { DRY_RUN : bool;
    EC2_FILTER_TAG_KEY : option string;
    EC2_FILTER_TAG_VALUE : option string;
    IAM_ALLOWED_USERS : list string;
    SECRET_NAME_PREFIX : string;
    SLACK_WEBHOOK_URL : option string }.

(** Truth value of an optional string: [None] and [""] are false. *)
Definition truthy (o : option string) : bool :=
  match o with
  | Some (String _ _) => true
  | _ => false
  end.

Definition text_of (o : option string) : string :=
  match o with Some s => s | None => "" end.

(** *** [DRY_RUN = os.getenv("DRY_RUN", "true").lower() == "true"]

    Strings are byte strings; [lower] maps the ASCII capitals to their small
    letters and leaves every other byte alone.  Python lowers Unicode, but
    no character outside ASCII lowers to one of [t], [r], [u], [e], so the
    comparison with ["true"] is the same. *)

Definition lower_ascii (c : ascii) : ascii :=
  let n := nat_of_ascii c in
  if ((65 <=? n) && (n <=? 90))%nat then ascii_of_nat (n + 32) else c.

Fixpoint lower (s : string) : string :=
  match s with
  | EmptyString => EmptyString
  | String c r => String (lower_ascii c) (lower r)
  end.

Definition getenv_default (v : option string) (default : string) : string :=
  match v with Some s => s | None => default end.

Definition DRY_RUN_of_env (v : option string) : bool :=
  String.eqb (lower (getenv_default v "true")) "true".

(** ** Runs *)

Inductive Call : Type :=
| DescribeInstances (filters : list Filter)
| ListUsers
| ListAccessKeys (username : string)
| GetAccessKeyLastUsed (access_key_id : string)
| StopInstances (instance_ids : list string)
| UpdateAccessKey (username access_key_id status : string)
| CreateAccessKey (username : string)
| CreateSecret (name : string) (payload : SecretPayload)
| PutSecretValue (secret_id : string) (payload : SecretPayload).

(** What a run does to the outside, in order: a line printed, a call to a
    boto3 client with the exception it raised if it did, a POST request for
    the webhook handed to [urlopen] with what came of it. *)
Inductive Event : Type :=
| Printed (line : Text)
| Called (c : Call) (failure : option Exn)
| Posted (url : string) (text : Text) (outcome : HttpOutcome).

Record State : Type :=
  { reads : nat;               (* read-only calls made so far *)
    writes : nat;              (* mutating calls made so far *)
    trace : list Event }.

Definition start : State := {| reads := 0; writes := 0; trace := [] |}.

Definition M (A : Type) : Type := State -> Result A * State.

Definition ret {A} (a : A) : M A := fun s => (Ok a, s).

Definition bind {A B} (m : M A) (k : A -> M B) : M B :=
  fun s =>
    match m s with
    | (Ok a, s') => k a s'
    | (Raise e, s') => (Raise e, s')
    end.

Declare Scope run_scope.
Delimit Scope run_scope with run.
Notation "x <- m ;; k" := (bind m (fun x => k))
  (at level 61, m at next level, right associativity) : run_scope.
Notation "m ;; k" := (bind m (fun _ => k))
  (at level 61, right associativity) : run_scope.
Open Scope run_scope.

Definition emit (ev : Event) (s : State) : State :=
  {| reads := reads s; writes := writes s; trace := trace s ++ [ev] |}.

Definition print (line : Text) : M unit :=
  fun s => (Ok tt, emit (Printed line) s).

(** [try: body  except Exception as e: handler e] *)
Definition try_except {A} (body : M A) (handler : Exn -> M A) : M A :=
  fun s =>
    match body s with
    | (Ok a, s') => (Ok a, s')
    | (Raise e, s') => handler e s'
    end.

Definition answer {A} (c : Call) (r : Exn + A) (s : State) : Result A * State :=
  match r with
  | inr a => (Ok a, emit (Called c None) s)
  | inl e => (Raise e, emit (Called c (Some e)) s)
  end.

Definition read_call {A} (c : Call) (r : nat -> Exn + A) : M A :=
  fun s =>
    answer c (r (reads s))
      {| reads := S (reads s); writes := writes s; trace := trace s |}.

Definition write_call {A} (c : Call) (r : nat -> Exn + A) : M A :=
  fun s =>
    answer c (r (writes s))
      {| reads := reads s; writes := S (writes s); trace := trace s |}.

(** [for x in xs: acc = body x acc] *)
Fixpoint for_each {A S} (xs : list A) (body : A -> S -> M S) (acc : S) : M S :=
  match xs with
  | [] => ret acc
  | x :: rest => acc' <- body x acc ;; for_each rest body acc'
  end.

(** [for page in paginator.paginate(...)]: every page is fetched when the
    loop reaches it, and a failed fetch raises there. *)
Fixpoint for_pages {P S} (c : Call) (pages : list (Exn + P))
    (body : P -> S -> M S) (acc : S) : M S :=
  match pages with
  | [] => ret acc
  | p :: rest =>
      page <- read_call c (fun _ => p) ;;
      acc' <- body page acc ;;
      for_pages c rest body acc'
  end.

(** ** The program *)

Record Ec2Stats : Type :=
  { instances_to_stop : nat; instances_stopped : nat }.

Record IamStats : Type :=
  { users_processed : nat; keys_deactivated : nat; keys_rotated : nat }.

(** The value of [created_new_key] once it is not [None]. *)
Inductive NewKey : Type :=
| DRY_RUN_PLACEHOLDER
| Created (access_key : AccessKey).

(** The handler's return value, [{"status": "ok"}]. *)
Inductive Response : Type := status_ok.

Section Program.

Variable cfg : Config.
Variable inv : Inventory.
Variable out : Outcomes.

(** *** 1) EC2: stop instances running > 24 hours *)

(** The [filters] list of [stop_old_ec2_instances], with the optional tag
    filter appended. *)
Definition filters : list Filter :=
  [ {| Name := "instance-state-name"; Values := ["running"] |} ] ++
  (if truthy (EC2_FILTER_TAG_KEY cfg) && truthy (EC2_FILTER_TAG_VALUE cfg)
   then [ {| Name := ("tag:" ++ text_of (EC2_FILTER_TAG_KEY cfg))%string;
             Values := [text_of (EC2_FILTER_TAG_VALUE cfg)] |} ]
   else []).

Definition stop_old_ec2_instances (now : datetime) : M Ec2Stats :=
  print [Txt "Checking for EC2 instances running > 24 hours..."] ;;
  instances_to_stop <-
    for_pages (DescribeInstances filters) (describe_instances inv filters)
      (fun page =>
         for_each page (fun reservation =>
           for_each reservation (fun instance instances_to_stop =>
             let instance_id := InstanceId instance in
             let launch_time := LaunchTime instance in
             let running_duration := now - launch_time in
             print [Txt "Instance "; Str instance_id; Txt " launched at ";
                    Time launch_time; Txt ", "; Txt "running for ";
                    Delta running_duration] ;;
             if timedelta_hours 24 <? running_duration
             then ret (instances_to_stop ++ [instance_id])
             else ret instances_to_stop)))
      [] ;;
  match instances_to_stop with
  | [] =>
      print [Txt "No instances to stop."] ;;
      ret {| instances_to_stop := 0; instances_stopped := 0 |}
  | _ :: _ =>
      print [Txt "Instances to stop (>24h): "; Ids instances_to_stop] ;;
      instances_stopped <-
        (if DRY_RUN cfg then
           print [Txt "DRY_RUN enabled: not calling StopInstances."] ;;
           ret 0%nat
         else
           try_except
             (response <- write_call (StopInstances instances_to_stop)
                            (fun n => stop_instances out n instances_to_stop) ;;
              print [Txt "StopInstances response:"; Txt " "; Str response] ;;
              ret (List.length instances_to_stop))
             (fun e =>
                print [Txt "Error stopping instances: "; Err e] ;;
                ret 0%nat)) ;;
      ret {| instances_to_stop := List.length instances_to_stop;
             instances_stopped := instances_stopped |}
  end.

(** *** 2 & 3) IAM: deactivate keys inactive > 60 days, rotate keys > 30 days,
    store rotated keys in Secrets Manager *)

Definition deactivate_key (username access_key_id : string) : M unit :=
  try_except
    (print [Txt "    Deactivating key "; Str access_key_id; Txt " for user ";
            Str username; Txt "..."] ;;
     write_call (UpdateAccessKey username access_key_id "Inactive")
       (fun n => update_access_key out n username access_key_id "Inactive") ;;
     print [Txt "    Key "; Str access_key_id; Txt " deactivated."])
    (fun e =>
       print [Txt "    Error deactivating key "; Str access_key_id;
              Txt " for user "; Str username; Txt ": "; Err e]).

Definition store_access_key_in_secrets_manager
    (username : string) (access_key : AccessKey) : M unit :=
  let secret_name :=
    (SECRET_NAME_PREFIX cfg ++ username ++ "/access-key")%string in
  let create_date := NewCreateDate access_key in
  (* the date's ISO text when there is a date, None otherwise *)
  let create_date_str := create_date in
  let payload :=
    {| p_UserName := username;
       p_AccessKeyId := NewAccessKeyId access_key;
       p_SecretAccessKey := SecretAccessKey access_key;
       p_CreateDate := create_date_str |} in
  let secret_string := payload in
  try_except
    (print [Txt "    Storing new access key for "; Str username;
            Txt " in Secrets Manager secret '"; Str secret_name; Txt "'..."] ;;
     write_call (CreateSecret secret_name secret_string)
       (fun n => create_secret out n secret_name secret_string) ;;
     print [Txt "    Created new secret '"; Str secret_name; Txt "'."])
    (fun e =>
       match e with
       | ResourceExistsException _ =>
           try_except
             (print [Txt "    Secret '"; Str secret_name;
                     Txt "' already exists, writing new version..."] ;;
              write_call (PutSecretValue secret_name secret_string)
                (fun n => put_secret_value out n secret_name secret_string) ;;
              print [Txt "    Updated secret '"; Str secret_name;
                     Txt "' with new key version."])
             (fun e =>
                print [Txt "    Error updating secret '"; Str secret_name;
                       Txt "': "; Err e])
       | OtherException _ =>
           print [Txt "    Error creating secret '"; Str secret_name;
                  Txt "': "; Err e]
       end).

(** Returns the new key, or [None] when anything in the [try] raised. *)
Definition create_new_access_key (username : string) : M (option AccessKey) :=
  try_except
    (print [Txt "    Creating new access key for user "; Str username;
            Txt "..."] ;;
     access_key <- write_call (CreateAccessKey username)
                     (fun n => create_access_key out n username) ;;
     let new_key_id := NewAccessKeyId access_key in
     print [Txt "    Created new key "; Str new_key_id; Txt " for user ";
            Str username; Txt "."] ;;
     store_access_key_in_secrets_manager username access_key ;;
     ret (Some access_key))
    (fun e =>
       print [Txt "    Error creating new access key for user "; Str username;
              Txt ": "; Err e] ;;
       ret None).

(** The loop-carried locals of [process_user_keys]. *)
Record KeysLoop : Type :=
  { created_new_key : option NewKey;
    deactivated_count : nat;
    rotated_count : nat }.

(** The body of [for key_meta in access_keys]. *)
Definition process_key (username : string) (now : datetime)
    (inactive_threshold rotate_threshold : timedelta)
    (key_meta : KeyMeta) (l : KeysLoop) : M KeysLoop :=
  let access_key_id := AccessKeyId key_meta in
  let status := Status key_meta in
  let create_date := CreateDate key_meta in
  let key_age := now - create_date in
  print [Txt "  Key "; Str access_key_id; Txt ": status="; Str status;
         Txt ", create_date="; Time create_date; Txt ", age="; Delta key_age] ;;
  last_used <- read_call (GetAccessKeyLastUsed access_key_id)
                 (fun n => get_access_key_last_used inv n access_key_id) ;;
  inactivity_age <-
    (* [if last_used]: a datetime is always true, so this asks whether the
       response holds a LastUsedDate at all *)
    match last_used with
    | Some last_used =>
        let inactivity_age := now - last_used in
        print [Txt "    Last used at "; Time last_used;
               Txt ", inactivity_age="; Delta inactivity_age] ;;
        ret inactivity_age
    | None =>
        let inactivity_age := now - create_date in
        print [Txt "    Never used, treating inactivity_age=";
               Delta inactivity_age] ;;
        ret inactivity_age
    end ;;
  if inactive_threshold <? inactivity_age then
    print [Txt "    Key "; Str access_key_id;
           Txt " inactive >60 days → will deactivate."] ;;
    (if negb (DRY_RUN cfg) then deactivate_key username access_key_id
     else print [Txt "    DRY_RUN: would deactivate inactive key ";
                 Str access_key_id; Txt "."]) ;;
    ret {| created_new_key := created_new_key l;
           deactivated_count := deactivated_count l + 1;
           rotated_count := rotated_count l |}
  else if String.eqb status "Active" && (rotate_threshold <? key_age) then
    print [Txt "    Key "; Str access_key_id;
           Txt " is active and older than 30 days → rotation needed"] ;;
    created_new_key <-
      match created_new_key l with
      | None =>
          if negb (DRY_RUN cfg) then
            access_key <- create_new_access_key username ;;
            ret (option_map Created access_key)
          else
            print [Txt "    DRY_RUN: would create a new access key for this user."] ;;
            ret (Some DRY_RUN_PLACEHOLDER)
      | Some k => ret (Some k)
      end ;;
    (if negb (DRY_RUN cfg) then deactivate_key username access_key_id
     else print [Txt "    DRY_RUN: would deactivate old key ";
                 Str access_key_id; Txt " after rotation."]) ;;
    ret {| created_new_key := created_new_key;
           deactivated_count := deactivated_count l;
           rotated_count := rotated_count l + 1 |}
  else ret l.

Definition process_user_keys (username : string) (now : datetime)
    (inactive_threshold rotate_threshold : timedelta) : M (nat * nat) :=
  access_keys <- read_call (ListAccessKeys username)
                   (fun n => list_access_keys inv n username) ;;
  match access_keys with
  | [] =>
      print [Txt "User "; Str username; Txt " has no access keys."] ;;
      ret (0%nat, 0%nat)
  | _ :: _ =>
      l <- for_each access_keys
             (process_key username now inactive_threshold rotate_threshold)
             {| created_new_key := None;
                deactivated_count := 0;
                rotated_count := 0 |} ;;
      ret (deactivated_count l, rotated_count l)
  end.

(** [IAM_ALLOWED_USERS and username not in IAM_ALLOWED_USERS] *)
Definition not_allowed (username : string) : bool :=
  match IAM_ALLOWED_USERS cfg with
  | [] => false
  | allowed => negb (existsb (String.eqb username) allowed)
  end.

Definition manage_iam_keys (now : datetime) : M IamStats :=
  print [Txt "Checking IAM access keys..."] ;;
  let inactive_threshold := timedelta_days 60 in
  let rotate_threshold := timedelta_days 30 in
  stats <-
    for_pages ListUsers (list_users inv)
      (fun page =>
         for_each page (fun username stats =>
           if not_allowed username then
             print [Txt "Skipping user "; Str username;
                    Txt " (not in IAM_ALLOWED_USERS)."] ;;
             ret stats
           else
             print [Txt "Processing user: "; Str username] ;;
             let users_processed := (users_processed stats + 1)%nat in
             dr <- process_user_keys username now
                     inactive_threshold rotate_threshold ;;
             ret {| users_processed := users_processed;
                    keys_deactivated := keys_deactivated stats + fst dr;
                    keys_rotated := keys_rotated stats + snd dr |}))
      {| users_processed := 0; keys_deactivated := 0; keys_rotated := 0 |} ;;
  ret stats.

(** *** Slack helpers *)

Definition build_summary (now : datetime)
    (ec2_stats : Ec2Stats) (iam_stats : IamStats) : Text :=
  let lines : list Text :=
    [ [Txt "*Cost Guardian Lambda run*"];
      [Txt "Time (UTC): `"; Time now; Txt "`"];
      [Txt "DRY_RUN: `"; Flag (DRY_RUN cfg); Txt "`"];
      [Txt ""];
      [Txt "*EC2*"];
      [Txt "- Candidates to stop (>24h): `";
       Num (instances_to_stop ec2_stats); Txt "`"];
      [Txt "- Actually stopped: `"; Num (instances_stopped ec2_stats); Txt "`"];
      [Txt ""];
      [Txt "*IAM Access Keys*"];
      [Txt "- Users processed: `"; Num (users_processed iam_stats); Txt "`"];
      [Txt "- Keys deactivated (>60d inactive): `";
       Num (keys_deactivated iam_stats); Txt "`"];
      [Txt "- Keys rotated (>30d age): `"; Num (keys_rotated iam_stats); Txt "`"]
    ] in
  join [Txt nl] lines.

(** [urlopen] of a POST request that could be built, with the reading of
    the answer: this, and nothing before it, sends to the webhook. *)
Definition post (url : string) (text : Text) : M HttpOutcome :=
  fun s =>
    let o := urlopen out url text in
    (Ok o, emit (Posted url text o) s).

(** The [try] first builds the request and then sends it.  When
    [urllib.request.Request] raises, [urlopen] is not reached: nothing is
    sent, and [except Exception] prints the error. *)
Definition send_slack_notification (text : Text) : M unit :=
  if negb (truthy (SLACK_WEBHOOK_URL cfg)) then
    print [Txt "SLACK_WEBHOOK_URL not set; skipping Slack notification."]
  else
    let payload := text in
    match request out (text_of (SLACK_WEBHOOK_URL cfg)) with
    | inl e => print [Txt "Error sending Slack notification: "; Err e]
    | inr _ =>
        o <- post (text_of (SLACK_WEBHOOK_URL cfg)) payload ;;
        match o with
        | HttpResponse status body =>
            print [Txt "Slack response status="; Num status; Txt ", body=";
                   Str body]
        | HttpError code reason body =>
            print [Txt "HTTP error sending Slack notification: "; Num code;
                   Txt " "; Str reason] ;;
            match body with
            | Some b => print [Str b]
            | None => ret tt
            end
        | HttpFailure e =>
            print [Txt "Error sending Slack notification: "; Err e]
        end
    end.

(** *** The entry point; [now] is the clock reading it starts with *)

Definition lambda_handler (now : datetime) : M Response :=
  print [Txt "Lambda started at "; Time now; Txt ", DRY_RUN=";
         Flag (DRY_RUN cfg)] ;;
  ec2_stats <- stop_old_ec2_instances now ;;
  iam_stats <- manage_iam_keys now ;;
  print [Txt "Lambda run complete."] ;;
  let summary := build_summary now ec2_stats iam_stats in
  print (Txt ("Summary:" ++ nl) :: summary) ;;
  send_slack_notification summary ;;
  ret status_ok.

End Program.

(** ** Observing a run *)

(** The result of running [m] from [s], and the events it added. *)
Definition result_of {A} (m : M A) (s : State) : Result A := fst (m s).

(** The events a run added between two of its states. *)
Definition since (s s' : State) : list Event :=
  skipn (List.length (trace s)) (trace s').

Definition events_of {A} (m : M A) (s : State) : list Event :=
  since s (snd (m s)).

(** The calls of a trace, in order, each with its outcome. *)
Definition calls (t : list Event) : list (Call * option Exn) :=
  flat_map (fun ev => match ev with Called c f => [(c, f)] | _ => [] end) t.

(** The calls that change the account: stopping instances, changing a key's
    status, creating a key, writing a secret. *)
Definition is_mutation (c : Call) : bool :=
  match c with
  | StopInstances _ | UpdateAccessKey _ _ _ | CreateAccessKey _
  | CreateSecret _ _ | PutSecretValue _ _ => true
  | DescribeInstances _ | ListUsers | ListAccessKeys _
  | GetAccessKeyLastUsed _ => false
  end.

(** The mutating calls of a trace, in order, each with its outcome. *)
Definition mutation_calls (t : list Event) : list (Call * option Exn) :=
  filter (fun cf => is_mutation (fst cf)) (calls t).

Definition mutations (t : list Event) : list Call :=
  map fst (mutation_calls t).

(** The lines printed and the notifications posted, in order. *)
Definition printed (t : list Event) : list Text :=
  flat_map (fun ev => match ev with Printed l => [l] | _ => [] end) t.

Definition posted (t : list Event) : list (string * Text) :=
  flat_map (fun ev => match ev with Posted u x _ => [(u, x)] | _ => [] end) t.

(** A [create_access_key] call for [username] that did not raise. *)
Definition creates_for (username : string) (cf : Call * option Exn) : bool :=
  match cf with
  | (CreateAccessKey u, None) => String.eqb u username
  | _ => false
  end.

(** How many keys a trace shows created for [username]. *)
Definition created_for (username : string) (t : list Event) : nat :=
  List.length (filter (creates_for username) (calls t)).

(** The users of the pages that a paginator of [list_users] yields. *)
Definition page_users (pages : list (Exn + UsersPage)) : list string :=
  flat_map (fun p => match p with inr users => users | inl _ => [] end) pages.

Definition listed_users (inv : Inventory) : list string :=
  page_users (list_users inv).

(** The trace ends with the event [ev]. *)
Definition ends_with (ev : Event) (t : list Event) : Prop :=
  exists t0, t = t0 ++ [ev].

(** The last call of the trace is a read-only call that raised [e]. *)
Definition ends_at_failed_read (e : Exn) (t : list Event) : Prop :=
  exists c cs, is_mutation c = false /\ calls t = cs ++ [(c, Some e)].

(** [cfg] with the dry-run flag set to [b]. *)
Definition with_dry_run (b : bool) (cfg : Config) : Config :=
  {| DRY_RUN := b;
     EC2_FILTER_TAG_KEY := EC2_FILTER_TAG_KEY cfg;
     EC2_FILTER_TAG_VALUE := EC2_FILTER_TAG_VALUE cfg;
     IAM_ALLOWED_USERS := IAM_ALLOWED_USERS cfg;
     SECRET_NAME_PREFIX := SECRET_NAME_PREFIX cfg;
     SLACK_WEBHOOK_URL := SLACK_WEBHOOK_URL cfg |}.

(** *** Secrets *)

Definition with_secret (v : string) (k : AccessKey) : AccessKey :=
  {| NewAccessKeyId := NewAccessKeyId k;
     SecretAccessKey := v;
     NewCreateDate := NewCreateDate k |}.

(** The same services, except that the key created by the [n]-th mutating
    call for [username] comes with the secret value [v n username]. *)
Definition with_secrets (v : nat -> string -> string) (out : Outcomes)
  : Outcomes :=
  {| stop_instances := stop_instances out;
     update_access_key := update_access_key out;
     create_access_key := fun n username =>
       match create_access_key out n username with
       | inr k => inr (with_secret (v n username) k)
       | inl e => inl e
       end;
     create_secret := create_secret out;
     put_secret_value := put_secret_value out;
     request := request out;
     urlopen := urlopen out |}.

Definition hide_secret (p : SecretPayload) : SecretPayload :=
  {| p_UserName := p_UserName p;
     p_AccessKeyId := p_AccessKeyId p;
     p_SecretAccessKey := "";
     p_CreateDate := p_CreateDate p |}.

(** An event with the secret value of a written payload blanked; every other
    event, and every other field, is kept. *)
Definition redact (ev : Event) : Event :=
  match ev with
  | Called (CreateSecret name p) f => Called (CreateSecret name (hide_secret p)) f
  | Called (PutSecretValue name p) f =>
      Called (PutSecretValue name (hide_secret p)) f
  | _ => ev
  end.

(** Whether Secrets Manager accepts a write does not hang on the secret
    value written. *)
Definition secret_blind (out : Outcomes) : Prop :=
  forall n name p p',
    hide_secret p = hide_secret p' ->
    create_secret out n name p = create_secret out n name p' /\
    put_secret_value out n name p = put_secret_value out n name p'.

(** The secret values a trace shows written to the secret store. *)
Definition secrets_written (t : list Event) : list string :=
  flat_map (fun ev =>
              match ev with
              | Called (CreateSecret _ p) _ | Called (PutSecretValue _ p) _ =>
                  [p_SecretAccessKey p]
              | _ => []
              end) t.

(** ** The policy as the specification words it

    [Decision] and [decision] follow the specification's Policy Evaluator,
    not the source: a credential is its status, its creation time and its
    optional last use; the thresholds are 60 and 30 days; the first rule that
    matches wins. *)

Inductive Decision : Type := NoAction | Deactivate | Rotate.

Record Credential : Type :=
  { active : bool; createdAt : datetime; lastUsed : option datetime }.

Definition inactivityThreshold : timedelta := timedelta_days 60.
Definition rotationThreshold : timedelta := timedelta_days 30.

Definition inactivityAge (c : Credential) (now : datetime) : timedelta :=
  match lastUsed c with
  | Some t => now - t
  | None => now - createdAt c
  end.

Definition decision (c : Credential) (now : datetime) : Decision :=
  if inactivityAge c now >? inactivityThreshold then Deactivate
  else if active c && (now - createdAt c >? rotationThreshold) then Rotate
  else NoAction.

(** The credential that a key's metadata and its last use describe. *)
Definition credential_of (k : KeyMeta) (last_used : option datetime)
  : Credential :=
  {| active := String.eqb (Status k) "Active";
     createdAt := CreateDate k;
     lastUsed := last_used |}.

(** *** Dry-run as the specification words it: the variable is absent, or it
    is one of the spellings of [true]. *)

Definition same_letter (a b : ascii) : Prop :=
  a = b \/
  (65 <= nat_of_ascii a <= 90 /\ nat_of_ascii b = nat_of_ascii a + 32)%nat \/
  (65 <= nat_of_ascii b <= 90 /\ nat_of_ascii a = nat_of_ascii b + 32)%nat.

Fixpoint equal_ignoring_case (s t : string) : Prop :=
  match s, t with
  | EmptyString, EmptyString => True
  | String a s', String b t' => same_letter a b /\ equal_ignoring_case s' t'
  | _, _ => False
  end.

(** *** The 24-hour rule for instances *)

(** The pages a paginator yields, when none of its fetches fails. *)
Definition ok_pages {P} (pages : list (Exn + P)) : list P :=
  flat_map (fun p => match p with inr x => [x] | inl _ => [] end) pages.

Definition running_over_24h (now : datetime) (i : Instance) : bool :=
  Z.ltb (timedelta_hours 24) (now - LaunchTime i).

(** The identifiers, in inventory order, of the instances that have been
    running for more than 24 hours. *)
Definition candidates (now : datetime) (instances : list Instance)
  : list string :=
  map InstanceId (filter (running_over_24h now) instances).

Definition stop_candidates (now : datetime) (pages : list InstancesPage)
  : list string :=
  candidates now (List.concat (List.concat pages)).

(** What the run shows of stopping the candidates [ids]: their number, and
    one [stop_instances] call for all of them unless there is none or the
    run is dry; they count as stopped when that call did not raise. *)
Definition reaped (cfg : Config) (ids : list string) (stats : Ec2Stats)
    (ms : list (Call * option Exn)) : Prop :=
  instances_to_stop stats = List.length ids /\
  match ids with
  | [] => ms = [] /\ instances_stopped stats = 0%nat
  | _ :: _ =>
      if DRY_RUN cfg then ms = [] /\ instances_stopped stats = 0%nat
      else exists f,
          ms = [(StopInstances ids, f)] /\
          instances_stopped stats =
            match f with None => List.length ids | Some _ => 0%nat end
  end.

(** ** Reasoning about runs *)

(** The calls by which a secret is published under [name]: a creation; or a
    creation refused because the secret exists, then a new version; or a
    creation that failed otherwise. *)
Definition publishes (name : string) (p : SecretPayload)
    (cs : list (Call * option Exn)) : Prop :=
  cs = [(CreateSecret name p, None)] \/
  (exists m f, cs = [(CreateSecret name p, Some (ResourceExistsException m));
                     (PutSecretValue name p, f)]) \/
  (exists m, cs = [(CreateSecret name p, Some (OtherException m))]).

(** The name and the payload under which [username]'s new key is stored. *)
Definition secret_name_of (cfg : Config) (username : string) : string :=
  (SECRET_NAME_PREFIX cfg ++ username ++ "/access-key")%string.

Definition payload_of (username : string) (k : AccessKey) : SecretPayload :=
  {| p_UserName := username;
     p_AccessKeyId := NewAccessKeyId k;
     p_SecretAccessKey := SecretAccessKey k;
     p_CreateDate := NewCreateDate k |}.

(** What the deactivation of a key shows: the call, unless in dry-run. *)
Definition deactivation (cfg : Config) (username access_key_id : string)
    (cs : list (Call * option Exn)) : Prop :=
  if DRY_RUN cfg then cs = []
  else exists f,
      cs = [(UpdateAccessKey username access_key_id "Inactive", f)].

(** What a rotation does about the new key, from the value of
    [created_new_key] before to its value after. *)
Inductive creation (cfg : Config) (username : string)
  : option NewKey -> option NewKey -> list (Call * option Exn) -> Prop :=
| creation_kept k :
    creation cfg username (Some k) (Some k) []
| creation_dry :
    DRY_RUN cfg = true ->
    creation cfg username None (Some DRY_RUN_PLACEHOLDER) []
| creation_failed e :
    DRY_RUN cfg = false ->
    creation cfg username None None [(CreateAccessKey username, Some e)]
| creation_done k cs :
    DRY_RUN cfg = false ->
    publishes (secret_name_of cfg username) (payload_of username k) cs ->
    creation cfg username None (Some (Created k))
      ((CreateAccessKey username, None) :: cs).

(** What the loop body does with one key once its last use is known:
    nothing, a deactivation, or a rotation. *)
Inductive key_step (cfg : Config) (username access_key_id : string)
    (l : KeysLoop) : KeysLoop -> list (Call * option Exn) -> Prop :=
| step_nothing :
    key_step cfg username access_key_id l l []
| step_deactivate cs :
    deactivation cfg username access_key_id cs ->
    key_step cfg username access_key_id l
      {| created_new_key := created_new_key l;
         deactivated_count := deactivated_count l + 1;
         rotated_count := rotated_count l |} cs
| step_rotate c' cs1 cs2 :
    creation cfg username (created_new_key l) c' cs1 ->
    deactivation cfg username access_key_id cs2 ->
    key_step cfg username access_key_id l
      {| created_new_key := c';
         deactivated_count := deactivated_count l;
         rotated_count := rotated_count l + 1 |} (cs1 ++ cs2).

(** What holds of the events added while the keys of users are processed,
    [bound u] being how many keys may be created for [u]: no more keys than
    that are created, nothing is mutated in dry-run, and an exception comes
    from a read-only call that failed. *)
Definition keys_run {A} (cfg : Config) (bound : string -> nat)
    (r : Result A) (t : list Event) : Prop :=
  (forall u, (created_for u t <= bound u)%nat) /\
  (DRY_RUN cfg = true -> mutation_calls t = []) /\
  (forall e, r = Raise e -> ends_at_failed_read e t).

(** What it is for the loop body to follow a [Decision] on a key: how the
    loop-carried values change from [l] to [l'], and which mutating calls
    [ms] it issues.  A deactivation touches neither the rotation count nor
    [created_new_key] and issues nothing but the deactivation. *)
Definition follows (cfg : Config) (username access_key_id : string)
    (d : Decision) (l l' : KeysLoop) (ms : list (Call * option Exn)) : Prop :=
  match d with
  | Deactivate =>
      l' = {| created_new_key := created_new_key l;
              deactivated_count := deactivated_count l + 1;
              rotated_count := rotated_count l |} /\
      deactivation cfg username access_key_id ms
  | Rotate =>
      deactivated_count l' = deactivated_count l /\
      rotated_count l' = (rotated_count l + 1)%nat /\
      exists cs1 cs2,
        ms = cs1 ++ cs2 /\
        creation cfg username (created_new_key l) (created_new_key l') cs1 /\
        deactivation cfg username access_key_id cs2
  | NoAction => l' = l /\ ms = []
  end.

(** The inventory that answers every [get_access_key_last_used] call with
    [last_used]. *)
Definition last_used_is (last_used : option datetime) (inv : Inventory)
  : Inventory :=
  {| describe_instances := describe_instances inv;
     list_users := list_users inv;
     list_access_keys := list_access_keys inv;
     get_access_key_last_used := fun _ _ => inr last_used |}.

(** [emits m Q]: from any state, [m] only adds events to the trace, and its
    result and the events it added satisfy [Q]. *)
Definition emits {A} (m : M A) (Q : Result A -> list Event -> Prop) : Prop :=
  forall s, exists t, trace (snd (m s)) = trace s ++ t /\ Q (fst (m s)) t.

(** Two results agree: both values, related, or the same exception. *)
Definition res_rel {A B} (RA : A -> B -> Prop)
    (r1 : Result A) (r2 : Result B) : Prop :=
  match r1, r2 with
  | Ok a, Ok b => RA a b
  | Raise e1, Raise e2 => e1 = e2
  | _, _ => False
  end.

(** [rel RS RA m1 m2]: run from states related by [RS], the two computations
    end in states related by [RS] with results that agree. *)
Definition rel {A B} (RS : State -> State -> Prop) (RA : A -> B -> Prop)
    (m1 : M A) (m2 : M B) : Prop :=
  forall s1 s2, RS s1 s2 ->
    RS (snd (m1 s1)) (snd (m2 s2)) /\ res_rel RA (fst (m1 s1)) (fst (m2 s2)).

(** A computation that makes no read-only call, and one that cannot
    raise. *)
Definition reads_nothing {A} (m : M A) : Prop :=
  forall s, reads (snd (m s)) = reads s.

Definition total {A} (m : M A) : Prop :=
  forall s, exists a, fst (m s) = Ok a.

Definition same_reads (s1 s2 : State) : Prop := reads s1 = reads s2.

Definition same_counts (l1 l2 : KeysLoop) : Prop :=
  deactivated_count l1 = deactivated_count l2 /\
  rotated_count l1 = rotated_count l2.

(** Keys, optional keys and loop-carried values that are the same but for
    the secret value of a key. *)
Definition key_alike (k k' : AccessKey) : Prop :=
  NewAccessKeyId k = NewAccessKeyId k' /\ NewCreateDate k = NewCreateDate k'.

Definition created_alike (o : option AccessKey) (o' : option AccessKey)
  : Prop :=
  match o, o' with
  | Some k, Some k' => key_alike k k'
  | None, None => True
  | _, _ => False
  end.

Definition loop_alike (l l' : KeysLoop) : Prop :=
  deactivated_count l = deactivated_count l' /\
  rotated_count l = rotated_count l' /\
  (created_new_key l = None <-> created_new_key l' = None).

(** Same counters, and the same trace once the secrets are blanked. *)
Definition same_but_secrets (s1 s2 : State) : Prop :=
  reads s1 = reads s2 /\ writes s1 = writes s2 /\
  map redact (trace s1) = map redact (trace s2).

(** ** A small account to run on

    The module's default configuration; the clock at day 100; two running
    instances, launched 25 and 23 hours ago; [alice] with two active keys, 40
    and 45 days old and used 5 days ago; [bob] with one key, 100 days old and
    never used. *)

Definition default_cfg : Config :=
  {| DRY_RUN := true;
     EC2_FILTER_TAG_KEY := None;
     EC2_FILTER_TAG_VALUE := None;
     IAM_ALLOWED_USERS := [];
     SECRET_NAME_PREFIX := "iam/user/";
     SLACK_WEBHOOK_URL := None |}.

Definition live_cfg : Config := with_dry_run false default_cfg.

Definition day100 : datetime := timedelta_days 100.

Definition alice_key1 : KeyMeta :=
  {| AccessKeyId := "AKIAALICE1"; Status := "Active";
     CreateDate := day100 - timedelta_days 40 |}.

Definition alice_key2 : KeyMeta :=
  {| AccessKeyId := "AKIAALICE2"; Status := "Active";
     CreateDate := day100 - timedelta_days 45 |}.

Definition bob_key : KeyMeta :=
  {| AccessKeyId := "AKIABOB1"; Status := "Active";
     CreateDate := day100 - timedelta_days 100 |}.

Definition account : Inventory :=
  {| describe_instances := fun _ =>
       [inr [[ {| InstanceId := "i-25h";
                  LaunchTime := day100 - timedelta_hours 25 |};
               {| InstanceId := "i-23h";
                  LaunchTime := day100 - timedelta_hours 23 |} ]]];
     list_users := [inr ["alice"; "bob"]];
     list_access_keys := fun _ username =>
       if String.eqb username "alice" then inr [alice_key1; alice_key2]
       else if String.eqb username "bob" then inr [bob_key]
       else inr [];
     get_access_key_last_used := fun _ access_key_id =>
       if String.eqb access_key_id "AKIABOB1" then inr None
       else inr (Some (day100 - timedelta_days 5)) |}.

(** The same account when the first page of [describe_instances] cannot be
    fetched. *)
Definition throttled_account : Inventory :=
  {| describe_instances := fun _ =>
       [inl (OtherException "RequestLimitExceeded")];
     list_users := list_users account;
     list_access_keys := list_access_keys account;
     get_access_key_last_used := get_access_key_last_used account |}.

Definition new_key : AccessKey :=
  {| NewAccessKeyId := "AKIANEW";
     SecretAccessKey := "wJalrXUtnFEMI";
     NewCreateDate := Some day100 |}.

(** Services on which every call succeeds. *)
Definition all_fine : Outcomes :=
  {| stop_instances := fun _ _ => inr "stopping";
     update_access_key := fun _ _ _ _ => inr tt;
     create_access_key := fun _ _ => inr new_key;
     create_secret := fun _ _ _ => inr tt;
     put_secret_value := fun _ _ _ => inr tt;
     request := fun _ => inr tt;
     urlopen := fun _ _ => HttpResponse 200 "ok" |}.

(** Services on which every mutating call fails. *)
Definition all_failing : Outcomes :=
  {| stop_instances := fun _ _ => inl (OtherException "UnauthorizedOperation");
     update_access_key := fun _ _ _ _ => inl (OtherException "AccessDenied");
     create_access_key := fun _ _ => inl (OtherException "LimitExceeded");
     create_secret := fun _ _ _ => inl (OtherException "AccessDenied");
     put_secret_value := fun _ _ _ => inl (OtherException "AccessDenied");
     request := fun _ => inr tt;
     urlopen := fun _ _ => HttpFailure (OtherException "timed out") |}.

(** Services on which the first [create_access_key] call fails (it is the
    second mutating call of a live run on [account]) and the secret to
    create already exists. *)
Definition first_creation_fails : Outcomes :=
  {| stop_instances := stop_instances all_fine;
     update_access_key := update_access_key all_fine;
     create_access_key := fun n _ =>
       if Nat.eqb n 1 then inl (OtherException "LimitExceeded")
       else inr new_key;
     create_secret := fun _ _ _ =>
       inl (ResourceExistsException "the secret already exists");
     put_secret_value := put_secret_value all_fine;
     request := request all_fine;
     urlopen := urlopen all_fine |}.

(** ** More to observe *)

(** [only P m]: whatever [m] adds to the trace satisfies [P]. *)
Definition only {A} (P : Event -> Prop) (m : M A) : Prop :=
  emits m (fun _ t => Forall P t).

(** The user that a call is about, when it names one: the user whose keys
    are listed, whose key is changed or created, whose key is stored. *)
Definition call_user (c : Call) : option string :=
  match c with
  | ListAccessKeys username => Some username
  | UpdateAccessKey username _ _ => Some username
  | CreateAccessKey username => Some username
  | CreateSecret _ payload => Some (p_UserName payload)
  | PutSecretValue _ payload => Some (p_UserName payload)
  | DescribeInstances _ | ListUsers | GetAccessKeyLastUsed _
  | StopInstances _ => None
  end.

(** An event that is no call about a user other than those [ok] accepts. *)
Definition about_users (ok : string -> Prop) (ev : Event) : Prop :=
  match ev with
  | Called c _ => forall u, call_user c = Some u -> ok u
  | _ => True
  end.

(** An event that is no notification. *)
Definition not_posted (ev : Event) : Prop :=
  match ev with Posted _ _ _ => False | _ => True end.

(** An event of the instance scan: a line, a [describe_instances] call with
    the filters [fs], or a [stop_instances] call. *)
Definition of_the_reaper (fs : list Filter) (ev : Event) : Prop :=
  match ev with
  | Printed _ => True
  | Called (DescribeInstances fs') _ => fs' = fs
  | Called (StopInstances _) _ => True
  | _ => False
  end.

(** How many calls of a trace satisfy [p]. *)
Definition count_calls (p : Call * option Exn -> bool) (t : list Event) : nat :=
  List.length (filter p (calls t)).

Definition is_update (cf : Call * option Exn) : bool :=
  match fst cf with UpdateAccessKey _ _ _ => true | _ => false end.

Definition is_create_secret (cf : Call * option Exn) : bool :=
  match fst cf with CreateSecret _ _ => true | _ => false end.

Definition is_put_secret (cf : Call * option Exn) : bool :=
  match fst cf with PutSecretValue _ _ => true | _ => false end.

Definition is_created_key (cf : Call * option Exn) : bool :=
  match cf with (CreateAccessKey _, None) => true | _ => false end.

Definition is_last_used_read (cf : Call * option Exn) : bool :=
  match cf with (GetAccessKeyLastUsed _, None) => true | _ => false end.

(** [inv] with other pages of users. *)
Definition with_user_pages (pages : list (Exn + UsersPage)) (inv : Inventory)
  : Inventory :=
  {| describe_instances := describe_instances inv;
     list_users := pages;
     list_access_keys := list_access_keys inv;
     get_access_key_last_used := get_access_key_last_used inv |}.

(** A live configuration with an allow-list that names [bob] only, a tag
    key without a tag value, and a webhook. *)
Definition bob_only_cfg : Config :=
  {| DRY_RUN := false;
     EC2_FILTER_TAG_KEY := Some "AutoStop";
     EC2_FILTER_TAG_VALUE := None;
     IAM_ALLOWED_USERS := ["bob"];
     SECRET_NAME_PREFIX := "iam/user/";
     SLACK_WEBHOOK_URL := Some "https://hooks.example/T0" |}.

(** The calls to the EC2 client, and the calls to the IAM and Secrets
    Manager clients. *)
Definition is_ec2_call (c : Call) : bool :=
  match c with
  | DescribeInstances _ | StopInstances _ => true
  | _ => false
  end.

Definition is_key_call (c : Call) : bool := negb (is_ec2_call c).

(** An event that is a line or a call accepted by [p]. *)
Definition line_or_call (p : Call -> bool) (ev : Event) : Prop :=
  match ev with
  | Printed _ => True
  | Called c _ => p c = true
  | Posted _ _ _ => False
  end.

(** The first line of a run. *)
Definition started (cfg : Config) (now : datetime) : Event :=
  Printed [Txt "Lambda started at "; Time now; Txt ", DRY_RUN=";
           Flag (DRY_RUN cfg)].

(** The names under which a trace shows secrets written. *)
Definition secret_names (t : list Event) : list string :=
  flat_map (fun cf =>
              match fst cf with
              | CreateSecret name _ | PutSecretValue name _ => [name]
              | _ => []
              end) (calls t).

(** One secret call per created key, and no new version without a refused
    creation. *)
Definition secrets_match_keys (t : list Event) : Prop :=
  count_calls is_create_secret t = count_calls is_created_key t /\
  (count_calls is_put_secret t <= count_calls is_create_secret t)%nat.

(** The users of a list that the allow-list lets through. *)
Definition allowed_users (cfg : Config) (users : list string) : list string :=
  filter (fun u => negb (not_allowed cfg u)) users.

(** The calls agree with the counts [n] of keys deactivated or rotated:
    live, one [update_access_key] call per counted key, and none in dry-run;
    and each counted key had its last use read. *)
Definition counted (cfg : Config) (n : nat) (t : list Event) : Prop :=
  count_calls is_update t = (if DRY_RUN cfg then 0 else n)%nat /\
  (n <= count_calls is_last_used_read t)%nat.

(** ** The allow-list in the environment

    [IAM_ALLOWED_USERS = os.getenv("IAM_ALLOWED_USERS", "")] and then
    [{u.strip() for u in IAM_ALLOWED_USERS.split(",") if u.strip()}].

    A Python string is a sequence of characters.  The characters, the test
    for the comma, and the table of the white space that [str.strip] removes
    belong to Python, not to this program: they are parameters.  The set is
    the list of the values that the comprehension collects; the program only
    asks whether it is empty and whether it contains a name. *)

Section AllowList.

Variable char : Type.
Variable is_comma : char -> bool.
Variable isspace : char -> bool.

(** [s.split(",")]: the pieces between the commas, one more than there are
    commas. *)
Fixpoint split (s : list char) : list (list char) :=
  match s with
  | [] => [[]]
  | c :: rest =>
      if is_comma c then [] :: split rest
      else match split rest with
           | piece :: pieces => (c :: piece) :: pieces
           | [] => [[c]]
           end
  end.

Fixpoint lstrip (s : list char) : list char :=
  match s with
  | [] => []
  | c :: rest => if isspace c then lstrip rest else s
  end.

Definition rstrip (s : list char) : list char := rev (lstrip (rev s)).

(** [s.strip()] *)
Definition strip (s : list char) : list char := rstrip (lstrip s).

Definition IAM_ALLOWED_USERS_of_env (v : option (list char))
  : list (list char) :=
  let value := match v with Some s => s | None => [] end in
  flat_map (fun u => match strip u with [] => [] | name => [name] end)
    (split value).

(** A string without a comma; a string of white space only; a string that
    neither begins nor ends with white space. *)
Definition comma_free (s : list char) : Prop :=
  Forall (fun c => is_comma c = false) s.

Definition blank (s : list char) : Prop :=
  Forall (fun c => isspace c = true) s.

Definition trimmed (s : list char) : Prop :=
  match s with [] => True | c :: _ => isspace c = false end /\
  match rev s with [] => True | c :: _ => isspace c = false end.

(** [",".join(names)] *)
Fixpoint join_commas (comma : char) (names : list (list char)) : list char :=
  match names with
  | [] => []
  | [n] => n
  | n :: rest => n ++ comma :: join_commas comma rest
  end.

End AllowList.

(** White space in ASCII, for the examples. *)
Definition ascii_space (c : ascii) : bool :=
  let n := nat_of_ascii c in
  ((9 <=? n) && (n <=? 13) || (28 <=? n) && (n <=? 32))%nat.

Definition ascii_comma (c : ascii) : bool := Ascii.eqb c ","%char.

(** ** Failures of the read-only calls *)

(** The event of a read-only call (describe instances, list users, list
    access keys, get last used) that raised. *)
Definition failed_read (ev : Event) : bool :=
  match ev with
  | Called c (Some _) => negb (is_mutation c)
  | Called _ None | Printed _ | Posted _ _ _ => false
  end.

(** No read-only call of the trace raised. *)
Definition no_failed_read (t : list Event) : Prop :=
  Forall (fun ev => failed_read ev = false) t.

(** A computation that catches no failure of a read-only call: when it
    returns, none has failed; when it raises [e], the last thing it did is a
    read-only call that raised [e], and none had failed before. *)
Definition read_failure_propagates {A} (r : Result A) (t : list Event)
  : Prop :=
  match r with
  | Ok _ => no_failed_read t
  | Raise e =>
      exists c t0,
        is_mutation c = false /\ t = t0 ++ [Called c (Some e)] /\
        no_failed_read t0
  end.

(** [account] when the listing of the users, the listing of [bob]'s keys, or
    the last use of [alice]'s second key cannot be fetched. *)
Definition account_without_users : Inventory :=
  {| describe_instances := describe_instances account;
     list_users := [inl (OtherException "Throttling")];
     list_access_keys := list_access_keys account;
     get_access_key_last_used := get_access_key_last_used account |}.

Definition account_without_keys_of_bob : Inventory :=
  {| describe_instances := describe_instances account;
     list_users := list_users account;
     list_access_keys := fun n username =>
       if String.eqb username "bob" then inl (OtherException "ServiceFailure")
       else list_access_keys account n username;
     get_access_key_last_used := get_access_key_last_used account |}.

Definition account_without_last_use : Inventory :=
  {| describe_instances := describe_instances account;
     list_users := list_users account;
     list_access_keys := list_access_keys account;
     get_access_key_last_used := fun n access_key_id =>
       if String.eqb access_key_id "AKIAALICE2"
       then inl (OtherException "NoSuchEntity")
       else get_access_key_last_used account n access_key_id |}.

(** A configuration whose webhook value is no URL (it has no scheme), and
    services whose [urllib] refuses to build a request from it. *)
Definition no_scheme_cfg : Config :=
  {| DRY_RUN := false;
     EC2_FILTER_TAG_KEY := Some "AutoStop";
     EC2_FILTER_TAG_VALUE := None;
     IAM_ALLOWED_USERS := ["bob"];
     SECRET_NAME_PREFIX := "iam/user/";
     SLACK_WEBHOOK_URL := Some "hooks.example/T0" |}.

Definition refusing_the_url : Outcomes :=
  {| stop_instances := stop_instances all_fine;
     update_access_key := update_access_key all_fine;
     create_access_key := create_access_key all_fine;
     create_secret := create_secret all_fine;
     put_secret_value := put_secret_value all_fine;
     request := fun url =>
       inl (OtherException ("unknown url type: '" ++ url ++ "'"));
     urlopen := urlopen all_fine |}.

(** * Proofs *)

Unset Implicit Arguments.

Arguments timedelta_hours h : simpl never.
Arguments timedelta_days d : simpl never.

(** ** Traces *)

Lemma since_app (s s' : State) (t : list Event) :
  trace s' = trace s ++ t -> since s s' = t.
Proof.
  intros H. unfold since. rewrite H.
  rewrite skipn_app, skipn_all, Nat.sub_diag. reflexivity.
Qed.

Lemma calls_app (t1 t2 : list Event) :
  calls (t1 ++ t2) = calls t1 ++ calls t2.
Proof. unfold calls. apply flat_map_app. Qed.

Lemma calls_printed (line : Text) (t : list Event) :
  calls (Printed line :: t) = calls t.
Proof. reflexivity. Qed.

Lemma calls_called (c : Call) (f : option Exn) (t : list Event) :
  calls (Called c f :: t) = (c, f) :: calls t.
Proof. reflexivity. Qed.

Lemma calls_posted (u : string) (x : Text) (o : HttpOutcome) (t : list Event) :
  calls (Posted u x o :: t) = calls t.
Proof. reflexivity. Qed.

Lemma calls_nil : calls [] = [].
Proof. reflexivity. Qed.

Create Rewrite HintDb calls.
#[export] Hint Rewrite calls_app calls_printed calls_called calls_posted
  calls_nil app_nil_r app_nil_l : calls.

Ltac calls_norm := autorewrite with calls.

Lemma mutation_calls_app (t1 t2 : list Event) :
  mutation_calls (t1 ++ t2) = mutation_calls t1 ++ mutation_calls t2.
Proof. unfold mutation_calls. rewrite calls_app. apply filter_app. Qed.

Lemma created_for_app (u : string) (t1 t2 : list Event) :
  created_for u (t1 ++ t2) = (created_for u t1 + created_for u t2)%nat.
Proof.
  unfold created_for. rewrite calls_app, filter_app, length_app. reflexivity.
Qed.

Lemma ends_with_app (ev : Event) (t1 t2 : list Event) :
  ends_with ev t2 -> ends_with ev (t1 ++ t2).
Proof. intros [t0 ->]. exists (t1 ++ t0). apply app_assoc. Qed.

Lemma ends_with_cons (ev e : Event) (t : list Event) :
  ends_with ev t -> ends_with ev (e :: t).
Proof. intros [t0 ->]. exists (e :: t0). reflexivity. Qed.

Lemma created_for_nil (u : string) : created_for u [] = 0%nat.
Proof. reflexivity. Qed.

Lemma created_for_printed (u : string) (line : Text) (t : list Event) :
  created_for u (Printed line :: t) = created_for u t.
Proof. reflexivity. Qed.

Lemma created_for_read (u : string) (c : Call) (f : option Exn)
    (t : list Event) :
  is_mutation c = false -> created_for u (Called c f :: t) = created_for u t.
Proof. intros H. destruct c; try discriminate; reflexivity. Qed.

Lemma mutation_calls_nil : mutation_calls [] = [].
Proof. reflexivity. Qed.

Lemma mutation_calls_printed (line : Text) (t : list Event) :
  mutation_calls (Printed line :: t) = mutation_calls t.
Proof. reflexivity. Qed.

Lemma mutation_calls_read (c : Call) (f : option Exn) (t : list Event) :
  is_mutation c = false ->
  mutation_calls (Called c f :: t) = mutation_calls t.
Proof. intros H. unfold mutation_calls. simpl. rewrite H. reflexivity. Qed.

Create Rewrite HintDb obs.
#[export] Hint Rewrite created_for_app created_for_nil created_for_printed
  mutation_calls_app mutation_calls_nil mutation_calls_printed
  app_nil_r Nat.add_0_r : obs.
#[export] Hint Rewrite created_for_read mutation_calls_read
  using reflexivity : obs.

Ltac obs_norm := autorewrite with obs.

(** ** Rules for [emits] *)

Section Emits.

Context {A : Type}.

Lemma emits_ret (a : A) (Q : Result A -> list Event -> Prop) :
  Q (Ok a) [] -> emits (ret a) Q.
Proof. intros H s. exists []. simpl. rewrite app_nil_r. auto. Qed.

Lemma emits_weaken (m : M A) (Q Q' : Result A -> list Event -> Prop) :
  emits m Q -> (forall r t, Q r t -> Q' r t) -> emits m Q'.
Proof.
  intros H HQ s. destruct (H s) as [t [Ht Hq]]. exists t. auto.
Qed.

Lemma emits_bind {B} (m : M B) (k : B -> M A)
    (Q1 : Result B -> list Event -> Prop) (Q : Result A -> list Event -> Prop) :
  emits m Q1 ->
  (forall b t1, Q1 (Ok b) t1 -> emits (k b) (fun r t2 => Q r (t1 ++ t2))) ->
  (forall e t1, Q1 (Raise e) t1 -> Q (Raise e) t1) ->
  emits (bind m k) Q.
Proof.
  intros Hm Hk He s. destruct (Hm s) as [t1 [Ht1 Hq1]].
  unfold bind. destruct (m s) as [[b | e] s1]; simpl in *.
  - destruct (Hk b t1 Hq1 s1) as [t2 [Ht2 Hq2]].
    exists (t1 ++ t2). rewrite Ht2, Ht1, app_assoc. auto.
  - exists t1. auto.
Qed.

Lemma emits_try (body : M A) (handler : Exn -> M A)
    (Q1 Q : Result A -> list Event -> Prop) :
  emits body Q1 ->
  (forall a t1, Q1 (Ok a) t1 -> Q (Ok a) t1) ->
  (forall e t1, Q1 (Raise e) t1 ->
     emits (handler e) (fun r t2 => Q r (t1 ++ t2))) ->
  emits (try_except body handler) Q.
Proof.
  intros Hm Hok Hh s. destruct (Hm s) as [t1 [Ht1 Hq1]].
  unfold try_except. destruct (body s) as [[a | e] s1]; simpl in *.
  - exists t1. auto.
  - destruct (Hh e t1 Hq1 s1) as [t2 [Ht2 Hq2]].
    exists (t1 ++ t2). rewrite Ht2, Ht1, app_assoc. auto.
Qed.

Lemma emits_read (c : Call) (r : nat -> Exn + A)
    (Q : Result A -> list Event -> Prop) :
  (forall a, Q (Ok a) [Called c None]) ->
  (forall e, Q (Raise e) [Called c (Some e)]) ->
  emits (read_call c r) Q.
Proof.
  intros Hok He s. unfold read_call, answer.
  destruct (r (reads s)) as [e | a]; simpl; eexists; split; eauto.
Qed.

Lemma emits_write (c : Call) (r : nat -> Exn + A)
    (Q : Result A -> list Event -> Prop) :
  (forall a, Q (Ok a) [Called c None]) ->
  (forall e, Q (Raise e) [Called c (Some e)]) ->
  emits (write_call c r) Q.
Proof.
  intros Hok He s. unfold write_call, answer.
  destruct (r (writes s)) as [e | a]; simpl; eexists; split; eauto.
Qed.

End Emits.

Lemma emits_print (line : Text) (Q : Result unit -> list Event -> Prop) :
  Q (Ok tt) [Printed line] -> emits (print line) Q.
Proof. intros H s. exists [Printed line]. simpl. auto. Qed.

Lemma emits_print_then {A} (line : Text) (k : unit -> M A)
    (Q : Result A -> list Event -> Prop) :
  emits (k tt) (fun r t => Q r (Printed line :: t)) ->
  emits (bind (print line) k) Q.
Proof.
  intros H. eapply emits_bind with (Q1 := fun r t => r = Ok tt /\ t = [Printed line]).
  - apply emits_print. auto.
  - intros [] t1 [_ ->]. exact H.
  - intros e t1 [H1 _]. discriminate.
Qed.

Lemma emits_post (out : Outcomes) (url : string) (text : Text)
    (Q : Result HttpOutcome -> list Event -> Prop) :
  (forall o, Q (Ok o) [Posted url text o]) -> emits (post out url text) Q.
Proof. intros H s. eexists. simpl. split; [reflexivity | apply H]. Qed.

(** A loop is handled by an invariant [J rest acc t] over what remains to be
    visited, the loop-carried value, and the events added so far. *)
Lemma emits_for_each {A S} (body : A -> S -> M S)
    (J : list A -> S -> list Event -> Prop)
    (Q : Result S -> list Event -> Prop) :
  (forall x rest acc t, J (x :: rest) acc t ->
     emits (body x acc)
       (fun r t' => match r with
                    | Ok acc' => J rest acc' (t ++ t')
                    | Raise e => Q (Raise e) (t ++ t')
                    end)) ->
  (forall acc t, J [] acc t -> Q (Ok acc) t) ->
  forall xs acc t,
    J xs acc t -> emits (for_each xs body acc) (fun r t' => Q r (t ++ t')).
Proof.
  intros Hbody Hend. induction xs as [| x rest IH]; intros acc t HJ; simpl.
  - apply emits_ret. rewrite app_nil_r. auto.
  - eapply emits_bind.
    + apply (Hbody x rest acc t HJ).
    + intros acc' t1 HJ'. simpl in HJ'.
      eapply emits_weaken; [apply (IH acc' (t ++ t1) HJ') |].
      intros r t2. simpl. rewrite app_assoc. auto.
    + intros e t1 H. exact H.
Qed.

Lemma emits_for_pages {P S} (c : Call) (body : P -> S -> M S)
    (J : list (Exn + P) -> S -> list Event -> Prop)
    (Q : Result S -> list Event -> Prop) :
  (forall p rest acc t, J (inr p :: rest) acc t ->
     emits (body p acc)
       (fun r t' => match r with
                    | Ok acc' => J rest acc' (t ++ Called c None :: t')
                    | Raise e => Q (Raise e) (t ++ Called c None :: t')
                    end)) ->
  (forall e rest acc t, J (inl e :: rest) acc t ->
     Q (Raise e) (t ++ [Called c (Some e)])) ->
  (forall acc t, J [] acc t -> Q (Ok acc) t) ->
  forall pages acc t,
    J pages acc t ->
    emits (for_pages c pages body acc) (fun r t' => Q r (t ++ t')).
Proof.
  intros Hbody Hfail Hend.
  induction pages as [| p rest IH]; intros acc t HJ; simpl.
  - apply emits_ret. rewrite app_nil_r. auto.
  - intros s. unfold bind at 1. unfold read_call, answer.
    destruct p as [e | p]; simpl.
    + eexists. split; [reflexivity |]. eapply Hfail; eauto.
    + set (s1 := emit (Called c None) _).
      assert (H : emits (acc' <- body p acc ;; for_pages c rest body acc')
                    (fun r t' => Q r (t ++ Called c None :: t'))).
      { eapply emits_bind.
        - apply (Hbody p rest acc t HJ).
        - intros acc' t1 HJ'. simpl in HJ'.
          eapply emits_weaken; [apply (IH acc' _ HJ') |].
          intros r t2. simpl. rewrite <- app_assoc. simpl. auto.
        - intros e t1 H. exact H. }
      destruct (H s1) as [t1 [Ht1 Hq]].
      exists (Called c None :: t1). split; [| exact Hq].
      rewrite Ht1. unfold s1. simpl. rewrite <- app_assoc. reflexivity.
Qed.

(** ** The mutating helpers *)

(** Straight-line code is run symbolically: unfold, split on what the
    services answer, and read the events off the final trace. *)
Ltac run_through :=
  unfold try_except, bind, print, ret, write_call, read_call, answer, emit;
  simpl.

Ltac read_trace :=
  eexists; split; [simpl; rewrite <- ?app_assoc; reflexivity |]; simpl.

Lemma deactivate_key_emits (out : Outcomes) (username access_key_id : string) :
  emits (deactivate_key out username access_key_id)
    (fun r t =>
       r = Ok tt /\
       exists f,
         calls t = [(UpdateAccessKey username access_key_id "Inactive", f)]).
Proof.
  intros s. unfold deactivate_key. run_through.
  destruct (update_access_key out (writes s) username access_key_id "Inactive");
    read_trace; eauto.
Qed.

Lemma store_access_key_emits (cfg : Config) (out : Outcomes)
    (username : string) (k : AccessKey) :
  emits (store_access_key_in_secrets_manager cfg out username k)
    (fun r t =>
       r = Ok tt /\
       publishes (secret_name_of cfg username) (payload_of username k)
         (calls t)).
Proof.
  intros s. unfold store_access_key_in_secrets_manager. run_through.
  fold (secret_name_of cfg username). fold (payload_of username k).
  destruct (create_secret out (writes s) (secret_name_of cfg username)
              (payload_of username k)) as [[m | m] | []]; simpl.
  - destruct (put_secret_value out (S (writes s)) (secret_name_of cfg username)
                (payload_of username k));
      read_trace; (split; [reflexivity |]); right; left; eauto.
  - read_trace. split; [reflexivity |]. right; right; eauto.
  - read_trace. split; [reflexivity |]. left; reflexivity.
Qed.

(** Creating a key: either the call raised and there is no key, or it
    returned the key, which was then published, whatever became of that. *)
Lemma create_new_access_key_emits (cfg : Config) (out : Outcomes)
    (username : string) :
  emits (create_new_access_key cfg out username)
    (fun r t =>
       (exists e, r = Ok None /\ calls t = [(CreateAccessKey username, Some e)]) \/
       (exists k cs,
           r = Ok (Some k) /\
           calls t = (CreateAccessKey username, None) :: cs /\
           publishes (secret_name_of cfg username) (payload_of username k) cs)).
Proof.
  unfold create_new_access_key.
  eapply emits_try with
    (Q1 := fun r t =>
       (exists e, r = Raise e /\ calls t = [(CreateAccessKey username, Some e)]) \/
       (exists k cs,
           r = Ok (Some k) /\
           calls t = (CreateAccessKey username, None) :: cs /\
           publishes (secret_name_of cfg username) (payload_of username k) cs)).
  - apply emits_print_then.
    eapply emits_bind with
      (Q1 := fun r t => calls t = match r with
                                  | Ok _ => [(CreateAccessKey username, None)]
                                  | Raise e => [(CreateAccessKey username, Some e)]
                                  end).
    + apply emits_write; reflexivity.
    + intros k t2 Ht2. apply emits_print_then.
      eapply emits_bind; [apply store_access_key_emits | |].
      * intros [] t4 [_ Hp]. apply emits_ret. right.
        exists k, (calls t4). split; [reflexivity |]. split; [| exact Hp].
        simpl. rewrite !calls_app, Ht2, app_nil_r. reflexivity.
      * intros e t4 [H _]. discriminate.
    + intros e t2 Ht2. left. exists e. split; [reflexivity |]. exact Ht2.
  - intros o t1 [[e [H _]] | H]; [discriminate | right; exact H].
  - intros e t1 [[e' [H Hc]] | [k [cs [H _]]]]; [| discriminate].
    injection H as <-.
    apply emits_print_then. apply emits_ret. left. exists e.
    split; [reflexivity |]. rewrite !calls_app, Hc. reflexivity.
Qed.

(** ** One key, one user, all users *)

Lemma deactivation_emits (cfg : Config) (out : Outcomes)
    (username access_key_id : string) (line : Text) :
  emits (if negb (DRY_RUN cfg) then deactivate_key out username access_key_id
         else print line)
    (fun r t => r = Ok tt /\ deactivation cfg username access_key_id (calls t)).
Proof.
  unfold deactivation. destruct (DRY_RUN cfg); simpl.
  - apply emits_print. auto.
  - apply deactivate_key_emits.
Qed.

Lemma creation_emits (cfg : Config) (out : Outcomes) (username : string)
    (line : Text) (c : option NewKey) :
  emits (match c with
         | None =>
             if negb (DRY_RUN cfg) then
               access_key <- create_new_access_key cfg out username ;;
               ret (option_map Created access_key)
             else print line ;; ret (Some DRY_RUN_PLACEHOLDER)
         | Some k => ret (Some k)
         end)
    (fun r t => exists c', r = Ok c' /\ creation cfg username c c' (calls t)).
Proof.
  destruct c as [k |].
  - apply emits_ret. exists (Some k). split; [reflexivity | constructor].
  - destruct (DRY_RUN cfg) eqn:D; simpl.
    + apply emits_print_then. apply emits_ret. eexists. split; [reflexivity |].
      simpl. constructor. exact D.
    + eapply emits_bind; [apply create_new_access_key_emits | |].
      * intros o t1 H. apply emits_ret. rewrite app_nil_r.
        destruct H as [[e [H Hc]] | [k [cs [H [Hc Hp]]]]];
          injection H as ->; simpl; eexists; (split; [reflexivity |]);
          rewrite Hc; constructor; assumption.
      * intros e t1 [[e' [H _]] | [k [cs [H _]]]]; discriminate.
Qed.

(** The loop body: it fails only where the last use is read; otherwise it
    reads the last use and takes one [key_step]. *)
Lemma process_key_emits (cfg : Config) (inv : Inventory) (out : Outcomes)
    (username : string) (now : datetime) (it rt : timedelta)
    (key_meta : KeyMeta) (l : KeysLoop) :
  emits (process_key cfg inv out username now it rt key_meta l)
    (fun r t =>
       match r with
       | Raise e =>
           calls t = [(GetAccessKeyLastUsed (AccessKeyId key_meta), Some e)]
       | Ok l' =>
           exists cs,
             calls t = (GetAccessKeyLastUsed (AccessKeyId key_meta), None) :: cs /\
             key_step cfg username (AccessKeyId key_meta) l l' cs
       end).
Proof.
  unfold process_key. apply emits_print_then.
  eapply emits_bind with
    (Q1 := fun r t =>
       calls t = [(GetAccessKeyLastUsed (AccessKeyId key_meta),
                   match r with Ok _ => None | Raise e => Some e end)]);
    [apply emits_read; reflexivity | | intros e t1 H; exact H].
  intros last_used t1 Ht1.
  eapply emits_bind with (Q1 := fun r t => calls t = [] /\ exists a, r = Ok a).
  { destruct last_used; apply emits_print_then; apply emits_ret; eauto. }
  2: { intros e t2 [_ [a H]]. discriminate. }
  intros inactivity_age t2 [Ht2 _].
  destruct (it <? inactivity_age).
  - apply emits_print_then.
    eapply emits_bind; [apply deactivation_emits | |].
    + intros [] t3 [_ Hd]. apply emits_ret. simpl.
      exists (calls t3). calls_norm. rewrite Ht1, Ht2.
      split; [reflexivity |]. apply step_deactivate. exact Hd.
    + intros e t3 [H _]. discriminate.
  - destruct (String.eqb (Status key_meta) "Active" && (rt <? now - CreateDate key_meta)).
    + apply emits_print_then.
      eapply emits_bind; [apply creation_emits | |].
      * intros c' t3 [c'' [H Hcr]]. injection H as <-.
        eapply emits_bind; [apply deactivation_emits | |].
        -- intros [] t4 [_ Hd]. apply emits_ret. simpl.
           exists (calls t3 ++ calls t4).
           calls_norm. rewrite Ht1, Ht2.
           split; [reflexivity |]. apply step_rotate; assumption.
        -- intros e t4 [H _]. discriminate.
      * intros e t3 [c' [H _]]. discriminate.
    + apply emits_ret. simpl. exists []. calls_norm. rewrite Ht1, Ht2.
      split; [reflexivity | constructor].
Qed.

Lemma deactivation_dry (cfg : Config) (username id : string)
    (cs : list (Call * option Exn)) :
  DRY_RUN cfg = true -> deactivation cfg username id cs -> cs = [].
Proof. unfold deactivation. intros ->. auto. Qed.

Lemma deactivation_creates (cfg : Config) (username id u : string)
    (cs : list (Call * option Exn)) :
  deactivation cfg username id cs -> filter (creates_for u) cs = [].
Proof.
  unfold deactivation. destruct (DRY_RUN cfg); [intros -> | intros [f ->]];
    reflexivity.
Qed.

Lemma publishes_creates (name u : string) (p : SecretPayload)
    (cs : list (Call * option Exn)) :
  publishes name p cs -> filter (creates_for u) cs = [].
Proof. intros [-> | [[m [f ->]] | [m ->]]]; reflexivity. Qed.

Lemma key_step_dry (cfg : Config) (username id : string) (l l' : KeysLoop)
    (cs : list (Call * option Exn)) :
  DRY_RUN cfg = true -> key_step cfg username id l l' cs -> cs = [].
Proof.
  intros D H. destruct H as [| cs Hd | c' cs1 cs2 Hc Hd].
  - reflexivity.
  - eapply deactivation_dry; eauto.
  - rewrite (deactivation_dry _ _ _ _ D Hd), app_nil_r.
    destruct Hc; congruence.
Qed.

(** One step creates at most one key, for its own user, and none once
    [created_new_key] is set; and it leaves [created_new_key] unset only if
    it created none. *)
Lemma key_step_creates (cfg : Config) (username id u : string)
    (l l' : KeysLoop) (cs : list (Call * option Exn)) :
  key_step cfg username id l l' cs ->
  let n := List.length (filter (creates_for u) cs) in
  (n <= if String.eqb u username then 1 else 0)%nat /\
  (created_new_key l <> None -> n = 0%nat /\ created_new_key l' <> None) /\
  (created_new_key l' = None -> n = 0%nat).
Proof.
  intros H. destruct H as [| cs Hd | c' cs1 cs2 Hc Hd]; simpl.
  - repeat split; auto. destruct (String.eqb u username); lia.
  - rewrite (deactivation_creates _ _ _ u _ Hd). simpl.
    repeat split; auto. destruct (String.eqb u username); lia.
  - rewrite filter_app, (deactivation_creates _ _ _ u _ Hd), app_nil_r.
    destruct Hc as [k | D | e D | k cs D Hp]; simpl.
    + repeat split; auto; try discriminate.
      destruct (String.eqb u username); lia.
    + repeat split; auto; try discriminate; try tauto.
      destruct (String.eqb u username); lia.
    + repeat split; auto; try tauto.
      destruct (String.eqb u username); lia.
    + rewrite (publishes_creates _ u _ _ Hp), String.eqb_sym.
      destruct (String.eqb u username); simpl;
        repeat split; auto; try discriminate; try tauto.
Qed.

Lemma ends_at_failed_read_app (e : Exn) (t t' : list Event) :
  ends_at_failed_read e t' -> ends_at_failed_read e (t ++ t').
Proof.
  intros [c [cs [Hc H]]]. exists c, (calls t ++ cs). split; [exact Hc |].
  rewrite calls_app, H, app_assoc. reflexivity.
Qed.

Lemma ends_at_failed_read_last (e : Exn) (c : Call) (t : list Event) :
  is_mutation c = false -> ends_at_failed_read e (t ++ [Called c (Some e)]).
Proof.
  intros Hc. exists c, (calls t). split; [exact Hc |].
  rewrite calls_app. reflexivity.
Qed.

(** The keys of one user: at most one key is created, and for that user. *)
Lemma process_user_keys_emits (cfg : Config) (inv : Inventory) (out : Outcomes)
    (username : string) (now : datetime) (it rt : timedelta) :
  emits (process_user_keys cfg inv out username now it rt)
    (keys_run cfg (fun u => if String.eqb u username then 1 else 0)%nat).
Proof.
  unfold process_user_keys.
  eapply emits_bind with
    (Q1 := fun r t =>
       calls t = [(ListAccessKeys username,
                   match r with Ok _ => None | Raise e => Some e end)]);
    [apply emits_read; reflexivity | |].
  2: { intros e t1 Ht1. unfold keys_run, created_for, mutation_calls.
       rewrite Ht1. simpl. repeat split; auto.
       - intros u. destruct (String.eqb u username); lia.
       - intros e' H. injection H as <-.
         exists (ListAccessKeys username), []. split; [reflexivity | exact Ht1]. }
  intros access_keys t1 Ht1.
  assert (H0 : forall u, created_for u t1 = 0%nat)
    by (intros u; unfold created_for; rewrite Ht1; reflexivity).
  assert (M0 : mutation_calls t1 = [])
    by (unfold mutation_calls; rewrite Ht1; reflexivity).
  destruct access_keys as [| k ks].
  - apply emits_print_then. apply emits_ret. unfold keys_run.
    rewrite mutation_calls_app, M0. repeat split; auto; try discriminate.
    intros u. rewrite created_for_app, H0. unfold created_for. simpl.
    destruct (String.eqb u username); lia.
  - set (keys := k :: ks).
    eapply emits_bind with
      (Q1 := fun r t =>
         (keys_run cfg (fun u => if String.eqb u username then 1 else 0)%nat r)
           (t1 ++ t)).
    2: { intros l t2 [H1 [H2 _]]. apply emits_ret. rewrite app_nil_r.
         repeat split; auto; discriminate. }
    2: { intros e t2 [H1 [H2 H3]]. repeat split; auto.
         intros e' He. injection He as <-. apply H3. reflexivity. }
    apply emits_for_each with
      (J := fun (rest : list KeyMeta) l t =>
              (forall u,
                  (created_for u t <= if String.eqb u username then 1 else 0)%nat /\
                  (created_new_key l = None -> created_for u t = 0%nat)) /\
              (DRY_RUN cfg = true -> mutation_calls t = [])).
    + intros x rest l t [Hn Hm].
      eapply emits_weaken; [apply process_key_emits |].
      intros [l' | e] t' H.
      * destruct H as [cs [Hc Hs]]. split.
        -- intros u. rewrite created_for_app.
           pose proof (key_step_creates _ _ _ u _ _ _ Hs) as [K1 [K2 K3]].
           destruct (Hn u) as [N1 N2].
           assert (E : created_for u t' =
                       List.length (filter (creates_for u) cs))
             by (unfold created_for; rewrite Hc; reflexivity).
           rewrite E. destruct (created_new_key l) eqn:C.
           ++ destruct K2 as [K2 K2']; [discriminate |]. rewrite K2.
              split; [lia | tauto].
           ++ rewrite N2 by reflexivity. simpl. split; [exact K1 | exact K3].
        -- intros D. rewrite mutation_calls_app, (Hm D).
           unfold mutation_calls. rewrite Hc, (key_step_dry _ _ _ _ _ _ D Hs). reflexivity.
      * assert (E : forall u, created_for u t' = 0%nat)
          by (intros u; unfold created_for; rewrite H; reflexivity).
        repeat split.
        -- intros u. rewrite created_for_app, E. destruct (Hn u). lia.
        -- intros D. rewrite mutation_calls_app, (Hm D).
           unfold mutation_calls. rewrite H. reflexivity.
        -- intros e' He. injection He as <-. apply ends_at_failed_read_app.
           eexists _, []. split; [| exact H]. reflexivity.
    + intros l t [Hn Hm]. repeat split; auto; try discriminate.
      intros u. apply Hn.
    + split; [| exact (fun _ => M0)].
      intros u. rewrite H0. split; [| reflexivity].
      destruct (String.eqb u username); lia.
Qed.

Lemma count_occ_one (username u : string) :
  (if String.eqb u username then 1 else 0)%nat =
  count_occ string_dec [username] u.
Proof.
  simpl. destruct (string_dec username u) as [-> | N].
  - rewrite String.eqb_refl. reflexivity.
  - destruct (String.eqb_spec u username); congruence.
Qed.

(** All users: a user gets at most as many new keys as the number of times
    the listing names it. *)
Lemma manage_iam_keys_emits (cfg : Config) (inv : Inventory) (out : Outcomes)
    (now : datetime) :
  emits (manage_iam_keys cfg inv out now)
    (keys_run cfg (count_occ string_dec (listed_users inv))).
Proof.
  unfold manage_iam_keys. apply emits_print_then.
  set (Q := fun (r : Result IamStats) t =>
              keys_run cfg (count_occ string_dec (listed_users inv)) r t).
  eapply emits_bind with (Q1 := Q).
  2: { intros stats t [H1 [H2 _]]. apply emits_ret. rewrite app_nil_r.
       repeat split; auto. discriminate. }
  2: { intros e t H. exact H. }
  unfold listed_users.
  eapply emits_weaken with (Q := fun r t' => Q r ([] ++ t')); [| auto].
  apply emits_for_pages with
    (Q := Q) (t := [])
    (J := fun (rest : list (Exn + UsersPage)) (stats : IamStats) t =>
            (forall u, (created_for u t + count_occ string_dec (page_users rest) u
                        <= count_occ string_dec (page_users (list_users inv)) u)%nat) /\
            (DRY_RUN cfg = true -> mutation_calls t = [])).
  - intros p rest stats t [Hn Hm].
    set (Q' := fun (r : Result IamStats) t =>
                 match r with
                 | Ok _ =>
                     (forall u, (created_for u t
                                 + count_occ string_dec (page_users rest) u
                                 <= count_occ string_dec
                                      (page_users (list_users inv)) u)%nat) /\
                     (DRY_RUN cfg = true -> mutation_calls t = [])
                 | Raise e => Q (Raise e) t
                 end).
    eapply emits_weaken with
      (Q := fun r t' => Q' r ((t ++ [Called ListUsers None]) ++ t')).
    2: { intros r t'. rewrite <- app_assoc. simpl. auto. }
    apply emits_for_each with
      (Q := Q') (t := t ++ [Called ListUsers None])
      (J := fun (users : list string) (stats : IamStats) t =>
              (forall u, (created_for u t + count_occ string_dec users u
                          + count_occ string_dec (page_users rest) u
                          <= count_occ string_dec
                               (page_users (list_users inv)) u)%nat) /\
              (DRY_RUN cfg = true -> mutation_calls t = [])).
    + intros username users stats' t0 [Hn0 Hm0].
      destruct (not_allowed cfg username).
      * apply emits_print_then. apply emits_ret. split.
        -- intros u. specialize (Hn0 u). obs_norm. simpl in Hn0.
           destruct (string_dec username u); lia.
        -- intros D. obs_norm. rewrite (Hm0 D). reflexivity.
      * apply emits_print_then.
        eapply emits_bind; [apply process_user_keys_emits | |].
        -- intros dr t1 [K1 [K2 _]]. apply emits_ret. split.
           ++ intros u. specialize (Hn0 u). specialize (K1 u).
              rewrite count_occ_one in K1. obs_norm.
              simpl in Hn0, K1. destruct (string_dec username u); lia.
           ++ intros D. obs_norm. rewrite (Hm0 D), (K2 D). reflexivity.
        -- intros e t1 [K1 [K2 K3]]. unfold Q', Q, keys_run, listed_users. repeat split.
           ++ intros u. specialize (Hn0 u). specialize (K1 u).
              rewrite count_occ_one in K1. obs_norm.
              simpl in Hn0, K1. destruct (string_dec username u); lia.
           ++ intros D. obs_norm. rewrite (Hm0 D), (K2 D). reflexivity.
           ++ intros e' He. injection He as <-.
              apply ends_at_failed_read_app.
              apply (ends_at_failed_read_app e [Printed _] t1).
              apply K3. reflexivity.
    + intros stats' t0 [Hn0 Hm0]. split; [| exact Hm0].
      intros u. specialize (Hn0 u). simpl in Hn0. lia.
    + split.
      * intros u. specialize (Hn u). obs_norm. simpl in Hn.
        rewrite count_occ_app in Hn. lia.
      * intros D. obs_norm. rewrite (Hm D). reflexivity.
  - intros e rest stats t [Hn Hm]. unfold Q, keys_run, listed_users. repeat split.
    + intros u. specialize (Hn u). obs_norm. lia.
    + intros D. obs_norm. rewrite (Hm D). reflexivity.
    + intros e' He. injection He as <-.
      apply ends_at_failed_read_last. reflexivity.
  - intros stats t [Hn Hm]. unfold Q, keys_run, listed_users. repeat split; auto.
    + intros u. specialize (Hn u). simpl in Hn. lia.
    + discriminate.
  - split; [| reflexivity]. intros u. simpl. lia.
Qed.

(** ** Instances *)

Lemma candidates_app (now : datetime) (l1 l2 : list Instance) :
  candidates now (l1 ++ l2) = candidates now l1 ++ candidates now l2.
Proof. unfold candidates. rewrite filter_app, map_app. reflexivity. Qed.

(** The body of the innermost loop appends the instance when it has been
    running for more than 24 hours, and only prints. *)
Lemma scan_reservation_emits (now : datetime) (reservation : Reservation)
    (acc : list string) :
  emits
    (for_each reservation
       (fun instance instances_to_stop =>
          let instance_id := InstanceId instance in
          let launch_time := LaunchTime instance in
          let running_duration := now - launch_time in
          print [Txt "Instance "; Str instance_id; Txt " launched at ";
                 Time launch_time; Txt ", "; Txt "running for ";
                 Delta running_duration] ;;
          if timedelta_hours 24 <? running_duration
          then ret (instances_to_stop ++ [instance_id])
          else ret instances_to_stop) acc)
    (fun r t => r = Ok (acc ++ candidates now reservation) /\ calls t = []).
Proof.
  revert acc. induction reservation as [| i rest IH]; intros acc; simpl.
  - apply emits_ret. unfold candidates. simpl. rewrite app_nil_r. auto.
  - eapply emits_bind with
      (Q1 := fun r t => r = Ok (acc ++ candidates now [i]) /\ calls t = []).
    + apply emits_print_then.
      change (candidates now [i])
        with (map InstanceId (if running_over_24h now i then [i] else [])).
      unfold running_over_24h.
      destruct (timedelta_hours 24 <? now - LaunchTime i); apply emits_ret;
        cbn [map]; rewrite ?app_nil_r; auto.
    + intros acc' t1 [H Ht1]. injection H as ->.
      eapply emits_weaken; [apply IH |]. simpl. intros r t2 [-> Ht2].
      rewrite <- app_assoc, <- candidates_app, calls_app, Ht1, Ht2. auto.
    + intros e t1 [H _]. discriminate.
Qed.

Lemma scan_page_emits (now : datetime) (page : InstancesPage)
    (body : Reservation -> list string -> M (list string)) (acc : list string) :
  (forall reservation acc,
      emits (body reservation acc)
        (fun r t => r = Ok (acc ++ candidates now reservation) /\ calls t = [])) ->
  emits (for_each page body acc)
    (fun r t => r = Ok (acc ++ candidates now (List.concat page)) /\ calls t = []).
Proof.
  intros Hbody. revert acc. induction page as [| x rest IH]; intros acc; simpl.
  - apply emits_ret. unfold candidates. simpl. rewrite app_nil_r. auto.
  - eapply emits_bind; [apply Hbody | |].
    + intros acc' t1 [H Ht1]. injection H as ->.
      eapply emits_weaken; [apply IH |]. simpl. intros r t2 [-> Ht2].
      rewrite <- app_assoc, <- candidates_app, calls_app, Ht1, Ht2. auto.
    + intros e t1 [H _]. discriminate.
Qed.

(** The scan ends with all the candidates of the pages when every fetch
    succeeded, and at the first fetch that failed otherwise; it mutates
    nothing. *)
Lemma scan_pages_emits (now : datetime) (c : Call)
    (pages : list (Exn + InstancesPage))
    (body : InstancesPage -> list string -> M (list string))
    (acc : list string) :
  is_mutation c = false ->
  (forall page acc,
      emits (body page acc)
        (fun r t => r = Ok (acc ++ candidates now (List.concat page)) /\
                    calls t = [])) ->
  emits (for_pages c pages body acc)
    (fun r t =>
       mutation_calls t = [] /\
       match r with
       | Ok ids => ids = acc ++ stop_candidates now (ok_pages pages)
       | Raise e => ends_at_failed_read e t
       end).
Proof.
  intros Hc Hbody.
  set (Q := fun (r : Result (list string)) t =>
              mutation_calls t = [] /\
              match r with
              | Ok ids => ids = acc ++ stop_candidates now (ok_pages pages)
              | Raise e => ends_at_failed_read e t
              end).
  eapply emits_weaken with (Q := fun r t' => Q r ([] ++ t')); [| auto].
  apply emits_for_pages with
    (Q := Q) (t := [])
    (J := fun (rest : list (Exn + InstancesPage)) acc' t =>
            mutation_calls t = [] /\
            acc' ++ stop_candidates now (ok_pages rest) =
            acc ++ stop_candidates now (ok_pages pages)).
  - intros p rest acc' t [Hm Ha].
    eapply emits_weaken; [apply Hbody |]. simpl. intros r t' [-> Ht'].
    split.
    + rewrite mutation_calls_app, Hm, mutation_calls_read by exact Hc.
      unfold mutation_calls. rewrite Ht'. reflexivity.
    + rewrite <- Ha. unfold stop_candidates. simpl.
      rewrite concat_app, candidates_app, app_assoc. reflexivity.
  - intros e rest acc' t [Hm Ha]. split.
    + rewrite mutation_calls_app, Hm, mutation_calls_read by exact Hc.
      reflexivity.
    + apply ends_at_failed_read_last. exact Hc.
  - intros acc' t [Hm Ha]. split; [exact Hm |].
    rewrite <- Ha. unfold stop_candidates, candidates. simpl.
    rewrite app_nil_r. reflexivity.
  - split; reflexivity.
Qed.

Lemma stop_old_ec2_instances_emits (cfg : Config) (inv : Inventory)
    (out : Outcomes) (now : datetime) :
  emits (stop_old_ec2_instances cfg inv out now)
    (fun r t =>
       match r with
       | Ok stats =>
           reaped cfg
             (stop_candidates now
                (ok_pages (describe_instances inv (filters cfg))))
             stats (mutation_calls t)
       | Raise e => ends_at_failed_read e t /\ mutation_calls t = []
       end).
Proof.
  unfold stop_old_ec2_instances. apply emits_print_then.
  eapply emits_bind.
  - apply scan_pages_emits with (now := now); [reflexivity |].
    intros page acc. apply scan_page_emits.
    intros reservation acc'. apply scan_reservation_emits.
  - intros ids t1 [Hm ->]. simpl.
    set (cands := stop_candidates now
                    (ok_pages (describe_instances inv (filters cfg)))).
    destruct cands as [| i rest] eqn:E.
    + apply emits_print_then. apply emits_ret. obs_norm. rewrite Hm.
      split; [reflexivity | auto].
    + apply emits_print_then. unfold reaped.
      destruct (DRY_RUN cfg).
      * eapply emits_bind with
          (Q1 := fun r t => r = Ok 0%nat /\ mutation_calls t = []).
        -- apply emits_print_then. apply emits_ret. auto.
        -- intros n t2 [H Ht2]. injection H as ->. apply emits_ret.
           obs_norm. rewrite Hm, Ht2. simpl. auto.
        -- intros e t2 [H _]. discriminate.
      * eapply emits_bind with
          (Q1 := fun r t =>
             exists f,
               mutation_calls t = [(StopInstances (i :: rest), f)] /\
               r = Ok (match f with
                       | None => List.length (i :: rest)
                       | Some _ => 0%nat
                       end)).
        -- eapply emits_try with
             (Q1 := fun r t =>
                match r with
                | Ok n =>
                    mutation_calls t = [(StopInstances (i :: rest), None)] /\
                    n = List.length (i :: rest)
                | Raise e =>
                    mutation_calls t = [(StopInstances (i :: rest), Some e)]
                end).
           ++ eapply emits_bind with
                (Q1 := fun r t =>
                   mutation_calls t =
                     [(StopInstances (i :: rest),
                       match r with Ok _ => None | Raise e => Some e end)]).
              ** apply emits_write; reflexivity.
              ** intros response t2 Ht2. apply emits_print_then.
                 apply emits_ret. obs_norm. rewrite Ht2. auto.
              ** intros e t2 Ht2. exact Ht2.
           ++ intros n t2 [Ht2 ->]. exists None. auto.
           ++ intros e t2 Ht2. apply emits_print_then. apply emits_ret.
              exists (Some e). obs_norm. rewrite Ht2. auto.
        -- intros n t2 [f [Ht2 H]]. injection H as ->. apply emits_ret.
           obs_norm. rewrite Hm, Ht2. simpl. split; [reflexivity |].
           exists f. auto.
        -- intros e t2 [f [_ H]]. discriminate.
  - intros e t1 [Hm He]. split.
    + apply (ends_at_failed_read_app e [Printed _] t1). exact He.
    + obs_norm. exact Hm.
Qed.

(** ** The notification and the entry point *)

(** Sending the notification never raises and calls no boto3 client. *)
Lemma send_slack_notification_emits (cfg : Config) (out : Outcomes)
    (text : Text) :
  emits (send_slack_notification cfg out text)
    (fun r t => r = Ok tt /\ calls t = []).
Proof.
  unfold send_slack_notification.
  destruct (negb (truthy (SLACK_WEBHOOK_URL cfg))).
  - apply emits_print. auto.
  - destruct (request out _) as [e | _]; [apply emits_print; auto |].
    eapply emits_bind with (Q1 := fun r t => calls t = [] /\ exists o, r = Ok o).
    + apply emits_post. intros o. simpl. eauto.
    + intros o t1 [Ht1 _].
      assert (E : forall t, calls (t1 ++ t) = calls t)
        by (intros t; rewrite calls_app, Ht1; reflexivity).
      destruct o as [status body | code reason [b |] | e].
      * apply emits_print. rewrite E. auto.
      * apply emits_print_then. apply emits_print. rewrite E. auto.
      * apply emits_print_then. apply emits_ret. rewrite E. auto.
      * apply emits_print. rewrite E. auto.
    + intros e t1 [_ [o H]]. discriminate.
Qed.

Lemma mutation_calls_of_calls (t : list Event) :
  calls t = [] -> mutation_calls t = [].
Proof. unfold mutation_calls. intros ->. reflexivity. Qed.

Lemma created_for_mutation_calls (u : string) (t : list Event) :
  created_for u t = List.length (filter (creates_for u) (mutation_calls t)).
Proof.
  unfold created_for, mutation_calls. induction (calls t) as [| [c f] cs IH].
  - reflexivity.
  - destruct c; simpl; try exact IH. destruct f; simpl; [exact IH |].
    destruct (String.eqb username u); simpl; congruence.
Qed.

Lemma reaped_dry (cfg : Config) (ids : list string) (stats : Ec2Stats)
    (ms : list (Call * option Exn)) :
  DRY_RUN cfg = true -> reaped cfg ids stats ms -> ms = [].
Proof.
  unfold reaped. intros ->. destruct ids; tauto.
Qed.

Lemma reaped_creates (cfg : Config) (ids : list string) (stats : Ec2Stats)
    (u : string) (t : list Event) :
  reaped cfg ids stats (mutation_calls t) -> created_for u t = 0%nat.
Proof.
  rewrite created_for_mutation_calls. unfold reaped. intros [_ H].
  destruct ids; [destruct H as [-> _]; reflexivity |].
  destruct (DRY_RUN cfg); [destruct H as [-> _]; reflexivity |].
  destruct H as [f [-> _]]. reflexivity.
Qed.

(** The whole run.  It returns [status_ok] unless a read-only call failed,
    whose exception it then raises; in dry-run it mutates nothing; and a
    user gets at most as many new keys as the listing names it. *)
Lemma lambda_handler_emits (cfg : Config) (inv : Inventory) (out : Outcomes)
    (now : datetime) :
  emits (lambda_handler cfg inv out now)
    (fun r t =>
       match r with
       | Ok v => v = status_ok
       | Raise e => ends_at_failed_read e t
       end /\
       (DRY_RUN cfg = true -> mutation_calls t = []) /\
       (forall u, (created_for u t
                   <= count_occ string_dec (listed_users inv) u)%nat)).
Proof.
  unfold lambda_handler. apply emits_print_then.
  eapply emits_bind; [apply stop_old_ec2_instances_emits | |].
  - intros ec2_stats t1 H1.
    assert (D1 : DRY_RUN cfg = true -> mutation_calls t1 = [])
      by (intros D; exact (reaped_dry _ _ _ _ D H1)).
    assert (C1 : forall u, created_for u t1 = 0%nat)
      by (intros u; exact (reaped_creates _ _ _ u _ H1)).
    eapply emits_bind; [apply manage_iam_keys_emits | |].
    + intros iam_stats t2 [K1 [K2 _]].
      apply emits_print_then. apply emits_print_then.
      eapply emits_bind; [apply send_slack_notification_emits | |].
      * intros [] t3 [_ Ht3]. apply emits_ret.
        pose proof (mutation_calls_of_calls _ Ht3) as M3.
        split; [reflexivity |]. split.
        -- intros D. obs_norm. rewrite (D1 D), (K2 D), M3. reflexivity.
        -- intros u. obs_norm. rewrite (C1 u).
           rewrite (created_for_mutation_calls u t3), M3. simpl.
           specialize (K1 u). lia.
      * intros e t3 [H _]. discriminate.
    + intros e t2 [K1 [K2 K3]]. split; [| split].
      * apply (ends_at_failed_read_app e [Printed _]).
        apply ends_at_failed_read_app. apply K3. reflexivity.
      * intros D. obs_norm. rewrite (D1 D), (K2 D). reflexivity.
      * intros u. obs_norm. rewrite (C1 u). apply K1.
  - intros e t1 [He Hm]. split; [| split].
    + apply (ends_at_failed_read_app e [Printed _]). exact He.
    + intros _. obs_norm. exact Hm.
    + intros u. obs_norm. rewrite created_for_mutation_calls, Hm. simpl. lia.
Qed.

(** ** Two runs side by side *)

Section Rel.

Variable RS : State -> State -> Prop.

Lemma rel_ret {A B} (RA : A -> B -> Prop) (a : A) (b : B) :
  RA a b -> rel RS RA (ret a) (ret b).
Proof. intros H s1 s2 Hs. simpl. auto. Qed.

Lemma rel_bind {A1 A2 B1 B2} (RA : A1 -> A2 -> Prop) (RB : B1 -> B2 -> Prop)
    (m1 : M A1) (m2 : M A2) (k1 : A1 -> M B1) (k2 : A2 -> M B2) :
  rel RS RA m1 m2 ->
  (forall a1 a2, RA a1 a2 -> rel RS RB (k1 a1) (k2 a2)) ->
  rel RS RB (bind m1 k1) (bind m2 k2).
Proof.
  intros Hm Hk s1 s2 Hs. destruct (Hm s1 s2 Hs) as [Hs' Hr].
  unfold bind. destruct (m1 s1) as [[a1 | e1] s1'];
    destruct (m2 s2) as [[a2 | e2] s2']; simpl in *; try contradiction.
  - apply Hk; assumption.
  - auto.
Qed.

Lemma rel_try {A B} (RA : A -> B -> Prop) (b1 : M A) (b2 : M B)
    (h1 : Exn -> M A) (h2 : Exn -> M B) :
  rel RS RA b1 b2 ->
  (forall e, rel RS RA (h1 e) (h2 e)) ->
  rel RS RA (try_except b1 h1) (try_except b2 h2).
Proof.
  intros Hb Hh s1 s2 Hs. destruct (Hb s1 s2 Hs) as [Hs' Hr].
  unfold try_except. destruct (b1 s1) as [[a1 | e1] s1'];
    destruct (b2 s2) as [[a2 | e2] s2']; simpl in *; try contradiction.
  - auto.
  - subst e2. apply Hh. exact Hs'.
Qed.

Lemma rel_for_each {A S1 S2} (RA : S1 -> S2 -> Prop)
    (b1 : A -> S1 -> M S1) (b2 : A -> S2 -> M S2) :
  (forall x a1 a2, RA a1 a2 -> rel RS RA (b1 x a1) (b2 x a2)) ->
  forall xs a1 a2, RA a1 a2 -> rel RS RA (for_each xs b1 a1) (for_each xs b2 a2).
Proof.
  intros Hb. induction xs as [| x rest IH]; intros a1 a2 Ha; simpl.
  - apply rel_ret. exact Ha.
  - eapply rel_bind; [apply Hb; exact Ha | exact IH].
Qed.

Lemma rel_for_pages {P S1 S2} (RA : S1 -> S2 -> Prop) (c : Call)
    (b1 : P -> S1 -> M S1) (b2 : P -> S2 -> M S2) :
  (forall p : Exn + P,
      rel RS eq (read_call c (fun _ => p)) (read_call c (fun _ => p))) ->
  (forall p a1 a2, RA a1 a2 -> rel RS RA (b1 p a1) (b2 p a2)) ->
  forall pages a1 a2,
    RA a1 a2 -> rel RS RA (for_pages c pages b1 a1) (for_pages c pages b2 a2).
Proof.
  intros Hread Hb. induction pages as [| p rest IH]; intros a1 a2 Ha; simpl.
  - apply rel_ret. exact Ha.
  - eapply rel_bind; [apply Hread |]. intros p1 p2 <-.
    eapply rel_bind; [apply Hb; exact Ha | exact IH].
Qed.

End Rel.

(** *** Runs that read the same inventory *)

Lemma same_reads_read {A} (c : Call) (r : nat -> Exn + A) :
  rel same_reads eq (read_call c r) (read_call c r).
Proof.
  intros s1 s2 Hs. unfold same_reads in *. unfold read_call, answer.
  rewrite Hs. destruct (r (reads s2)); simpl; auto.
Qed.

Lemma same_reads_quiet {A B} (m1 : M A) (m2 : M B) :
  reads_nothing m1 -> total m1 -> reads_nothing m2 -> total m2 ->
  rel same_reads (fun _ _ => True) m1 m2.
Proof.
  intros N1 T1 N2 T2 s1 s2 Hs. unfold same_reads in *.
  rewrite N1, N2. split; [exact Hs |].
  destruct (T1 s1) as [a ->], (T2 s2) as [b ->]. exact I.
Qed.

Lemma reads_nothing_ret {A} (a : A) : reads_nothing (ret a).
Proof. intros s. reflexivity. Qed.

Lemma reads_nothing_print (line : Text) : reads_nothing (print line).
Proof. intros s. reflexivity. Qed.

Lemma reads_nothing_write {A} (c : Call) (r : nat -> Exn + A) :
  reads_nothing (write_call c r).
Proof.
  intros s. unfold write_call, answer. destruct (r (writes s)); reflexivity.
Qed.

Lemma reads_nothing_bind {A B} (m : M A) (k : A -> M B) :
  reads_nothing m -> (forall a, reads_nothing (k a)) ->
  reads_nothing (bind m k).
Proof.
  intros Hm Hk s. unfold bind. specialize (Hm s).
  destruct (m s) as [[a | e] s']; simpl in *; [| exact Hm].
  rewrite Hk. exact Hm.
Qed.

Lemma reads_nothing_try {A} (body : M A) (handler : Exn -> M A) :
  reads_nothing body -> (forall e, reads_nothing (handler e)) ->
  reads_nothing (try_except body handler).
Proof.
  intros Hm Hk s. unfold try_except. specialize (Hm s).
  destruct (body s) as [[a | e] s']; simpl in *; [exact Hm |].
  rewrite Hk. exact Hm.
Qed.

Lemma total_of_emits {A} (m : M A) (Q : Result A -> list Event -> Prop) :
  emits m Q -> (forall e t, ~ Q (Raise e) t) -> total m.
Proof.
  intros H HQ s. destruct (H s) as [t [_ Hq]].
  destruct (fst (m s)) as [a | e]; [eauto | destruct (HQ e t Hq)].
Qed.

Ltac reads_nothing :=
  repeat first
    [ apply reads_nothing_print | apply reads_nothing_ret
    | apply reads_nothing_write
    | apply reads_nothing_bind; [| intros ?]
    | apply reads_nothing_try; [| intros ?] ].

Lemma deactivate_key_reads_nothing (out : Outcomes) (username id : string) :
  reads_nothing (deactivate_key out username id).
Proof. unfold deactivate_key. reads_nothing. Qed.

Lemma store_access_key_reads_nothing (cfg : Config) (out : Outcomes)
    (username : string) (k : AccessKey) :
  reads_nothing (store_access_key_in_secrets_manager cfg out username k).
Proof.
  unfold store_access_key_in_secrets_manager. reads_nothing.
  destruct e; reads_nothing.
Qed.

Lemma create_new_access_key_reads_nothing (cfg : Config) (out : Outcomes)
    (username : string) :
  reads_nothing (create_new_access_key cfg out username).
Proof.
  unfold create_new_access_key.
  apply reads_nothing_try; [| intros e; reads_nothing].
  apply reads_nothing_bind; [reads_nothing | intros _].
  apply reads_nothing_bind; [reads_nothing | intros access_key].
  apply reads_nothing_bind; [reads_nothing | intros _].
  apply reads_nothing_bind; [| intros _; reads_nothing].
  apply store_access_key_reads_nothing.
Qed.

Lemma deactivate_key_total (out : Outcomes) (username id : string) :
  total (deactivate_key out username id).
Proof.
  eapply total_of_emits; [apply deactivate_key_emits |].
  intros e t [H _]. discriminate.
Qed.

Lemma create_new_access_key_total (cfg : Config) (out : Outcomes)
    (username : string) :
  total (create_new_access_key cfg out username).
Proof.
  eapply total_of_emits; [apply create_new_access_key_emits |].
  intros e t [[e' [H _]] | [k [cs [H _]]]]; discriminate.
Qed.

Lemma total_ret {A} (a : A) : total (ret a).
Proof. intros s. exists a. reflexivity. Qed.

Lemma total_print (line : Text) : total (print line).
Proof. intros s. exists tt. reflexivity. Qed.

Lemma total_bind {A B} (m : M A) (k : A -> M B) :
  total m -> (forall a, total (k a)) -> total (bind m k).
Proof.
  intros Hm Hk s. unfold bind. destruct (Hm s) as [a Ha].
  destruct (m s) as [r s']. simpl in Ha. subst r. apply Hk.
Qed.

Ltac quiet :=
  repeat first
    [ apply reads_nothing_print | apply reads_nothing_ret
    | apply deactivate_key_reads_nothing
    | apply create_new_access_key_reads_nothing
    | apply total_print | apply total_ret
    | apply deactivate_key_total | apply create_new_access_key_total
    | apply reads_nothing_bind; [| intros ?]
    | apply total_bind; [| intros ?] ].

Lemma same_reads_skip {A1 A2 B1 B2} (RB : B1 -> B2 -> Prop)
    (m1 : M A1) (m2 : M A2) (k1 : A1 -> M B1) (k2 : A2 -> M B2) :
  reads_nothing m1 -> total m1 -> reads_nothing m2 -> total m2 ->
  (forall a1 a2, rel same_reads RB (k1 a1) (k2 a2)) ->
  rel same_reads RB (bind m1 k1) (bind m2 k2).
Proof.
  intros N1 T1 N2 T2 Hk.
  eapply rel_bind; [apply same_reads_quiet; assumption |].
  intros a1 a2 _. apply Hk.
Qed.

(** Whatever the dry-run flag and whatever the mutating calls answer, one
    key makes the same read-only call, counts the same, and fails alike. *)
Lemma process_key_same_reads (cfg1 cfg2 : Config) (inv : Inventory)
    (out1 out2 : Outcomes) (username : string) (now : datetime)
    (it rt : timedelta) (key_meta : KeyMeta) (l1 l2 : KeysLoop) :
  same_counts l1 l2 ->
  rel same_reads same_counts
    (process_key cfg1 inv out1 username now it rt key_meta l1)
    (process_key cfg2 inv out2 username now it rt key_meta l2).
Proof.
  intros [Hd Hr]. unfold process_key.
  apply same_reads_skip; [quiet .. |]. intros _ _.
  eapply rel_bind; [apply same_reads_read |]. intros last_used ? <-.
  eapply rel_bind with (RA := eq).
  { destruct last_used; (apply same_reads_skip; [quiet .. |]); intros _ _;
      apply rel_ret; reflexivity. }
  intros inactivity_age ? <-.
  destruct (it <? inactivity_age).
  - apply same_reads_skip; [quiet .. |]. intros _ _.
    apply same_reads_skip;
      [destruct (DRY_RUN cfg1); quiet | destruct (DRY_RUN cfg1); quiet
      | destruct (DRY_RUN cfg2); quiet | destruct (DRY_RUN cfg2); quiet |].
    intros _ _. apply rel_ret. split; simpl; congruence.
  - destruct (String.eqb (Status key_meta) "Active"
              && (rt <? now - CreateDate key_meta)).
    + apply same_reads_skip; [quiet .. |]. intros _ _.
      apply same_reads_skip;
        [destruct (created_new_key l1), (DRY_RUN cfg1); quiet
        | destruct (created_new_key l1), (DRY_RUN cfg1); quiet
        | destruct (created_new_key l2), (DRY_RUN cfg2); quiet
        | destruct (created_new_key l2), (DRY_RUN cfg2); quiet |].
      intros c1 c2.
      apply same_reads_skip;
        [destruct (DRY_RUN cfg1); quiet | destruct (DRY_RUN cfg1); quiet
        | destruct (DRY_RUN cfg2); quiet | destruct (DRY_RUN cfg2); quiet |].
      intros _ _. apply rel_ret. split; simpl; congruence.
    + apply rel_ret. split; assumption.
Qed.

Lemma process_user_keys_same_reads (cfg1 cfg2 : Config) (inv : Inventory)
    (out1 out2 : Outcomes) (username : string) (now : datetime)
    (it rt : timedelta) :
  rel same_reads eq
    (process_user_keys cfg1 inv out1 username now it rt)
    (process_user_keys cfg2 inv out2 username now it rt).
Proof.
  unfold process_user_keys.
  eapply rel_bind; [apply same_reads_read |]. intros access_keys ? <-.
  destruct access_keys as [| k ks].
  - apply same_reads_skip; [quiet .. |]. intros _ _. apply rel_ret. reflexivity.
  - eapply rel_bind with (RA := same_counts).
    + apply rel_for_each.
      * intros x a1 a2 Ha. apply process_key_same_reads. exact Ha.
      * split; reflexivity.
    + intros a1 a2 [Hd Hr]. apply rel_ret. congruence.
Qed.

Lemma manage_iam_keys_same_reads (cfg1 cfg2 : Config) (inv : Inventory)
    (out1 out2 : Outcomes) (now : datetime) :
  IAM_ALLOWED_USERS cfg1 = IAM_ALLOWED_USERS cfg2 ->
  rel same_reads eq
    (manage_iam_keys cfg1 inv out1 now) (manage_iam_keys cfg2 inv out2 now).
Proof.
  intros Hallow. unfold manage_iam_keys.
  apply same_reads_skip; [quiet .. |]. intros _ _.
  eapply rel_bind with (RA := eq); [| intros a ? <-; apply rel_ret; reflexivity].
  apply rel_for_pages; [intros p; apply same_reads_read | | reflexivity].
  intros page a ? <-. apply rel_for_each; [| reflexivity].
  intros username stats ? <-.
  unfold not_allowed. rewrite <- Hallow.
  fold (not_allowed cfg1 username). destruct (not_allowed cfg1 username).
  - apply same_reads_skip; [quiet .. |]. intros _ _. apply rel_ret. reflexivity.
  - apply same_reads_skip; [quiet .. |]. intros _ _.
    eapply rel_bind; [apply process_user_keys_same_reads |].
    intros dr ? <-. apply rel_ret. reflexivity.
Qed.

Lemma stop_old_ec2_instances_same_reads (cfg1 cfg2 : Config) (inv : Inventory)
    (out1 out2 : Outcomes) (now : datetime) :
  filters cfg1 = filters cfg2 ->
  rel same_reads (fun a b => instances_to_stop a = instances_to_stop b)
    (stop_old_ec2_instances cfg1 inv out1 now)
    (stop_old_ec2_instances cfg2 inv out2 now).
Proof.
  intros Hf. unfold stop_old_ec2_instances. rewrite <- Hf.
  apply same_reads_skip; [quiet .. |]. intros _ _.
  eapply rel_bind with (RA := eq).
  - apply rel_for_pages; [intros p; apply same_reads_read | | reflexivity].
    intros page a ? <-. apply rel_for_each; [| reflexivity].
    intros reservation a' ? <-. apply rel_for_each; [| reflexivity].
    intros instance ids ? <-.
    apply same_reads_skip; [quiet .. |]. intros _ _.
    destruct (timedelta_hours 24 <? now - LaunchTime instance);
      apply rel_ret; reflexivity.
  - intros ids ? <-. destruct ids as [| i rest].
    + apply same_reads_skip; [quiet .. |]. intros _ _.
      apply rel_ret. reflexivity.
    + apply same_reads_skip; [quiet .. |]. intros _ _.
      assert (Q : forall cfg out,
                 reads_nothing
                   (if DRY_RUN cfg
                    then print [Txt "DRY_RUN enabled: not calling StopInstances."] ;;
                         ret 0%nat
                    else try_except
                           (response <- write_call (StopInstances (i :: rest))
                                          (fun n => stop_instances out n (i :: rest)) ;;
                            print [Txt "StopInstances response:"; Txt " ";
                                   Str response] ;;
                            ret (List.length (i :: rest)))
                           (fun e =>
                              print [Txt "Error stopping instances: "; Err e] ;;
                              ret 0%nat)) /\
                 total
                   (if DRY_RUN cfg
                    then print [Txt "DRY_RUN enabled: not calling StopInstances."] ;;
                         ret 0%nat
                    else try_except
                           (response <- write_call (StopInstances (i :: rest))
                                          (fun n => stop_instances out n (i :: rest)) ;;
                            print [Txt "StopInstances response:"; Txt " ";
                                   Str response] ;;
                            ret (List.length (i :: rest)))
                           (fun e =>
                              print [Txt "Error stopping instances: "; Err e] ;;
                              ret 0%nat))).
      { intros cfg out. destruct (DRY_RUN cfg); split; try solve [quiet].
        - reads_nothing.
        - intros s. run_through.
          destruct (stop_instances out (writes s) (i :: rest)); simpl; eauto. }
      apply same_reads_skip;
        [apply (Q cfg1 out1) | apply (Q cfg1 out1)
        | apply (Q cfg2 out2) | apply (Q cfg2 out2) |].
      intros n1 n2. apply rel_ret. reflexivity.
Qed.

(** ** The policy *)

Lemma emits_events {A} (m : M A) (Q : Result A -> list Event -> Prop) :
  emits m Q -> forall s, Q (result_of m s) (events_of m s).
Proof.
  intros H s. destruct (H s) as [t [Ht Hq]]. unfold result_of, events_of.
  rewrite (since_app _ _ _ Ht). exact Hq.
Qed.

Lemma deactivation_mutations (cfg : Config) (username id : string)
    (cs : list (Call * option Exn)) :
  deactivation cfg username id cs ->
  filter (fun cf => is_mutation (fst cf)) cs = cs.
Proof.
  unfold deactivation. destruct (DRY_RUN cfg); [intros -> | intros [f ->]];
    reflexivity.
Qed.

Lemma creation_mutations (cfg : Config) (username : string)
    (c c' : option NewKey) (cs : list (Call * option Exn)) :
  creation cfg username c c' cs ->
  filter (fun cf => is_mutation (fst cf)) cs = cs.
Proof.
  intros [k | D | e D | k cs' D [-> | [[m [f ->]] | [m ->]]]]; reflexivity.
Qed.

(** The loop body computes the specification's decision and follows it,
    here for an inventory whose answer about the last use is fixed. *)
Lemma process_key_decides (cfg : Config) (inv : Inventory) (out : Outcomes)
    (username : string) (now : datetime) (key_meta : KeyMeta) (l : KeysLoop)
    (last_used : option datetime) :
  emits
    (process_key cfg (last_used_is last_used inv) out username now
       (timedelta_days 60) (timedelta_days 30) key_meta l)
    (fun r t =>
       exists l',
         r = Ok l' /\
         follows cfg username (AccessKeyId key_meta)
           (decision (credential_of key_meta last_used) now) l l'
           (mutation_calls t)).
Proof.
  unfold process_key. apply emits_print_then.
  eapply emits_bind with
    (Q1 := fun r t => r = Ok last_used /\ mutation_calls t = []).
  { intros s. unfold read_call, answer. simpl. eexists. split; [reflexivity |].
    auto. }
  2: { intros e t [H _]. discriminate. }
  intros lu t1 [H Ht1]. injection H as ->.
  eapply emits_bind with
    (Q1 := fun r t =>
       r = Ok (inactivityAge (credential_of key_meta last_used) now) /\
       mutation_calls t = []).
  { destruct last_used; apply emits_print_then; apply emits_ret; auto. }
  2: { intros e t [H _]. discriminate. }
  intros age t2 [H Ht2]. injection H as ->.
  unfold decision, inactivityThreshold, rotationThreshold.
  rewrite !Z.gtb_ltb.
  change (active (credential_of key_meta last_used))
    with (String.eqb (Status key_meta) "Active").
  change (createdAt (credential_of key_meta last_used))
    with (CreateDate key_meta).
  destruct (timedelta_days 60
            <? inactivityAge (credential_of key_meta last_used) now).
  - apply emits_print_then.
    eapply emits_bind; [apply deactivation_emits | |].
    + intros [] t3 [_ Hd]. apply emits_ret. eexists. split; [reflexivity |].
      simpl. split; [reflexivity |]. obs_norm. rewrite Ht1, Ht2. simpl.
      unfold mutation_calls.
      rewrite (deactivation_mutations _ _ _ _ Hd). exact Hd.
    + intros e t3 [H _]. discriminate.
  - destruct (String.eqb (Status key_meta) "Active"
              && (timedelta_days 30 <? now - CreateDate key_meta)).
    + apply emits_print_then.
      eapply emits_bind; [apply creation_emits | |].
      * intros c' t3 [c'' [H Hcr]]. injection H as <-.
        eapply emits_bind; [apply deactivation_emits | |].
        -- intros [] t4 [_ Hd]. apply emits_ret.
           eexists. split; [reflexivity |]. simpl.
           split; [reflexivity |]. split; [reflexivity |].
           exists (calls t3), (calls t4). split; [| auto].
           obs_norm. rewrite Ht1, Ht2. simpl. unfold mutation_calls.
           rewrite (creation_mutations _ _ _ _ _ Hcr).
           rewrite (deactivation_mutations _ _ _ _ Hd). reflexivity.
        -- intros e t4 [H _]. discriminate.
      * intros e t3 [c' [H _]]. discriminate.
    + apply emits_ret. exists l. obs_norm. rewrite Ht1, Ht2. simpl. auto.
Qed.

(** [process_key] asks about the last use once, at the read it is at. *)
Lemma process_key_last_used (cfg : Config) (inv : Inventory) (out : Outcomes)
    (username : string) (now : datetime) (it rt : timedelta)
    (key_meta : KeyMeta) (l : KeysLoop) (s : State)
    (last_used : option datetime) :
  get_access_key_last_used inv (reads s) (AccessKeyId key_meta)
    = inr last_used ->
  process_key cfg inv out username now it rt key_meta l s =
  process_key cfg (last_used_is last_used inv) out username now it rt
    key_meta l s.
Proof.
  intros H. unfold process_key, bind at 1 2 5 6, print at 1 6, read_call, answer.
  simpl. rewrite H. reflexivity.
Qed.

(** In dry-run, the last thing a rotation does is to log the deactivation
    that a live run would make. *)
Lemma process_key_dry_rotation (cfg : Config) (inv : Inventory)
    (out : Outcomes) (username : string) (now : datetime)
    (key_meta : KeyMeta) (l : KeysLoop) (last_used : option datetime) :
  DRY_RUN cfg = true ->
  decision (credential_of key_meta last_used) now = Rotate ->
  emits
    (process_key cfg (last_used_is last_used inv) out username now
       (timedelta_days 60) (timedelta_days 30) key_meta l)
    (fun r t =>
       ends_with
         (Printed [Txt "    DRY_RUN: would deactivate old key ";
                   Str (AccessKeyId key_meta); Txt " after rotation."]) t).
Proof.
  intros D Hd. unfold decision, inactivityThreshold, rotationThreshold in Hd.
  rewrite !Z.gtb_ltb in Hd.
  change (active (credential_of key_meta last_used))
    with (String.eqb (Status key_meta) "Active") in Hd.
  change (createdAt (credential_of key_meta last_used))
    with (CreateDate key_meta) in Hd.
  unfold process_key. apply emits_print_then.
  eapply emits_bind with (Q1 := fun r t => r = Ok last_used).
  { intros s. unfold read_call, answer. simpl. eexists. split; reflexivity. }
  2: { intros e t H. discriminate. }
  intros lu t1 H. injection H as ->.
  eapply emits_bind with
    (Q1 := fun r t =>
       r = Ok (inactivityAge (credential_of key_meta last_used) now)).
  { destruct last_used; apply emits_print_then; apply emits_ret; reflexivity. }
  2: { intros e t H. discriminate. }
  intros age t2 H. injection H as ->.
  destruct (timedelta_days 60
            <? inactivityAge (credential_of key_meta last_used) now);
    [discriminate |].
  destruct (String.eqb (Status key_meta) "Active"
            && (timedelta_days 30 <? now - CreateDate key_meta));
    [| discriminate].
  apply emits_print_then.
  eapply emits_bind; [apply creation_emits | |].
  - intros c' t3 _. rewrite D. simpl.
    apply emits_print_then. apply emits_ret.
    apply ends_with_cons. apply ends_with_app. apply ends_with_app.
    apply ends_with_cons. apply ends_with_app. exists []. reflexivity.
  - intros e t3 [c' [H _]]. discriminate.
Qed.

(** ** Two runs that differ in the secret values only *)

Lemma same_but_secrets_emit (e1 e2 : Event) (s1 s2 : State) :
  redact e1 = redact e2 -> same_but_secrets s1 s2 ->
  same_but_secrets (emit e1 s1) (emit e2 s2).
Proof.
  intros He [Hr [Hw Ht]]. unfold same_but_secrets, emit. simpl.
  rewrite !map_app, Ht. simpl. rewrite He. auto.
Qed.

Lemma sbs_print (line : Text) :
  rel same_but_secrets eq (print line) (print line).
Proof.
  intros s1 s2 Hs. simpl. split; [| reflexivity].
  apply same_but_secrets_emit; [reflexivity | exact Hs].
Qed.

Lemma sbs_read {A} (c : Call) (r : nat -> Exn + A) :
  rel same_but_secrets eq (read_call c r) (read_call c r).
Proof.
  intros s1 s2 [Hr [Hw Ht]]. unfold read_call, answer. rewrite Hr.
  destruct (r (reads s2)); simpl; (split; [| reflexivity]);
    (apply same_but_secrets_emit; [reflexivity |]);
    unfold same_but_secrets; simpl; auto.
Qed.

Lemma sbs_write {A B} (RA : A -> B -> Prop) (c c' : Call)
    (r : nat -> Exn + A) (r' : nat -> Exn + B) :
  (forall f, redact (Called c f) = redact (Called c' f)) ->
  (forall n, match r n, r' n with
             | inr a, inr b => RA a b
             | inl e, inl e' => e = e'
             | _, _ => False
             end) ->
  rel same_but_secrets RA (write_call c r) (write_call c' r').
Proof.
  intros Hc Hans s1 s2 [Hr [Hw Ht]]. unfold write_call, answer. rewrite Hw.
  specialize (Hans (writes s2)).
  destruct (r (writes s2)) as [e | a], (r' (writes s2)) as [e' | b];
    simpl; try contradiction; subst; (split; [| auto]);
    (apply same_but_secrets_emit; [apply Hc |]);
    unfold same_but_secrets; simpl; auto.
Qed.

Lemma sbs_write_same {A} (c : Call) (r r' : nat -> Exn + A) :
  (forall n, r n = r' n) ->
  rel same_but_secrets eq (write_call c r) (write_call c r').
Proof.
  intros H. apply sbs_write; [reflexivity |].
  intros n. rewrite H. destruct (r' n); reflexivity.
Qed.

Lemma sbs_post (out : Outcomes) (v : nat -> string -> string)
    (url : string) (text : Text) :
  rel same_but_secrets eq (post out url text)
    (post (with_secrets v out) url text).
Proof.
  intros s1 s2 Hs. unfold post. simpl. split; [| reflexivity].
  apply same_but_secrets_emit; [reflexivity | exact Hs].
Qed.

(** One step of a walk through two copies of the same code. *)
Ltac alike_print :=
  eapply rel_bind; [apply sbs_print | intros _ _ _].

Section Secrets.

Variable cfg : Config.
Variable inv : Inventory.
Variable out : Outcomes.
Variable v : nat -> string -> string.
Hypothesis blind : secret_blind out.

Lemma deactivate_key_alike (username id : string) :
  rel same_but_secrets eq
    (deactivate_key out username id) (deactivate_key (with_secrets v out) username id).
Proof.
  unfold deactivate_key. apply rel_try.
  - alike_print.
    eapply rel_bind; [apply sbs_write_same; reflexivity | intros _ _ _].
    apply sbs_print.
  - intros e. apply sbs_print.
Qed.

Lemma store_access_key_alike (username : string) (k k' : AccessKey) :
  key_alike k k' ->
  rel same_but_secrets eq
    (store_access_key_in_secrets_manager cfg out username k)
    (store_access_key_in_secrets_manager cfg (with_secrets v out) username k').
Proof.
  intros [Hid Hdate]. unfold store_access_key_in_secrets_manager.
  rewrite <- Hid, <- Hdate.
  set (name := (SECRET_NAME_PREFIX cfg ++ username ++ "/access-key")%string).
  set (p := {| p_UserName := username; p_AccessKeyId := NewAccessKeyId k;
               p_SecretAccessKey := SecretAccessKey k;
               p_CreateDate := NewCreateDate k |}).
  set (p' := {| p_UserName := username; p_AccessKeyId := NewAccessKeyId k;
                p_SecretAccessKey := SecretAccessKey k';
                p_CreateDate := NewCreateDate k |}).
  assert (Hp : hide_secret p = hide_secret p') by reflexivity.
  apply rel_try.
  - alike_print.
    eapply rel_bind with (RA := eq); [| intros _ _ _; apply sbs_print].
    apply sbs_write.
    + intros f. simpl. rewrite Hp. reflexivity.
    + intros n. simpl. rewrite (proj1 (blind n name p p' Hp)).
      destruct (create_secret out n name p'); reflexivity.
  - intros [m | m]; [| apply sbs_print].
    apply rel_try; [| intros e; apply sbs_print].
    alike_print.
    eapply rel_bind with (RA := eq); [| intros _ _ _; apply sbs_print].
    apply sbs_write.
    + intros f. simpl. rewrite Hp. reflexivity.
    + intros n. simpl. rewrite (proj2 (blind n name p p' Hp)).
      destruct (put_secret_value out n name p'); reflexivity.
Qed.

Lemma create_new_access_key_alike (username : string) :
  rel same_but_secrets created_alike
    (create_new_access_key cfg out username)
    (create_new_access_key cfg (with_secrets v out) username).
Proof.
  unfold create_new_access_key. apply rel_try.
  - alike_print.
    eapply rel_bind with (RA := key_alike).
    + apply sbs_write; [reflexivity |]. intros n. simpl.
      destruct (create_access_key out n username); [reflexivity |].
      split; reflexivity.
    + intros k k' Hk. destruct Hk as [Hid Hdate]. rewrite <- Hid.
      alike_print.
      eapply rel_bind;
        [apply store_access_key_alike; split; assumption | intros _ _ _].
      apply rel_ret. split; assumption.
  - intros e. alike_print. apply rel_ret. exact I.
Qed.

Lemma process_key_alike (username : string) (now : datetime)
    (it rt : timedelta) (key_meta : KeyMeta) (l l' : KeysLoop) :
  loop_alike l l' ->
  rel same_but_secrets loop_alike
    (process_key cfg inv out username now it rt key_meta l)
    (process_key cfg inv (with_secrets v out) username now it rt key_meta l').
Proof.
  intros [Hd [Hr Hc]]. unfold process_key.
  alike_print.
  eapply rel_bind; [apply sbs_read | intros last_used ? <-].
  eapply rel_bind with (RA := eq).
  { destruct last_used; alike_print; apply rel_ret; reflexivity. }
  intros inactivity_age ? <-.
  assert (Hdeact : forall line,
             rel same_but_secrets eq
               (if negb (DRY_RUN cfg)
                then deactivate_key out username (AccessKeyId key_meta)
                else print line)
               (if negb (DRY_RUN cfg)
                then deactivate_key (with_secrets v out) username (AccessKeyId key_meta)
                else print line)).
  { intros line. destruct (DRY_RUN cfg); simpl;
      [apply sbs_print | apply deactivate_key_alike]. }
  destruct (it <? inactivity_age).
  - alike_print.
    eapply rel_bind; [apply Hdeact | intros _ _ _].
    apply rel_ret. unfold loop_alike. simpl. rewrite Hd, Hr. tauto.
  - destruct (String.eqb (Status key_meta) "Active"
              && (rt <? now - CreateDate key_meta)).
    + alike_print.
      eapply rel_bind with
        (RA := fun c c' : option NewKey => c = None <-> c' = None).
      * destruct (created_new_key l) as [k |], (created_new_key l') as [k' |];
          try (exfalso; destruct Hc as [H1 H2];
               (discriminate (H1 eq_refl) || discriminate (H2 eq_refl))).
        -- apply rel_ret. split; discriminate.
        -- destruct (DRY_RUN cfg); simpl.
           ++ alike_print. apply rel_ret. split; discriminate.
           ++ eapply rel_bind; [apply create_new_access_key_alike |].
              intros [k |] [k' |] Hk; simpl in Hk; try contradiction;
                apply rel_ret; simpl; split; congruence.
      * intros c c' Hcc.
        eapply rel_bind; [apply Hdeact | intros _ _ _].
        apply rel_ret. unfold loop_alike. simpl. rewrite Hd, Hr. tauto.
    + apply rel_ret. unfold loop_alike. tauto.
Qed.

Lemma process_user_keys_alike (username : string) (now : datetime)
    (it rt : timedelta) :
  rel same_but_secrets eq
    (process_user_keys cfg inv out username now it rt)
    (process_user_keys cfg inv (with_secrets v out) username now it rt).
Proof.
  unfold process_user_keys.
  eapply rel_bind; [apply sbs_read | intros access_keys ? <-].
  destruct access_keys as [| k ks].
  - alike_print. apply rel_ret. reflexivity.
  - eapply rel_bind with (RA := loop_alike).
    + apply rel_for_each.
      * intros x a1 a2 Ha. apply process_key_alike. exact Ha.
      * unfold loop_alike. simpl. tauto.
    + intros a1 a2 [Hd [Hr _]]. apply rel_ret. congruence.
Qed.

Lemma manage_iam_keys_alike (now : datetime) :
  rel same_but_secrets eq
    (manage_iam_keys cfg inv out now) (manage_iam_keys cfg inv (with_secrets v out) now).
Proof.
  unfold manage_iam_keys. alike_print.
  eapply rel_bind with (RA := eq); [| intros a ? <-; apply rel_ret; reflexivity].
  apply rel_for_pages; [intros p; apply sbs_read | | reflexivity].
  intros page a ? <-. apply rel_for_each; [| reflexivity].
  intros username stats ? <-.
  destruct (not_allowed cfg username).
  - alike_print. apply rel_ret. reflexivity.
  - alike_print.
    eapply rel_bind; [apply process_user_keys_alike |].
    intros dr ? <-. apply rel_ret. reflexivity.
Qed.

Lemma stop_old_ec2_instances_alike (now : datetime) :
  rel same_but_secrets eq
    (stop_old_ec2_instances cfg inv out now)
    (stop_old_ec2_instances cfg inv (with_secrets v out) now).
Proof.
  unfold stop_old_ec2_instances. alike_print.
  eapply rel_bind with (RA := eq).
  - apply rel_for_pages; [intros p; apply sbs_read | | reflexivity].
    intros page a ? <-. apply rel_for_each; [| reflexivity].
    intros reservation a' ? <-. apply rel_for_each; [| reflexivity].
    intros instance ids ? <-. alike_print.
    destruct (timedelta_hours 24 <? now - LaunchTime instance);
      apply rel_ret; reflexivity.
  - intros ids ? <-. destruct ids as [| i rest].
    + alike_print. apply rel_ret. reflexivity.
    + alike_print.
      eapply rel_bind with (RA := eq);
        [| intros n ? <-; apply rel_ret; reflexivity].
      destruct (DRY_RUN cfg).
      * alike_print. apply rel_ret. reflexivity.
      * apply rel_try.
        -- eapply rel_bind;
             [apply sbs_write_same; reflexivity | intros response ? <-].
           alike_print. apply rel_ret. reflexivity.
        -- intros e. alike_print. apply rel_ret. reflexivity.
Qed.

Lemma send_slack_notification_alike (text : Text) :
  rel same_but_secrets eq
    (send_slack_notification cfg out text)
    (send_slack_notification cfg (with_secrets v out) text).
Proof.
  unfold send_slack_notification.
  destruct (negb (truthy (SLACK_WEBHOOK_URL cfg))); [apply sbs_print |].
  change (request (with_secrets v out)) with (request out).
  destruct (request out _) as [e | _]; [apply sbs_print |].
  eapply rel_bind; [apply sbs_post | intros o ? <-].
  destruct o as [status body | code reason [b |] | e].
  - apply sbs_print.
  - alike_print. apply sbs_print.
  - alike_print. apply rel_ret. reflexivity.
  - apply sbs_print.
Qed.

Lemma lambda_handler_alike (now : datetime) :
  rel same_but_secrets eq
    (lambda_handler cfg inv out now) (lambda_handler cfg inv (with_secrets v out) now).
Proof.
  unfold lambda_handler. alike_print.
  eapply rel_bind; [apply stop_old_ec2_instances_alike | intros ec2 ? <-].
  eapply rel_bind; [apply manage_iam_keys_alike | intros iam ? <-].
  alike_print. alike_print.
  eapply rel_bind; [apply send_slack_notification_alike | intros _ _ _].
  apply rel_ret. reflexivity.
Qed.

End Secrets.

Lemma printed_redact (t : list Event) : printed (map redact t) = printed t.
Proof.
  induction t as [| ev t IH]; [reflexivity |].
  destruct ev as [line | c f | u x o]; [| destruct c |];
    simpl; rewrite ?IH; reflexivity.
Qed.

Lemma posted_redact (t : list Event) : posted (map redact t) = posted t.
Proof.
  induction t as [| ev t IH]; [reflexivity |].
  destruct ev as [line | c f | u x o]; [| destruct c |];
    simpl; rewrite ?IH; reflexivity.
Qed.

(** * The properties *)

Lemma same_result {A} (r1 r2 : Result A) : res_rel eq r1 r2 -> r1 = r2.
Proof. destruct r1, r2; simpl; intros H; congruence || contradiction. Qed.

(** ** Credentials *)

(** C1.  For every credential and every time [now], what [process_user_keys]
    does with the credential is what the reference decision says, the first
    rule that matches winning: a key whose inactivity age (since its last
    use, or since its creation when it was never used) exceeds 60 days is
    deactivated, whatever its status and age, and is not rotated as well;
    otherwise an active key older than 30 days is rotated; otherwise nothing
    is done. *)
Theorem policy_follows_reference_decision
    (cfg : Config) (inv : Inventory) (out : Outcomes) (username : string)
    (now : datetime) (key_meta : KeyMeta) (l : KeysLoop) (s : State)
    (last_used : option datetime) :
  get_access_key_last_used inv (reads s) (AccessKeyId key_meta)
    = inr last_used ->
  let m := process_key cfg inv out username now
             (timedelta_days 60) (timedelta_days 30) key_meta l in
  exists l',
    result_of m s = Ok l' /\
    follows cfg username (AccessKeyId key_meta)
      (decision (credential_of key_meta last_used) now) l l'
      (mutation_calls (events_of m s)).
Proof.
  intros H m. unfold result_of, events_of, m.
  rewrite (process_key_last_used _ _ _ _ _ _ _ _ _ _ _ H).
  exact (emits_events _ _
           (process_key_decides cfg inv out username now key_meta l last_used) s).
Qed.

Lemma policy_follows_reference_decision_witness :
  get_access_key_last_used account (reads start) (AccessKeyId bob_key)
    = inr None /\
  exists l',
    result_of (process_key live_cfg account all_fine "bob" day100
                 (timedelta_days 60) (timedelta_days 30) bob_key
                 {| created_new_key := None;
                    deactivated_count := 0; rotated_count := 0 |}) start
      = Ok l' /\
    follows live_cfg "bob" (AccessKeyId bob_key)
      (decision (credential_of bob_key None) day100)
      {| created_new_key := None; deactivated_count := 0; rotated_count := 0 |}
      l'
      (mutation_calls
         (events_of (process_key live_cfg account all_fine "bob" day100
                       (timedelta_days 60) (timedelta_days 30) bob_key
                       {| created_new_key := None;
                          deactivated_count := 0; rotated_count := 0 |})
            start)).
Proof.
  split; [reflexivity |].
  apply (policy_follows_reference_decision live_cfg account all_fine "bob"
           day100 bob_key _ start None).
  reflexivity.
Defined.

(** The scenarios of the specification. *)
Example decision_never_used_10_days (now : datetime) (a : bool) :
  decision {| active := a; createdAt := now - timedelta_days 10;
              lastUsed := None |} now = NoAction.
Proof.
  unfold decision, inactivityAge, inactivityThreshold, rotationThreshold. simpl.
  replace (now - (now - timedelta_days 10)) with (timedelta_days 10) by lia.
  rewrite andb_false_r. reflexivity.
Qed.

Example decision_40_days_used_5_days_ago (now : datetime) :
  decision {| active := true; createdAt := now - timedelta_days 40;
              lastUsed := Some (now - timedelta_days 5) |} now = Rotate.
Proof.
  unfold decision, inactivityAge, inactivityThreshold, rotationThreshold. simpl.
  replace (now - (now - timedelta_days 5)) with (timedelta_days 5) by lia.
  replace (now - (now - timedelta_days 40)) with (timedelta_days 40) by lia.
  reflexivity.
Qed.

Example decision_inactive_key_is_deactivated_not_rotated (now : datetime) :
  decision {| active := true; createdAt := now - timedelta_days 90;
              lastUsed := Some (now - timedelta_days 61) |} now = Deactivate.
Proof.
  unfold decision, inactivityAge, inactivityThreshold. simpl.
  replace (now - (now - timedelta_days 61)) with (timedelta_days 61) by lia.
  reflexivity.
Qed.

(** C6.  When a credential is to be rotated, the old credential is
    deactivated (in dry-run, logged only) and the rotated counter goes up by
    one whatever became of the new credential: already created for this
    user, created now, a dry-run placeholder, or a creation that failed. *)
Theorem rotation_deactivates_the_old_key_whatever_creation_did
    (cfg : Config) (inv : Inventory) (out : Outcomes) (username : string)
    (now : datetime) (key_meta : KeyMeta) (l : KeysLoop) (s : State)
    (last_used : option datetime) :
  get_access_key_last_used inv (reads s) (AccessKeyId key_meta)
    = inr last_used ->
  decision (credential_of key_meta last_used) now = Rotate ->
  let m := process_key cfg inv out username now
             (timedelta_days 60) (timedelta_days 30) key_meta l in
  exists l' cs1 cs2,
    result_of m s = Ok l' /\
    rotated_count l' = (rotated_count l + 1)%nat /\
    mutation_calls (events_of m s) = cs1 ++ cs2 /\
    creation cfg username (created_new_key l) (created_new_key l') cs1 /\
    deactivation cfg username (AccessKeyId key_meta) cs2 /\
    (DRY_RUN cfg = true ->
     ends_with
       (Printed [Txt "    DRY_RUN: would deactivate old key ";
                 Str (AccessKeyId key_meta); Txt " after rotation."])
       (events_of m s)).
Proof.
  intros H Hd m. unfold result_of, events_of, m.
  rewrite (process_key_last_used _ _ _ _ _ _ _ _ _ _ _ H).
  destruct (emits_events _ _
              (process_key_decides cfg inv out username now key_meta l
                 last_used) s) as [l' [Hr Hf]].
  rewrite Hd in Hf. destruct Hf as [_ [Hrot [cs1 [cs2 [Hm [Hc Hdeact]]]]]].
  exists l', cs1, cs2. repeat split; auto.
  intros D.
  exact (emits_events _ _
           (process_key_dry_rotation cfg inv out username now key_meta l
              last_used D Hd) s).
Qed.

(** On [account], live, with every mutating call failing: the creation for
    [alice] fails, and her first key is still sent for deactivation and
    counted as rotated. *)
Lemma rotation_deactivates_the_old_key_witness :
  (get_access_key_last_used account (reads start) (AccessKeyId alice_key1)
     = inr (Some (day100 - timedelta_days 5)) /\
   decision (credential_of alice_key1 (Some (day100 - timedelta_days 5)))
     day100 = Rotate) /\
  exists l' cs1 cs2,
    result_of (process_key live_cfg account all_failing "alice" day100
                 (timedelta_days 60) (timedelta_days 30) alice_key1
                 {| created_new_key := None;
                    deactivated_count := 0; rotated_count := 0 |}) start
      = Ok l' /\
    rotated_count l' = 1%nat /\
    mutation_calls
      (events_of (process_key live_cfg account all_failing "alice" day100
                    (timedelta_days 60) (timedelta_days 30) alice_key1
                    {| created_new_key := None;
                       deactivated_count := 0; rotated_count := 0 |}) start)
      = cs1 ++ cs2 /\
    creation live_cfg "alice" None (created_new_key l') cs1 /\
    deactivation live_cfg "alice" (AccessKeyId alice_key1) cs2 /\
    (DRY_RUN live_cfg = true ->
     ends_with
       (Printed [Txt "    DRY_RUN: would deactivate old key ";
                 Str (AccessKeyId alice_key1); Txt " after rotation."])
       (events_of (process_key live_cfg account all_failing "alice" day100
                     (timedelta_days 60) (timedelta_days 30) alice_key1
                     {| created_new_key := None;
                        deactivated_count := 0; rotated_count := 0 |}) start)).
Proof.
  split; [split; reflexivity |].
  apply (rotation_deactivates_the_old_key_whatever_creation_did
           live_cfg account all_failing "alice" day100 alice_key1
           {| created_new_key := None;
              deactivated_count := 0; rotated_count := 0 |}
           start (Some (day100 - timedelta_days 5)));
    reflexivity.
Defined.

Example rotation_in_dry_run :
  let m := process_key default_cfg account all_failing "alice" day100
             (timedelta_days 60) (timedelta_days 30) alice_key1
             {| created_new_key := None;
                deactivated_count := 0; rotated_count := 0 |} in
  result_of m start =
    Ok {| created_new_key := Some DRY_RUN_PLACEHOLDER;
          deactivated_count := 0; rotated_count := 1 |} /\
  mutation_calls (events_of m start) = [].
Proof. split; reflexivity. Qed.

Example rotation_with_failed_creation :
  let m := process_key live_cfg account all_failing "alice" day100
             (timedelta_days 60) (timedelta_days 30) alice_key1
             {| created_new_key := None;
                deactivated_count := 0; rotated_count := 0 |} in
  result_of m start =
    Ok {| created_new_key := None;
          deactivated_count := 0; rotated_count := 1 |} /\
  mutation_calls (events_of m start) =
    [ (CreateAccessKey "alice", Some (OtherException "LimitExceeded"));
      (UpdateAccessKey "alice" "AKIAALICE1" "Inactive",
       Some (OtherException "AccessDenied")) ].
Proof. split; reflexivity. Qed.

(** C3.  In a run, at most one new credential is created for a user, however
    many of the user's credentials need rotation and whichever of the
    creation calls fail.  (The users that the listing yields are distinct.) *)
Theorem at_most_one_new_key_per_user
    (cfg : Config) (inv : Inventory) (out : Outcomes) (now : datetime)
    (s : State) (u : string) :
  NoDup (listed_users inv) ->
  (created_for u (events_of (lambda_handler cfg inv out now) s) <= 1)%nat.
Proof.
  intros Hnd.
  destruct (emits_events _ _ (lambda_handler_emits cfg inv out now) s)
    as [_ [_ H]].
  specialize (H u).
  pose proof (proj1 (NoDup_count_occ string_dec (listed_users inv)) Hnd u).
  lia.
Qed.

(** On [account], live: both keys of [alice] need rotation and the first
    creation fails. *)
Lemma at_most_one_new_key_per_user_witness :
  NoDup (listed_users account) /\
  (created_for "alice"
     (events_of (lambda_handler live_cfg account first_creation_fails day100)
        start) <= 1)%nat.
Proof.
  split.
  - repeat constructor; simpl; intuition discriminate.
  - apply (at_most_one_new_key_per_user live_cfg account first_creation_fails
             day100 start "alice").
    repeat constructor; simpl; intuition discriminate.
Defined.

(** There the creation is tried twice, once per key, and one key results. *)
Example two_rotations_one_new_key :
  let t := events_of (lambda_handler live_cfg account first_creation_fails
                        day100) start in
  filter (fun cf => match fst cf with CreateAccessKey _ => true | _ => false end)
    (calls t) =
    [ (CreateAccessKey "alice", Some (OtherException "LimitExceeded"));
      (CreateAccessKey "alice", None) ] /\
  created_for "alice" t = 1%nat /\
  created_for "bob" t = 0%nat.
Proof. repeat split; reflexivity. Qed.

Example two_rotations_one_new_key_when_creation_works :
  let t := events_of (lambda_handler live_cfg account all_fine day100) start in
  created_for "alice" t = 1%nat.
Proof. reflexivity. Qed.

(** Also for a single pass over the keys of one user, whatever the listing. *)
Lemma process_user_keys_creates_at_most_one
    (cfg : Config) (inv : Inventory) (out : Outcomes) (username : string)
    (now : datetime) (it rt : timedelta) (s : State) (u : string) :
  (created_for u
     (events_of (process_user_keys cfg inv out username now it rt) s)
   <= 1)%nat.
Proof.
  destruct (emits_events _ _
              (process_user_keys_emits cfg inv out username now it rt) s)
    as [H _].
  specialize (H u). simpl in H. destruct (String.eqb u username); lia.
Qed.

(** ** Dry-run *)

(** C2.  With the dry-run flag on, a run issues no mutating call: no
    instance stop, no key deactivation, no key creation, no secret write.
    And against the same inventory, [instances_to_stop], [keys_deactivated]
    and [keys_rotated] (with [users_processed]) are what they are with the
    flag off, whatever the mutating calls then answer: both runs return the
    same counts, or fail at the same read-only call. *)
Theorem dry_run_mutates_nothing_and_counts_alike
    (cfg : Config) (inv : Inventory) (out out' : Outcomes) (now : datetime)
    (s s' : State) :
  reads s = reads s' ->
  let dry := with_dry_run true cfg in
  let live := with_dry_run false cfg in
  mutations (events_of (lambda_handler dry inv out now) s) = [] /\
  res_rel (fun a b => instances_to_stop a = instances_to_stop b)
    (result_of (stop_old_ec2_instances dry inv out now) s)
    (result_of (stop_old_ec2_instances live inv out' now) s') /\
  result_of (manage_iam_keys dry inv out now) s =
  result_of (manage_iam_keys live inv out' now) s'.
Proof.
  intros Hs dry live. split; [| split].
  - destruct (emits_events _ _ (lambda_handler_emits dry inv out now) s)
      as [_ [H _]].
    unfold mutations. rewrite H; reflexivity.
  - apply (stop_old_ec2_instances_same_reads dry live inv out out' now);
      [reflexivity | exact Hs].
  - apply same_result.
    apply (manage_iam_keys_same_reads dry live inv out out' now);
      [reflexivity | exact Hs].
Qed.

Lemma dry_run_mutates_nothing_and_counts_alike_witness :
  reads start = reads start /\
  mutations (events_of (lambda_handler (with_dry_run true default_cfg) account
                          all_failing day100) start) = [] /\
  res_rel (fun a b => instances_to_stop a = instances_to_stop b)
    (result_of (stop_old_ec2_instances (with_dry_run true default_cfg) account
                  all_failing day100) start)
    (result_of (stop_old_ec2_instances (with_dry_run false default_cfg) account
                  all_fine day100) start) /\
  result_of (manage_iam_keys (with_dry_run true default_cfg) account
               all_failing day100) start =
  result_of (manage_iam_keys (with_dry_run false default_cfg) account
               all_fine day100) start.
Proof.
  split; [reflexivity |].
  apply (dry_run_mutates_nothing_and_counts_alike default_cfg account
           all_failing all_fine day100 start start).
  reflexivity.
Defined.

(** On [account]: the counts of the dry run, and the mutating calls of the
    live run that the dry run did not issue. *)
Example dry_run_on_account :
  result_of (stop_old_ec2_instances default_cfg account all_fine day100) start
    = Ok {| instances_to_stop := 1; instances_stopped := 0 |} /\
  result_of (manage_iam_keys default_cfg account all_fine day100) start
    = Ok {| users_processed := 2; keys_deactivated := 1; keys_rotated := 2 |} /\
  mutations (events_of (lambda_handler default_cfg account all_fine day100)
               start) = [] /\
  result_of (stop_old_ec2_instances live_cfg account all_fine day100) start
    = Ok {| instances_to_stop := 1; instances_stopped := 1 |} /\
  result_of (manage_iam_keys live_cfg account all_fine day100) start
    = Ok {| users_processed := 2; keys_deactivated := 1; keys_rotated := 2 |} /\
  mutations (events_of (lambda_handler live_cfg account all_fine day100)
               start) =
    [ StopInstances ["i-25h"];
      CreateAccessKey "alice";
      CreateSecret "iam/user/alice/access-key" (payload_of "alice" new_key);
      UpdateAccessKey "alice" "AKIAALICE1" "Inactive";
      UpdateAccessKey "alice" "AKIAALICE2" "Inactive";
      UpdateAccessKey "bob" "AKIABOB1" "Inactive" ].
Proof. repeat split; reflexivity. Qed.

(** ** Failures *)




(** ** Instances *)

Lemma running_over_24h_spec (now : datetime) (i : Instance) :
  running_over_24h now i = true <-> now - LaunchTime i > timedelta_hours 24.
Proof. unfold running_over_24h. rewrite Z.ltb_lt. lia. Qed.

(** C8.  The stop candidates are the instances of the listing whose running
    duration, [now] minus the launch time, strictly exceeds 24 hours: one
    launched 25 hours ago is a candidate, one launched 23 hours ago (or
    exactly 24) is not.  The run reports their number; when there is one at
    least and dry-run is off it issues one stop request for all of them, and
    reports them all stopped when the request succeeded and none when it
    failed; otherwise it issues none. *)
Theorem instances_over_24h_are_stopped_in_one_batch
    (cfg : Config) (inv : Inventory) (out : Outcomes) (now : datetime)
    (s : State) :
  let m := stop_old_ec2_instances cfg inv out now in
  let ids :=
    map InstanceId
      (filter (running_over_24h now)
         (List.concat (List.concat
            (ok_pages (describe_instances inv (filters cfg)))))) in
  (forall i, running_over_24h now i = true <->
             now - LaunchTime i > timedelta_hours 24) /\
  (forall id,
      running_over_24h now
        {| InstanceId := id; LaunchTime := now - timedelta_hours 25 |} = true /\
      running_over_24h now
        {| InstanceId := id; LaunchTime := now - timedelta_hours 24 |} = false /\
      running_over_24h now
        {| InstanceId := id; LaunchTime := now - timedelta_hours 23 |} = false) /\
  match result_of m s with
  | Ok stats =>
      instances_to_stop stats = List.length ids /\
      match ids with
      | [] =>
          mutation_calls (events_of m s) = [] /\
          instances_stopped stats = 0%nat
      | _ :: _ =>
          if DRY_RUN cfg then
            mutation_calls (events_of m s) = [] /\
            instances_stopped stats = 0%nat
          else
            exists f,
              mutation_calls (events_of m s) = [(StopInstances ids, f)] /\
              instances_stopped stats =
                match f with None => List.length ids | Some _ => 0%nat end
      end
  | Raise e =>
      ends_at_failed_read e (events_of m s) /\
      mutation_calls (events_of m s) = []
  end.
Proof.
  intros m ids. split; [| split].
  - intros i. apply running_over_24h_spec.
  - intros id. unfold running_over_24h. simpl.
    replace (now - (now - timedelta_hours 25)) with (timedelta_hours 25) by lia.
    replace (now - (now - timedelta_hours 24)) with (timedelta_hours 24) by lia.
    replace (now - (now - timedelta_hours 23)) with (timedelta_hours 23) by lia.
    repeat split; reflexivity.
  - exact (emits_events _ _ (stop_old_ec2_instances_emits cfg inv out now) s).
Qed.

Example one_batch_on_account :
  let m := stop_old_ec2_instances live_cfg account in
  result_of (m all_fine day100) start
    = Ok {| instances_to_stop := 1; instances_stopped := 1 |} /\
  mutation_calls (events_of (m all_fine day100) start)
    = [(StopInstances ["i-25h"], None)] /\
  result_of (m all_failing day100) start
    = Ok {| instances_to_stop := 1; instances_stopped := 0 |} /\
  mutation_calls (events_of (m all_failing day100) start)
    = [(StopInstances ["i-25h"], Some (OtherException "UnauthorizedOperation"))].
Proof. repeat split; reflexivity. Qed.

(** ** Secrets *)

(** C9.  Publishing a new key first tries to create the secret named by the
    prefix, the user name and [/access-key]; when Secrets Manager answers
    that it exists, it writes a new version under that name, and otherwise
    it makes no second call.  Whatever fails, publishing returns normally
    and calls nothing else, and [create_new_access_key] returns the key that
    was created. *)
Theorem secret_is_created_or_else_updated
    (cfg : Config) (out : Outcomes) (username : string) (k : AccessKey)
    (s : State) :
  let name := (SECRET_NAME_PREFIX cfg ++ username ++ "/access-key")%string in
  let payload :=
    {| p_UserName := username;
       p_AccessKeyId := NewAccessKeyId k;
       p_SecretAccessKey := SecretAccessKey k;
       p_CreateDate := NewCreateDate k |} in
  let publish := store_access_key_in_secrets_manager cfg out username k in
  let create := create_new_access_key cfg out username in
  (result_of publish s = Ok tt /\
   (calls (events_of publish s) = [(CreateSecret name payload, None)] \/
    (exists m f,
        calls (events_of publish s) =
          [ (CreateSecret name payload, Some (ResourceExistsException m));
            (PutSecretValue name payload, f) ]) \/
    (exists m,
        calls (events_of publish s) =
          [(CreateSecret name payload, Some (OtherException m))]))) /\
  ((exists e,
       result_of create s = Ok None /\
       calls (events_of create s) = [(CreateAccessKey username, Some e)]) \/
   (exists k' cs,
       result_of create s = Ok (Some k') /\
       calls (events_of create s) = (CreateAccessKey username, None) :: cs /\
       publishes name (payload_of username k') cs)).
Proof.
  intros name payload publish create. split.
  - exact (emits_events _ _ (store_access_key_emits cfg out username k) s).
  - exact (emits_events _ _ (create_new_access_key_emits cfg out username) s).
Qed.

(** When the secret exists, and even when writing the new version fails, the
    key that was created is returned. *)
Example publish_when_secret_exists :
  let m := create_new_access_key live_cfg first_creation_fails "alice" in
  result_of m start = Ok (Some new_key) /\
  calls (events_of m start) =
    [ (CreateAccessKey "alice", None);
      (CreateSecret "iam/user/alice/access-key" (payload_of "alice" new_key),
       Some (ResourceExistsException "the secret already exists"));
      (PutSecretValue "iam/user/alice/access-key" (payload_of "alice" new_key),
       None) ].
Proof. split; reflexivity. Qed.

(** C7.  The secret value of a new key goes into the payload written to the
    secret store and nowhere else.  Take any run, and the same run with other
    secret values on the keys that [create_access_key] returns (Secrets
    Manager answering a write alike whatever the secret value in it): both
    print the same lines, post the same notification and end alike, and their
    events are the same once the secret value of each written payload is
    blanked. *)
Theorem secret_value_reaches_only_the_secret_store
    (cfg : Config) (inv : Inventory) (out : Outcomes)
    (v : nat -> string -> string) (now : datetime) (s : State) :
  secret_blind out ->
  let run := lambda_handler cfg inv out now in
  let run' := lambda_handler cfg inv (with_secrets v out) now in
  printed (events_of run s) = printed (events_of run' s) /\
  posted (events_of run s) = posted (events_of run' s) /\
  result_of run s = result_of run' s /\
  map redact (events_of run s) = map redact (events_of run' s).
Proof.
  intros blind run run'.
  assert (Hs : same_but_secrets s s) by (repeat split; reflexivity).
  destruct (lambda_handler_alike cfg inv out v blind now s s Hs)
    as [[_ [_ Ht]] Hr].
  assert (E : map redact (events_of run s) = map redact (events_of run' s)).
  { destruct (lambda_handler_emits cfg inv out now s) as [t [H _]].
    destruct (lambda_handler_emits cfg inv (with_secrets v out) now s)
      as [t' [H' _]].
    unfold events_of, run, run'.
    rewrite (since_app _ _ _ H), (since_app _ _ _ H').
    rewrite H, H', !map_app in Ht.
    exact (app_inv_head _ _ _ Ht). }
  split; [| split; [| split]].
  - rewrite <- (printed_redact (events_of run s)), E. apply printed_redact.
  - rewrite <- (posted_redact (events_of run s)), E. apply posted_redact.
  - apply same_result. exact Hr.
  - exact E.
Qed.

Lemma all_fine_secret_blind : secret_blind all_fine.
Proof. intros n name p p' _. split; reflexivity. Qed.

(** On [account], live: the run as it is, and the run in which every new key
    comes with the secret value [another]. *)
Lemma secret_value_reaches_only_the_secret_store_witness :
  secret_blind all_fine /\
  printed (events_of (lambda_handler live_cfg account all_fine day100) start)
  = printed
      (events_of
         (lambda_handler live_cfg account
            (with_secrets (fun _ _ => "another") all_fine) day100) start) /\
  posted (events_of (lambda_handler live_cfg account all_fine day100) start)
  = posted
      (events_of
         (lambda_handler live_cfg account
            (with_secrets (fun _ _ => "another") all_fine) day100) start) /\
  result_of (lambda_handler live_cfg account all_fine day100) start
  = result_of
      (lambda_handler live_cfg account
         (with_secrets (fun _ _ => "another") all_fine) day100) start /\
  map redact
    (events_of (lambda_handler live_cfg account all_fine day100) start)
  = map redact
      (events_of
         (lambda_handler live_cfg account
            (with_secrets (fun _ _ => "another") all_fine) day100) start).
Proof.
  split; [exact all_fine_secret_blind |].
  exact (secret_value_reaches_only_the_secret_store live_cfg account all_fine
           (fun _ _ => "another") day100 start all_fine_secret_blind).
Defined.

(** There the two secret values are written to the secret store, each by
    its run. *)
Example the_secret_is_written_to_the_store :
  secrets_written
    (events_of (lambda_handler live_cfg account all_fine day100) start)
    = ["wJalrXUtnFEMI"] /\
  secrets_written
    (events_of
       (lambda_handler live_cfg account
          (with_secrets (fun _ _ => "another") all_fine) day100) start)
    = ["another"].
Proof. split; reflexivity. Qed.

(** ** The dry-run flag in the environment *)

Lemma lower_ascii_capital (a : ascii) :
  (65 <= nat_of_ascii a <= 90)%nat ->
  nat_of_ascii (lower_ascii a) = (nat_of_ascii a + 32)%nat.
Proof.
  intros H. unfold lower_ascii.
  replace ((65 <=? nat_of_ascii a) && (nat_of_ascii a <=? 90))%nat with true.
  - apply nat_ascii_embedding. lia.
  - symmetry. apply andb_true_iff. split; apply Nat.leb_le; lia.
Qed.

Lemma lower_ascii_other (a : ascii) :
  ~ (65 <= nat_of_ascii a <= 90)%nat -> lower_ascii a = a.
Proof.
  intros H. unfold lower_ascii.
  destruct ((65 <=? nat_of_ascii a) && (nat_of_ascii a <=? 90))%nat eqn:E;
    [| reflexivity].
  apply andb_true_iff in E. destruct E as [E1 E2].
  apply Nat.leb_le in E1, E2. lia.
Qed.

Lemma nat_of_ascii_inj (a b : ascii) :
  nat_of_ascii a = nat_of_ascii b -> a = b.
Proof.
  intros H. rewrite <- (ascii_nat_embedding a), <- (ascii_nat_embedding b).
  now rewrite H.
Qed.

Lemma lower_ascii_fixed (b : ascii) :
  lower_ascii b = b -> ~ (65 <= nat_of_ascii b <= 90)%nat.
Proof.
  intros H Hb. apply lower_ascii_capital in Hb. rewrite H in Hb. lia.
Qed.

Lemma lower_ascii_same_letter (a b : ascii) :
  lower_ascii b = b -> (lower_ascii a = b <-> same_letter a b).
Proof.
  intros Hb. apply lower_ascii_fixed in Hb.
  destruct (le_dec 65 (nat_of_ascii a)) as [H1 | H1];
    [destruct (le_dec (nat_of_ascii a) 90) as [H2 | H2] |].
  - pose proof (lower_ascii_capital a (conj H1 H2)) as Hl. split.
    + intros <-. right. left. auto.
    + intros [-> | [[_ H] | [H _]]]; [tauto | | tauto].
      apply nat_of_ascii_inj. congruence.
  - rewrite (lower_ascii_other a) by lia. split.
    + intros ->. left. reflexivity.
    + intros [-> | [[H _] | [H _]]]; [reflexivity | lia | tauto].
  - rewrite (lower_ascii_other a) by lia. split.
    + intros ->. left. reflexivity.
    + intros [-> | [[H _] | [H _]]]; [reflexivity | lia | tauto].
Qed.

Lemma lower_equal_ignoring_case (s t : string) :
  lower t = t -> (lower s = t <-> equal_ignoring_case s t).
Proof.
  revert t. induction s as [| a s IH]; intros [| b t] Ht; simpl;
    try (split; [discriminate | tauto]); try tauto.
  simpl in Ht. injection Ht as Hb Ht.
  rewrite <- (IH t Ht), <- (lower_ascii_same_letter a b Hb).
  split; [intros H; injection H; auto | intros [-> ->]; reflexivity].
Qed.

(** C10.  Dry-run is on exactly when [DRY_RUN] is not set or is [true] in
    some mix of capitals and small letters; anything else, such as [1],
    [yes], or [true] with blanks around it, turns it off. *)
Theorem dry_run_exactly_unset_or_true :
  (forall v : option string,
      DRY_RUN_of_env v = true <->
      v = None \/ exists s, v = Some s /\ equal_ignoring_case s "true") /\
  DRY_RUN_of_env None = true /\
  DRY_RUN_of_env (Some "TRUE") = true /\
  DRY_RUN_of_env (Some "True") = true /\
  DRY_RUN_of_env (Some "false") = false /\
  DRY_RUN_of_env (Some "1") = false /\
  DRY_RUN_of_env (Some "yes") = false /\
  DRY_RUN_of_env (Some " true ") = false /\
  DRY_RUN_of_env (Some "") = false.
Proof.
  split; [| repeat split; reflexivity].
  intros v. unfold DRY_RUN_of_env. rewrite String.eqb_eq.
  destruct v as [s |]; simpl.
  - rewrite (lower_equal_ignoring_case s "true") by reflexivity. split.
    + intros H. right. exists s. auto.
    + intros [H | [s' [H1 H2]]]; [discriminate | congruence].
  - split; [auto | reflexivity].
Qed.

(** * More properties of the code *)

(** ** Rules for [only] *)

Section Only.

Variable P : Event -> Prop.

Lemma only_ret {A} (a : A) : only P (ret a).
Proof. apply emits_ret. constructor. Qed.

Lemma only_print (line : Text) : P (Printed line) -> only P (print line).
Proof. intros H. apply emits_print. repeat constructor. exact H. Qed.

Lemma only_read {A} (c : Call) (r : nat -> Exn + A) :
  (forall f, P (Called c f)) -> only P (read_call c r).
Proof. intros H. apply emits_read; intros; repeat constructor; apply H. Qed.

Lemma only_write {A} (c : Call) (r : nat -> Exn + A) :
  (forall f, P (Called c f)) -> only P (write_call c r).
Proof. intros H. apply emits_write; intros; repeat constructor; apply H. Qed.

Lemma only_post (out : Outcomes) (url : string) (text : Text) :
  (forall o, P (Posted url text o)) -> only P (post out url text).
Proof. intros H. apply emits_post. intros o. repeat constructor. apply H. Qed.

Lemma only_bind {A B} (m : M A) (k : A -> M B) :
  only P m -> (forall a, only P (k a)) -> only P (bind m k).
Proof.
  intros Hm Hk. eapply emits_bind; [exact Hm | |].
  - intros a t1 H1. eapply emits_weaken; [apply Hk |].
    intros r t2 H2. apply Forall_app. auto.
  - intros e t1 H1. exact H1.
Qed.

Lemma only_try {A} (body : M A) (handler : Exn -> M A) :
  only P body -> (forall e, only P (handler e)) ->
  only P (try_except body handler).
Proof.
  intros Hm Hk. eapply emits_try; [exact Hm | |].
  - intros a t1 H1. exact H1.
  - intros e t1 H1. eapply emits_weaken; [apply Hk |].
    intros r t2 H2. apply Forall_app. auto.
Qed.

Lemma only_for_each {A S} (body : A -> S -> M S) (xs : list A) (acc : S) :
  (forall x acc, In x xs -> only P (body x acc)) ->
  only P (for_each xs body acc).
Proof.
  revert acc. induction xs as [| x rest IH]; intros acc H; simpl.
  - apply only_ret.
  - apply only_bind; [apply H; left; reflexivity |].
    intros acc'. apply IH. intros y a Hy. apply H. right. exact Hy.
Qed.

Lemma only_for_pages {A S} (c : Call) (body : A -> S -> M S)
    (pages : list (Exn + A)) (acc : S) :
  (forall f, P (Called c f)) ->
  (forall p acc, In (inr p) pages -> only P (body p acc)) ->
  only P (for_pages c pages body acc).
Proof.
  intros Hc Hbody.
  eapply emits_weaken with
    (Q := fun r t' => (fun (_ : Result S) t => Forall P t) r ([] ++ t'));
    [| auto].
  apply emits_for_pages with
    (Q := fun (_ : Result S) t => Forall P t) (t := [])
    (J := fun (rest : list (Exn + A)) (_ : S) t =>
            Forall P t /\ incl rest pages).
  - intros p rest acc' t [Ht Hin].
    eapply emits_weaken; [apply (Hbody p acc'); apply Hin; left; reflexivity |].
    intros r t' Ht'. simpl.
    assert (F : Forall P (t ++ Called c None :: t')).
    { apply Forall_app. split; [exact Ht |]. constructor; [apply Hc | exact Ht']. }
    destruct r; [split; [exact F |] | exact F].
    intros x Hx. apply Hin. right. exact Hx.
  - intros e rest acc' t [Ht _]. apply Forall_app. split; [exact Ht |].
    repeat constructor. apply Hc.
  - intros acc' t [Ht _]. exact Ht.
  - split; [constructor | apply incl_refl].
Qed.

End Only.

(** A walk through a computation, leaving what each event must satisfy. *)
Ltac only_walk :=
  repeat first
    [ progress cbv beta zeta
    | apply only_ret
    | apply only_print
    | apply only_read; intros ?
    | apply only_write; intros ?
    | apply only_post; intros ?
    | apply only_for_each; intros ? ? ?
    | apply only_for_pages; [intros ? | intros ? ? ?]
    | apply only_bind; [| intros ?]
    | apply only_try; [| intros ?]
    | match goal with
      | |- only _ (if ?b then _ else _) => destruct b
      | |- only _ (match ?x with _ => _ end) => destruct x
      end ].

(** ** The notification *)

Lemma send_slack_notification_posts (cfg : Config) (out : Outcomes)
    (text : Text) :
  emits (send_slack_notification cfg out text)
    (fun r t =>
       r = Ok tt /\ calls t = [] /\
       if truthy (SLACK_WEBHOOK_URL cfg)
       then match request out (text_of (SLACK_WEBHOOK_URL cfg)) with
            | inr _ => posted t = [(text_of (SLACK_WEBHOOK_URL cfg), text)]
            | inl e =>
                t = [Printed [Txt "Error sending Slack notification: "; Err e]]
            end
       else t = [Printed [Txt "SLACK_WEBHOOK_URL not set; skipping Slack notification."]]).
Proof.
  unfold send_slack_notification.
  destruct (truthy (SLACK_WEBHOOK_URL cfg)); simpl.
  - destruct (request out _) as [e | _]; [apply emits_print; auto |].
    eapply emits_bind with
      (Q1 := fun r t =>
         exists o, r = Ok o /\
                   t = [Posted (text_of (SLACK_WEBHOOK_URL cfg)) text o]).
    + apply emits_post. intros o. eauto.
    + intros o t1 [o' [H ->]]. injection H as <-.
      destruct o as [status body | code reason [b |] | e].
      * apply emits_print. simpl. auto.
      * apply emits_print_then. apply emits_print. simpl. auto.
      * apply emits_print_then. apply emits_ret. simpl. auto.
      * apply emits_print. simpl. auto.
    + intros e t1 [o [H _]]. discriminate.
  - apply emits_print. auto.
Qed.

(** X1.  [send_slack_notification] never raises and calls no boto3 client.
    Without a webhook URL (not set, or empty) it sends nothing and only
    prints that it skips.  With one, it first builds the request: when
    urllib refuses the value (it is no URL), nothing is sent and the only
    event is the line that reports the error; when the request can be
    built, it is handed to [urlopen] once, a POST of the text it was given
    to that URL, whatever comes of it (a response, an HTTP error, any other
    exception). *)
Theorem notification_is_posted_once_or_skipped
    (cfg : Config) (out : Outcomes) (text : Text) (s : State) :
  let m := send_slack_notification cfg out text in
  result_of m s = Ok tt /\
  calls (events_of m s) = [] /\
  if truthy (SLACK_WEBHOOK_URL cfg)
  then match request out (text_of (SLACK_WEBHOOK_URL cfg)) with
       | inr _ =>
           posted (events_of m s) = [(text_of (SLACK_WEBHOOK_URL cfg), text)]
       | inl e =>
           events_of m s =
             [Printed [Txt "Error sending Slack notification: "; Err e]]
       end
  else events_of m s =
         [Printed [Txt "SLACK_WEBHOOK_URL not set; skipping Slack notification."]].
Proof.
  exact (emits_events _ _ (send_slack_notification_posts cfg out text) s).
Qed.

Example notification_when_the_webhook_fails :
  let m := send_slack_notification bob_only_cfg all_failing [Txt "summary"] in
  result_of m start = Ok tt /\
  events_of m start =
    [ Posted "https://hooks.example/T0" [Txt "summary"]
        (HttpFailure (OtherException "timed out"));
      Printed [Txt "Error sending Slack notification: ";
               Err (OtherException "timed out")] ].
Proof. split; reflexivity. Qed.

Example notification_when_the_value_is_no_url :
  let m :=
    send_slack_notification no_scheme_cfg refusing_the_url [Txt "summary"] in
  result_of m start = Ok tt /\
  posted (events_of m start) = [] /\
  events_of m start =
    [ Printed [Txt "Error sending Slack notification: ";
               Err (OtherException "unknown url type: 'hooks.example/T0'")] ].
Proof. repeat split; reflexivity. Qed.

(** ** Failures of the read-only calls are not caught *)

Lemma no_failed_read_app (t1 t2 : list Event) :
  no_failed_read t1 -> no_failed_read t2 -> no_failed_read (t1 ++ t2).
Proof. intros H1 H2. apply Forall_app. auto. Qed.

Lemma read_failure_propagates_after {A} (r : Result A) (t1 t2 : list Event) :
  no_failed_read t1 -> read_failure_propagates r t2 ->
  read_failure_propagates r (t1 ++ t2).
Proof.
  intros H1 H2. destruct r as [a | e]; simpl in *.
  - apply no_failed_read_app; assumption.
  - destruct H2 as [c [t0 [Hc [-> H0]]]]. exists c, (t1 ++ t0).
    split; [exact Hc |]. split; [apply app_assoc |].
    apply no_failed_read_app; assumption.
Qed.

Lemma propagates_ret {A} (a : A) : emits (ret a) read_failure_propagates.
Proof. apply emits_ret. constructor. Qed.

Lemma propagates_print (line : Text) :
  emits (print line) read_failure_propagates.
Proof. apply emits_print. repeat constructor. Qed.

Lemma propagates_read {A} (c : Call) (r : nat -> Exn + A) :
  is_mutation c = false -> emits (read_call c r) read_failure_propagates.
Proof.
  intros Hc. apply emits_read.
  - intros a. repeat constructor.
  - intros e. exists c, []. repeat split; [exact Hc | constructor].
Qed.

Lemma propagates_bind {A B} (m : M A) (k : A -> M B) :
  emits m read_failure_propagates ->
  (forall a, emits (k a) read_failure_propagates) ->
  emits (bind m k) read_failure_propagates.
Proof.
  intros Hm Hk. eapply emits_bind; [exact Hm | |].
  - intros a t1 H1. eapply emits_weaken; [apply Hk |].
    intros r t2 H2. apply read_failure_propagates_after; assumption.
  - intros e t1 H1. exact H1.
Qed.

Lemma propagates_for_each {A S} (body : A -> S -> M S) (xs : list A)
    (acc : S) :
  (forall x acc, emits (body x acc) read_failure_propagates) ->
  emits (for_each xs body acc) read_failure_propagates.
Proof.
  intros H. revert acc. induction xs as [| x rest IH]; intros acc; simpl.
  - apply propagates_ret.
  - apply propagates_bind; [apply H | exact IH].
Qed.

Lemma propagates_for_pages {P S} (c : Call) (body : P -> S -> M S)
    (pages : list (Exn + P)) (acc : S) :
  is_mutation c = false ->
  (forall p acc, emits (body p acc) read_failure_propagates) ->
  emits (for_pages c pages body acc) read_failure_propagates.
Proof.
  intros Hc H. revert acc. induction pages as [| p rest IH]; intros acc; simpl.
  - apply propagates_ret.
  - apply propagates_bind; [apply propagates_read; exact Hc | intros page].
    apply propagates_bind; [apply H | exact IH].
Qed.

Lemma total_try {A} (body : M A) (handler : Exn -> M A) :
  (forall e, total (handler e)) -> total (try_except body handler).
Proof.
  intros H s. unfold try_except. destruct (body s) as [[a | e] s'].
  - exists a. reflexivity.
  - apply H.
Qed.

(** A computation that always returns and makes no read-only call that
    fails, such as a [try] around mutating calls only. *)
Lemma propagates_caught {A} (m : M A) :
  only (fun ev => failed_read ev = false) m -> total m ->
  emits m read_failure_propagates.
Proof.
  intros Ho Ht s. destruct (Ho s) as [t [Hs H]]. exists t.
  split; [exact Hs |]. destruct (Ht s) as [a ->]. exact H.
Qed.

Lemma propagates_try {A} (body : M A) (handler : Exn -> M A) :
  only (fun ev => failed_read ev = false) body ->
  (forall e, only (fun ev => failed_read ev = false) (handler e)) ->
  (forall e, total (handler e)) ->
  emits (try_except body handler) read_failure_propagates.
Proof.
  intros Hb Hh Ht. apply propagates_caught.
  - apply only_try; assumption.
  - apply total_try. exact Ht.
Qed.

(** The events of printing, posting and mutating calls are no failed
    reads. *)
Ltac no_read :=
  only_walk;
  match goal with
  | |- failed_read (Called _ ?f) = false => destruct f; reflexivity
  | |- _ => reflexivity
  end.

Ltac propagates_walk :=
  repeat first
    [ progress cbv beta zeta
    | apply propagates_ret
    | apply propagates_print
    | apply propagates_read; reflexivity
    | apply propagates_try; [no_read | intros ?; no_read | intros ?; quiet]
    | apply propagates_for_each; intros ? ?
    | apply propagates_for_pages; [reflexivity | intros ? ?]
    | apply propagates_bind; [| intros ?]
    | match goal with
      | |- emits (if ?b then _ else _) _ => destruct b
      | |- emits (match ?x with _ => _ end) _ => destruct x
      end ].

Lemma stop_old_ec2_instances_propagates (cfg : Config) (inv : Inventory)
    (out : Outcomes) (now : datetime) :
  emits (stop_old_ec2_instances cfg inv out now) read_failure_propagates.
Proof. unfold stop_old_ec2_instances. propagates_walk. Qed.

Lemma process_key_propagates (cfg : Config) (inv : Inventory)
    (out : Outcomes) (username : string) (now : datetime)
    (inactive_threshold rotate_threshold : timedelta) (key_meta : KeyMeta)
    (l : KeysLoop) :
  emits (process_key cfg inv out username now inactive_threshold
           rotate_threshold key_meta l) read_failure_propagates.
Proof.
  unfold process_key, create_new_access_key,
    store_access_key_in_secrets_manager, deactivate_key.
  propagates_walk.
Qed.

Lemma manage_iam_keys_propagates (cfg : Config) (inv : Inventory)
    (out : Outcomes) (now : datetime) :
  emits (manage_iam_keys cfg inv out now) read_failure_propagates.
Proof.
  unfold manage_iam_keys, process_user_keys.
  propagates_walk; apply process_key_propagates.
Qed.

Lemma send_slack_notification_propagates (cfg : Config) (out : Outcomes)
    (text : Text) :
  emits (send_slack_notification cfg out text) read_failure_propagates.
Proof.
  eapply emits_weaken; [apply send_slack_notification_emits |].
  intros r t [-> Hc]. simpl. unfold no_failed_read.
  induction t as [| ev t IH]; [constructor |].
  destruct ev as [line | c f | u x o]; simpl in Hc.
  - constructor; [reflexivity | apply IH; exact Hc].
  - discriminate.
  - constructor; [reflexivity | apply IH; exact Hc].
Qed.

Lemma lambda_handler_propagates (cfg : Config) (inv : Inventory)
    (out : Outcomes) (now : datetime) :
  emits (lambda_handler cfg inv out now) read_failure_propagates.
Proof.
  unfold lambda_handler.
  apply propagates_bind; [apply propagates_print | intros _].
  apply propagates_bind;
    [apply stop_old_ec2_instances_propagates | intros ec2_stats].
  apply propagates_bind; [apply manage_iam_keys_propagates | intros iam_stats].
  apply propagates_bind; [apply propagates_print | intros _].
  cbv zeta.
  apply propagates_bind; [apply propagates_print | intros _].
  apply propagates_bind;
    [apply send_slack_notification_propagates | intros _].
  apply propagates_ret.
Qed.

(** C4, as the code has it.  The entry point returns [{"status": "ok"}]
    whatever the mutating calls and the webhook answer, and then no
    read-only call has failed.  A failure of a read-only call (describe
    instances, list users, list access keys, get last used) is not caught:
    the run ends at that call, which is the last event of the run and the
    first read-only call to fail, and the caller gets the exception it
    raised instead of a return value. *)
Theorem handler_ok_unless_a_read_fails
    (cfg : Config) (inv : Inventory) (out : Outcomes) (now : datetime)
    (s : State) :
  let run := lambda_handler cfg inv out now in
  (result_of run s = Ok status_ok /\ no_failed_read (events_of run s)) \/
  (exists e c t,
     result_of run s = Raise e /\
     is_mutation c = false /\
     events_of run s = t ++ [Called c (Some e)] /\
     no_failed_read t).
Proof.
  intros run.
  pose proof (emits_events _ _ (lambda_handler_propagates cfg inv out now) s)
    as H.
  fold run in H. destruct (result_of run s) as [[] | e]; simpl in H.
  - left. split; [reflexivity | exact H].
  - right. destruct H as [c [t [Hc [Ht H0]]]]. exists e, c, t. auto.
Qed.

(** C4 as stated fails: when the first page of instances cannot be fetched,
    the entry point raises and returns nothing. *)
Lemma handler_raises_when_a_listing_fails :
  result_of (lambda_handler default_cfg throttled_account all_fine day100)
    start = Raise (OtherException "RequestLimitExceeded") /\
  calls (events_of (lambda_handler default_cfg throttled_account all_fine
                      day100) start) =
    [ (DescribeInstances (filters default_cfg),
       Some (OtherException "RequestLimitExceeded")) ].
Proof. split; reflexivity. Qed.

(** The same for the three other read-only calls: the run raises what the
    call raised, and the call is the last one it makes. *)
Example handler_raises_when_the_users_cannot_be_listed :
  let run := lambda_handler live_cfg account_without_users all_fine day100 in
  result_of run start = Raise (OtherException "Throttling") /\
  calls (events_of run start) =
    [ (DescribeInstances (filters live_cfg), None);
      (StopInstances ["i-25h"], None);
      (ListUsers, Some (OtherException "Throttling")) ].
Proof. split; reflexivity. Qed.

Example handler_raises_when_keys_cannot_be_listed :
  let run :=
    lambda_handler default_cfg account_without_keys_of_bob all_fine day100 in
  result_of run start = Raise (OtherException "ServiceFailure") /\
  calls (events_of run start) =
    [ (DescribeInstances (filters default_cfg), None);
      (ListUsers, None);
      (ListAccessKeys "alice", None);
      (GetAccessKeyLastUsed "AKIAALICE1", None);
      (GetAccessKeyLastUsed "AKIAALICE2", None);
      (ListAccessKeys "bob", Some (OtherException "ServiceFailure")) ].
Proof. split; reflexivity. Qed.

Example handler_raises_when_a_last_use_cannot_be_read :
  let run :=
    lambda_handler default_cfg account_without_last_use all_fine day100 in
  result_of run start = Raise (OtherException "NoSuchEntity") /\
  calls (events_of run start) =
    [ (DescribeInstances (filters default_cfg), None);
      (ListUsers, None);
      (ListAccessKeys "alice", None);
      (GetAccessKeyLastUsed "AKIAALICE1", None);
      (GetAccessKeyLastUsed "AKIAALICE2",
       Some (OtherException "NoSuchEntity")) ].
Proof. split; reflexivity. Qed.

(** A failed mutating call, on the contrary, does not end the run. *)
Example handler_returns_when_every_mutation_fails :
  let run := lambda_handler live_cfg account all_failing day100 in
  result_of run start = Ok status_ok /\
  map snd (mutation_calls (events_of run start)) =
    [ Some (OtherException "UnauthorizedOperation");
      Some (OtherException "LimitExceeded");
      Some (OtherException "AccessDenied");
      Some (OtherException "LimitExceeded");
      Some (OtherException "AccessDenied");
      Some (OtherException "AccessDenied") ].
Proof. split; reflexivity. Qed.

(** ** The instance scan and its tag filter *)

(** X2.  Every [describe_instances] call asks for running instances, and
    for the configured tag only when both the tag key and the tag value are
    set and not empty: with one of them missing the scan is over all running
    instances.  Besides printing, the instance step makes no other call
    than those and [stop_instances], and posts nothing. *)
Theorem tag_filter_needs_both_key_and_value
    (cfg : Config) (inv : Inventory) (out : Outcomes) (now : datetime)
    (s : State) :
  let running := {| Name := "instance-state-name"; Values := ["running"] |} in
  let tag :=
    {| Name := ("tag:" ++ text_of (EC2_FILTER_TAG_KEY cfg))%string;
       Values := [text_of (EC2_FILTER_TAG_VALUE cfg)] |} in
  Forall
    (of_the_reaper
       (if truthy (EC2_FILTER_TAG_KEY cfg) && truthy (EC2_FILTER_TAG_VALUE cfg)
        then [running; tag] else [running]))
    (events_of (stop_old_ec2_instances cfg inv out now) s).
Proof.
  intros running tag.
  assert (E : (if truthy (EC2_FILTER_TAG_KEY cfg)
                  && truthy (EC2_FILTER_TAG_VALUE cfg)
               then [running; tag] else [running]) = filters cfg).
  { unfold filters.
    destruct (truthy (EC2_FILTER_TAG_KEY cfg)
              && truthy (EC2_FILTER_TAG_VALUE cfg)); reflexivity. }
  rewrite E.
  apply (emits_events (stop_old_ec2_instances cfg inv out now)
           (fun _ t => Forall (of_the_reaper (filters cfg)) t)).
  change (only (of_the_reaper (filters cfg))
            (stop_old_ec2_instances cfg inv out now)).
  unfold stop_old_ec2_instances. only_walk; simpl; auto.
Qed.

Example tag_key_without_value :
  calls (events_of (stop_old_ec2_instances bob_only_cfg account all_fine day100)
           start) =
    [ (DescribeInstances
         [ {| Name := "instance-state-name"; Values := ["running"] |} ], None);
      (StopInstances ["i-25h"], None) ].
Proof. reflexivity. Qed.

(** ** The allow-list *)

(** X3.  The key manager touches no user outside the allow-list: every call
    that names a user (listing the user's keys, changing or creating a key,
    storing one) names a user that the listing yielded and that the
    allow-list, when it is not empty, contains. *)
Theorem only_allowed_users_are_touched
    (cfg : Config) (inv : Inventory) (out : Outcomes) (now : datetime)
    (s : State) :
  Forall
    (about_users
       (fun u => In u (listed_users inv) /\
                 (IAM_ALLOWED_USERS cfg = [] \/ In u (IAM_ALLOWED_USERS cfg))))
    (events_of (manage_iam_keys cfg inv out now) s).
Proof.
  set (ok := fun u => In u (listed_users inv) /\
                      (IAM_ALLOWED_USERS cfg = [] \/
                       In u (IAM_ALLOWED_USERS cfg))).
  apply (emits_events (manage_iam_keys cfg inv out now)
           (fun _ t => Forall (about_users ok) t)).
  change (only (about_users ok) (manage_iam_keys cfg inv out now)).
  unfold manage_iam_keys.
  apply only_bind; [apply only_print; exact I | intros _].
  apply only_bind; [| intros stats; apply only_ret].
  apply only_for_pages; [intros f u H; discriminate |].
  intros page stats Hpage.
  apply only_for_each. intros username stats' Huser.
  assert (Hlisted : In username (listed_users inv)).
  { unfold listed_users, page_users. apply in_flat_map.
    exists (inr page). split; assumption. }
  destruct (not_allowed cfg username) eqn:Hna.
  - only_walk. exact I.
  - assert (Hok : ok username).
    { split; [exact Hlisted |]. unfold not_allowed in Hna.
      destruct (IAM_ALLOWED_USERS cfg) as [| a l] eqn:Ha; [left; reflexivity |].
      right. apply negb_false_iff in Hna. apply existsb_exists in Hna.
      destruct Hna as [x [Hx Heq]]. apply String.eqb_eq in Heq. subst x.
      exact Hx. }
    unfold process_user_keys, process_key, create_new_access_key,
      store_access_key_in_secrets_manager, deactivate_key.
    only_walk; simpl; auto; intros u Hu;
      try discriminate; injection Hu as <-; exact Hok.
Qed.

(** With the allow-list [bob], nothing is asked or changed about [alice]. *)
Example only_bob_is_touched :
  calls (events_of (manage_iam_keys bob_only_cfg account all_fine day100) start)
  = [ (ListUsers, None);
      (ListAccessKeys "bob", None);
      (GetAccessKeyLastUsed "AKIABOB1", None);
      (UpdateAccessKey "bob" "AKIABOB1" "Inactive", None) ] /\
  result_of (manage_iam_keys bob_only_cfg account all_fine day100) start
  = Ok {| users_processed := 1; keys_deactivated := 1; keys_rotated := 0 |}.
Proof. split; reflexivity. Qed.

(** ** The phases of a run *)

Lemma line_or_call_not_posted (p : Call -> bool) (t : list Event) :
  Forall (line_or_call p) t -> posted t = [].
Proof.
  induction 1 as [| ev t H _ IH]; [reflexivity |].
  destruct ev; simpl in *; [exact IH | exact IH | contradiction].
Qed.

Lemma line_or_call_calls (p : Call -> bool) (t : list Event) :
  Forall (line_or_call p) t -> Forall (fun cf => p (fst cf) = true) (calls t).
Proof.
  induction 1 as [| ev t H _ IH]; [constructor |].
  destruct ev; simpl in *; [exact IH | constructor; assumption | contradiction].
Qed.

Lemma stop_old_ec2_instances_phase (cfg : Config) (inv : Inventory)
    (out : Outcomes) (now : datetime) :
  only (line_or_call is_ec2_call) (stop_old_ec2_instances cfg inv out now).
Proof. unfold stop_old_ec2_instances. only_walk; simpl; auto. Qed.

Lemma manage_iam_keys_phase (cfg : Config) (inv : Inventory)
    (out : Outcomes) (now : datetime) :
  only (line_or_call is_key_call) (manage_iam_keys cfg inv out now).
Proof.
  unfold manage_iam_keys, process_user_keys, process_key,
    create_new_access_key, store_access_key_in_secrets_manager, deactivate_key.
  only_walk; simpl; auto.
Qed.

(** The entry point, by what its two steps return. *)
Lemma lambda_handler_steps (cfg : Config) (inv : Inventory) (out : Outcomes)
    (now : datetime) (s : State) :
  let a := stop_old_ec2_instances cfg inv out now (emit (started cfg now) s) in
  let b := manage_iam_keys cfg inv out now (snd a) in
  lambda_handler cfg inv out now s =
  match fst a with
  | Raise e => (Raise e, snd a)
  | Ok ec2_stats =>
      match fst b with
      | Raise e => (Raise e, snd b)
      | Ok iam_stats =>
          let summary := build_summary cfg now ec2_stats iam_stats in
          (Ok status_ok,
           snd (send_slack_notification cfg out summary
                  (emit (Printed (Txt ("Summary:" ++ nl) :: summary))
                     (emit (Printed [Txt "Lambda run complete."]) (snd b)))))
      end
  end.
Proof.
  intros a b. unfold lambda_handler, bind at 1 2 3, print at 1. fold (started cfg now).
  fold a. destruct a as [[ec2 | e] s1]; [| reflexivity].
  cbn [fst snd] in *. fold b. destruct b as [[iam | e] s2]; [| reflexivity].
  cbn [fst snd]. unfold bind, print. cbn [fst snd].
  pose proof (send_slack_notification_emits cfg out
                (build_summary cfg now ec2 iam)
                (emit (Printed (Txt ("Summary:" ++ nl)
                                :: build_summary cfg now ec2 iam))
                   (emit (Printed [Txt "Lambda run complete."]) s2)))
    as [t [_ [Hr _]]].
  destruct (send_slack_notification cfg out _ _) as [r s3].
  cbn [fst snd] in *. subst r. reflexivity.
Qed.

Lemma posted_app (t1 t2 : list Event) :
  posted (t1 ++ t2) = posted t1 ++ posted t2.
Proof. unfold posted. apply flat_map_app. Qed.

(** The events of a run, by what its two steps return. *)
Lemma lambda_handler_events (cfg : Config) (inv : Inventory) (out : Outcomes)
    (now : datetime) (s : State) :
  let s0 := emit (started cfg now) s in
  let a := stop_old_ec2_instances cfg inv out now s0 in
  let b := manage_iam_keys cfg inv out now (snd a) in
  let run := lambda_handler cfg inv out now in
  let ta := events_of (stop_old_ec2_instances cfg inv out now) s0 in
  let tb := events_of (manage_iam_keys cfg inv out now) (snd a) in
  match fst a with
  | Raise e =>
      result_of run s = Raise e /\ events_of run s = started cfg now :: ta
  | Ok ec2_stats =>
      match fst b with
      | Raise e =>
          result_of run s = Raise e /\
          events_of run s = started cfg now :: ta ++ tb
      | Ok iam_stats =>
          let summary := build_summary cfg now ec2_stats iam_stats in
          exists tc,
            result_of run s = Ok status_ok /\
            events_of run s =
              started cfg now :: ta ++ tb ++
              [Printed [Txt "Lambda run complete."];
               Printed (Txt ("Summary:" ++ nl) :: summary)] ++ tc /\
            calls tc = [] /\
            posted tc =
              if truthy (SLACK_WEBHOOK_URL cfg)
              then match request out (text_of (SLACK_WEBHOOK_URL cfg)) with
                   | inr _ => [(text_of (SLACK_WEBHOOK_URL cfg), summary)]
                   | inl _ => []
                   end
              else []
      end
  end.
Proof.
  intros s0 a b run ta tb.
  pose proof (lambda_handler_steps cfg inv out now s) as E.
  cbv zeta in E. fold s0 in E. fold a in E. fold b in E.
  unfold run, result_of, events_of at 1 2 3. rewrite E.
  destruct (stop_old_ec2_instances_phase cfg inv out now s0) as [ta' [Ha _]].
  assert (Eta : ta = ta') by (apply since_app; exact Ha).
  fold a in Ha. rewrite <- Eta in Ha.
  destruct (manage_iam_keys_phase cfg inv out now (snd a)) as [tb' [Hb _]].
  assert (Etb : tb = tb') by (apply since_app; exact Hb).
  fold b in Hb. rewrite <- Etb in Hb.
  assert (H0 : trace s0 = trace s ++ [started cfg now]) by reflexivity.
  destruct (fst a) as [ec2 | e].
  - destruct (fst b) as [iam | e].
    + set (summary := build_summary cfg now ec2 iam).
      set (s3 := emit (Printed (Txt ("Summary:" ++ nl) :: summary))
                   (emit (Printed [Txt "Lambda run complete."]) (snd b))).
      destruct (send_slack_notification_posts cfg out summary s3)
        as [tc [Hc [_ [Hcalls Hposted]]]].
      exists tc. cbn [fst snd]. split; [reflexivity |]. split; [| split].
      * apply since_app. rewrite Hc. unfold s3. simpl.
        rewrite Hb, Ha, H0. rewrite <- !app_assoc. reflexivity.
      * exact Hcalls.
      * destruct (truthy (SLACK_WEBHOOK_URL cfg));
          [destruct (request out _); [rewrite Hposted; reflexivity |
                                      exact Hposted] |].
        rewrite Hposted. reflexivity.
    + cbn [fst snd]. split; [reflexivity |]. apply since_app.
      rewrite Hb, Ha, H0. rewrite <- !app_assoc. reflexivity.
  - cbn [fst snd]. split; [reflexivity |]. apply since_app.
    rewrite Ha, H0. rewrite <- !app_assoc. reflexivity.
Qed.

(** X4.  What a run sends to the webhook is the summary it logs, built from
    the counts that the instance step and then the key step returned; it is
    sent once, after both steps, when a webhook URL is set and urllib can
    build a request from it.  Nothing is sent when no URL is set or when the
    request cannot be built (the value is no URL), and a run that ends in an
    exception sends nothing. *)
Theorem notification_reports_the_counts
    (cfg : Config) (inv : Inventory) (out : Outcomes) (now : datetime)
    (s : State) :
  let a := stop_old_ec2_instances cfg inv out now (emit (started cfg now) s) in
  let b := manage_iam_keys cfg inv out now (snd a) in
  let run := lambda_handler cfg inv out now in
  match fst a, fst b with
  | Ok ec2_stats, Ok iam_stats =>
      let summary := build_summary cfg now ec2_stats iam_stats in
      result_of run s = Ok status_ok /\
      In (Printed (Txt ("Summary:" ++ nl) :: summary)) (events_of run s) /\
      posted (events_of run s) =
        if truthy (SLACK_WEBHOOK_URL cfg)
        then match request out (text_of (SLACK_WEBHOOK_URL cfg)) with
             | inr _ => [(text_of (SLACK_WEBHOOK_URL cfg), summary)]
             | inl _ => []
             end
        else []
  | Ok _, Raise e | Raise e, _ =>
      result_of run s = Raise e /\ posted (events_of run s) = []
  end.
Proof.
  intros a b run.
  pose proof (lambda_handler_events cfg inv out now s) as H. cbv zeta in H.
  fold a in H. fold b in H. fold run in H.
  pose proof (emits_events _ _
                (stop_old_ec2_instances_phase cfg inv out now)
                (emit (started cfg now) s)) as Pa.
  pose proof (emits_events _ _
                (manage_iam_keys_phase cfg inv out now) (snd a)) as Pb.
  apply line_or_call_not_posted in Pa, Pb.
  destruct (fst a) as [ec2 | e].
  - destruct (fst b) as [iam | e].
    + destruct H as [tc [Hr [He [_ Hp]]]]. split; [exact Hr |]. split.
      * rewrite He. right. apply in_or_app. right. apply in_or_app. right.
        right. left. reflexivity.
      * rewrite He. simpl. rewrite !posted_app, Pa, Pb. exact Hp.
    + destruct H as [Hr He]. split; [exact Hr |].
      rewrite He. simpl. rewrite posted_app, Pa, Pb. reflexivity.
  - destruct H as [Hr He]. split; [exact Hr |].
    rewrite He. simpl. exact Pa.
Qed.

Example notification_on_account :
  posted (events_of (lambda_handler bob_only_cfg account all_fine day100) start)
  = [ ("https://hooks.example/T0",
       build_summary bob_only_cfg day100
         {| instances_to_stop := 1; instances_stopped := 1 |}
         {| users_processed := 1; keys_deactivated := 1; keys_rotated := 0 |}) ]
  /\
  posted (events_of (lambda_handler bob_only_cfg throttled_account all_fine
                       day100) start) = [].
Proof. split; reflexivity. Qed.

Example no_notification_when_the_value_is_no_url :
  let run := lambda_handler no_scheme_cfg account refusing_the_url day100 in
  result_of run start = Ok status_ok /\
  posted (events_of run start) = [] /\
  last (events_of run start) (Printed []) =
    Printed [Txt "Error sending Slack notification: ";
             Err (OtherException "unknown url type: 'hooks.example/T0'")].
Proof. repeat split; reflexivity. Qed.

(** X5.  A run calls the services in two phases: first the EC2 client only
    (describe and stop instances), then the IAM and Secrets Manager clients
    only.  No key is listed or touched before the instance step is over, and
    none at all when that step raises. *)
Theorem instances_first_then_keys
    (cfg : Config) (inv : Inventory) (out : Outcomes) (now : datetime)
    (s : State) :
  let s0 := emit (started cfg now) s in
  let a := stop_old_ec2_instances cfg inv out now s0 in
  let ta := events_of (stop_old_ec2_instances cfg inv out now) s0 in
  let tb := events_of (manage_iam_keys cfg inv out now) (snd a) in
  calls (events_of (lambda_handler cfg inv out now) s) =
    calls ta ++ match fst a with Ok _ => calls tb | Raise _ => [] end /\
  Forall (fun cf => is_ec2_call (fst cf) = true) (calls ta) /\
  Forall (fun cf => is_ec2_call (fst cf) = false) (calls tb).
Proof.
  intros s0 a ta tb.
  pose proof (lambda_handler_events cfg inv out now s) as H. cbv zeta in H.
  fold s0 in H. fold a in H. fold ta in H. fold tb in H.
  split; [| split].
  - destruct (fst a) as [ec2 | e].
    + destruct (fst (manage_iam_keys cfg inv out now (snd a))) as [iam | e].
      * destruct H as [tc [_ [He [Hc _]]]]. rewrite He.
        change (started cfg now :: ta ++ tb ++
                [Printed [Txt "Lambda run complete."];
                 Printed (Txt ("Summary:" ++ nl)
                          :: build_summary cfg now ec2 iam)] ++ tc)
          with ([started cfg now] ++ ta ++ tb ++
                [Printed [Txt "Lambda run complete."];
                 Printed (Txt ("Summary:" ++ nl)
                          :: build_summary cfg now ec2 iam)] ++ tc).
        rewrite !calls_app, Hc. simpl. rewrite app_nil_r. reflexivity.
      * destruct H as [_ He]. rewrite He. simpl. rewrite calls_app.
        reflexivity.
    + destruct H as [_ He]. rewrite He. simpl. rewrite app_nil_r. reflexivity.
  - apply line_or_call_calls.
    exact (emits_events _ _ (stop_old_ec2_instances_phase cfg inv out now) s0).
  - pose proof (line_or_call_calls _ _
                  (emits_events _ _ (manage_iam_keys_phase cfg inv out now)
                     (snd a))) as F.
    fold tb in F. eapply Forall_impl; [| exact F].
    intros cf Hcf. unfold is_key_call in Hcf. apply negb_true_iff. exact Hcf.
Qed.

(** ** Counters and calls *)

Lemma count_calls_app (p : Call * option Exn -> bool) (t1 t2 : list Event) :
  count_calls p (t1 ++ t2) = (count_calls p t1 + count_calls p t2)%nat.
Proof.
  unfold count_calls. rewrite calls_app, filter_app, length_app. reflexivity.
Qed.

Lemma count_calls_nil (p : Call * option Exn -> bool) : count_calls p [] = 0%nat.
Proof. reflexivity. Qed.

Lemma count_calls_printed (p : Call * option Exn -> bool) (line : Text)
    (t : list Event) :
  count_calls p (Printed line :: t) = count_calls p t.
Proof. reflexivity. Qed.

Lemma count_calls_called (p : Call * option Exn -> bool) (c : Call)
    (f : option Exn) (t : list Event) :
  count_calls p (Called c f :: t) =
  ((if p (c, f) then 1 else 0) + count_calls p t)%nat.
Proof. unfold count_calls. simpl. destruct (p (c, f)); reflexivity. Qed.

Create Rewrite HintDb counts.
#[export] Hint Rewrite count_calls_app count_calls_nil count_calls_printed
  count_calls_called app_nil_r Nat.add_0_r : counts.

Lemma count_calls_of_calls (p : Call * option Exn -> bool) (t : list Event)
    (cs : list (Call * option Exn)) :
  calls t = cs -> count_calls p t = List.length (filter p cs).
Proof. intros <-. reflexivity. Qed.

Lemma deactivation_counts (cfg : Config) (username id : string)
    (cs : list (Call * option Exn)) :
  deactivation cfg username id cs ->
  List.length (filter is_update cs) = (if DRY_RUN cfg then 0 else 1)%nat /\
  filter is_create_secret cs = [] /\ filter is_created_key cs = [] /\
  filter is_put_secret cs = [].
Proof.
  unfold deactivation. destruct (DRY_RUN cfg); [intros -> | intros [f ->]];
    repeat split; reflexivity.
Qed.

Lemma creation_counts (cfg : Config) (username : string)
    (c c' : option NewKey) (cs : list (Call * option Exn)) :
  creation cfg username c c' cs ->
  filter is_update cs = [] /\
  List.length (filter is_create_secret cs)
    = List.length (filter is_created_key cs) /\
  (List.length (filter is_put_secret cs)
   <= List.length (filter is_create_secret cs))%nat.
Proof.
  intros [k | D | e D | k cs' D [-> | [[m [f ->]] | [m ->]]]]; simpl;
    repeat split; auto.
Qed.

(** What one step adds to the counters and to the calls. *)
Lemma key_step_counts (cfg : Config) (username id : string)
    (l l' : KeysLoop) (cs : list (Call * option Exn)) :
  key_step cfg username id l l' cs ->
  let n := (deactivated_count l + rotated_count l)%nat in
  let n' := (deactivated_count l' + rotated_count l')%nat in
  (n <= n' <= n + 1)%nat /\
  List.length (filter is_update cs) = (if DRY_RUN cfg then 0 else n' - n)%nat /\
  List.length (filter is_create_secret cs)
    = List.length (filter is_created_key cs) /\
  (List.length (filter is_put_secret cs)
   <= List.length (filter is_create_secret cs))%nat /\
  filter is_last_used_read cs = [].
Proof.
  intros H. destruct H as [| cs Hd | c' cs1 cs2 Hc Hd]; simpl.
  - repeat split; auto; try lia. destruct (DRY_RUN cfg); lia.
  - destruct (deactivation_counts _ _ _ _ Hd) as [U [S1 [S2 S3]]].
    rewrite U, S1, S2, S3. simpl. repeat split; try lia.
    + destruct (DRY_RUN cfg); lia.
    + unfold deactivation in Hd.
      destruct (DRY_RUN cfg); [subst cs | destruct Hd as [f ->]]; reflexivity.
  - destruct (deactivation_counts _ _ _ _ Hd) as [U [S1 [S2 S3]]].
    destruct (creation_counts _ _ _ _ _ Hc) as [U' [S' P']].
    rewrite !filter_app, !length_app, U, S1, S2, S3, U', ?app_nil_r. simpl.
    repeat split; try lia.
    + destruct (DRY_RUN cfg); lia.
    + unfold deactivation in Hd.
      assert (E2 : filter is_last_used_read cs2 = [])
        by (destruct (DRY_RUN cfg);
            [subst cs2 | destruct Hd as [f ->]]; reflexivity).
      rewrite E2, app_nil_r.
      destruct Hc as [k | D | e D | k cs' D [-> | [[m [f ->]] | [m ->]]]];
        reflexivity.
Qed.

Lemma process_user_keys_accounts (cfg : Config) (inv : Inventory)
    (out : Outcomes) (username : string) (now : datetime) (it rt : timedelta) :
  emits (process_user_keys cfg inv out username now it rt)
    (fun r t =>
       secrets_match_keys t /\
       match r with
       | Ok dr => counted cfg (fst dr + snd dr) t
       | Raise _ => True
       end).
Proof.
  unfold process_user_keys.
  eapply emits_bind with
    (Q1 := fun r t =>
       calls t = [(ListAccessKeys username,
                   match r with Ok _ => None | Raise e => Some e end)]);
    [apply emits_read; reflexivity | |].
  2: { intros e t1 Ht1. unfold secrets_match_keys.
       rewrite !(count_calls_of_calls _ _ _ Ht1). simpl. auto. }
  intros access_keys t1 Ht1.
  assert (C0 : forall p, p (ListAccessKeys username, None) = false ->
                         count_calls p t1 = 0%nat).
  { intros p Hp. rewrite (count_calls_of_calls _ _ _ Ht1). simpl.
    rewrite Hp. reflexivity. }
  destruct access_keys as [| k ks].
  - apply emits_print_then. apply emits_ret.
    unfold secrets_match_keys, counted. autorewrite with counts.
    rewrite !C0 by reflexivity. simpl. repeat split; auto.
    destruct (DRY_RUN cfg); reflexivity.
  - set (Q := fun (r : Result KeysLoop) t =>
                secrets_match_keys t /\
                match r with
                | Ok l => counted cfg (deactivated_count l + rotated_count l) t
                | Raise _ => True
                end).
    eapply emits_bind with (Q1 := fun r t => Q r (t1 ++ t)).
    2: { intros l t2 [H1 H2]. apply emits_ret. rewrite app_nil_r.
         split; assumption. }
    2: { intros e t2 [H1 _]. split; [exact H1 | exact I]. }
    apply emits_for_each with
      (Q := Q) (t := t1)
      (J := fun (rest : list KeyMeta) l t =>
              secrets_match_keys t /\
              counted cfg (deactivated_count l + rotated_count l) t).
    + intros x rest l t [[S1 S2] [U R]].
      eapply emits_weaken; [apply process_key_emits |].
      intros [l' | e] t' H.
      * destruct H as [cs [Hc Hs]].
        destruct (key_step_counts _ _ _ _ _ _ Hs) as [N [U' [S1' [S2' L']]]].
        cbv zeta in N, U'.
        assert (E : forall p,
                   count_calls p t' =
                   ((if p (GetAccessKeyLastUsed (AccessKeyId x), None)
                     then 1 else 0) + List.length (filter p cs))%nat).
        { intros p. rewrite (count_calls_of_calls _ _ _ Hc). simpl.
          destruct (p (GetAccessKeyLastUsed (AccessKeyId x), None));
            reflexivity. }
        unfold secrets_match_keys, counted. rewrite !count_calls_app, !E.
        simpl. rewrite L'. simpl. repeat split; try lia.
        rewrite U, U'. destruct (DRY_RUN cfg); lia.
      * unfold Q, secrets_match_keys. rewrite !count_calls_app.
        rewrite !(count_calls_of_calls _ _ _ H). simpl. split; [| exact I].
        split; lia.
    + intros l t H. exact H.
    + unfold secrets_match_keys, counted. rewrite !C0 by reflexivity. simpl.
      repeat split; auto. destruct (DRY_RUN cfg); reflexivity.
Qed.

Lemma manage_iam_keys_accounts (cfg : Config) (inv : Inventory)
    (out : Outcomes) (now : datetime) :
  emits (manage_iam_keys cfg inv out now)
    (fun r t =>
       secrets_match_keys t /\
       match r with
       | Ok stats =>
           counted cfg (keys_deactivated stats + keys_rotated stats) t /\
           users_processed stats =
             List.length (allowed_users cfg (listed_users inv))
       | Raise _ => True
       end).
Proof.
  unfold manage_iam_keys. apply emits_print_then.
  set (Q := fun (r : Result IamStats) t =>
              secrets_match_keys t /\
              match r with
              | Ok stats =>
                  counted cfg (keys_deactivated stats + keys_rotated stats) t /\
                  users_processed stats =
                    List.length (allowed_users cfg (listed_users inv))
              | Raise _ => True
              end).
  eapply emits_bind with (Q1 := Q).
  2: { intros stats t H. apply emits_ret. rewrite app_nil_r. exact H. }
  2: { intros e t [H _]. split; [exact H | exact I]. }
  set (J := fun (users : list string) (stats : IamStats) t =>
              secrets_match_keys t /\
              counted cfg (keys_deactivated stats + keys_rotated stats) t /\
              (users_processed stats + List.length (allowed_users cfg users)
               = List.length (allowed_users cfg (listed_users inv)))%nat).
  eapply emits_weaken with (Q := fun r t' => Q r ([] ++ t')); [| auto].
  apply emits_for_pages with
    (Q := Q) (t := [])
    (J := fun (rest : list (Exn + UsersPage)) stats t =>
            J (page_users rest) stats t).
  - intros p rest stats t HJ.
    set (Q' := fun (r : Result IamStats) t =>
                 match r with
                 | Ok stats' => J (page_users rest) stats' t
                 | Raise e => Q (Raise e) t
                 end).
    eapply emits_weaken with
      (Q := fun r t' => Q' r ((t ++ [Called ListUsers None]) ++ t')).
    2: { intros r t'. rewrite <- app_assoc. simpl. auto. }
    apply emits_for_each with
      (Q := Q') (t := t ++ [Called ListUsers None])
      (J := fun (users : list string) stats t =>
              J (users ++ page_users rest) stats t).
    + intros username users stats' t0 [[S1 S2] [[U R] N]].
      change (allowed_users cfg ((username :: users) ++ page_users rest))
        with (if negb (not_allowed cfg username)
              then username :: allowed_users cfg (users ++ page_users rest)
              else allowed_users cfg (users ++ page_users rest)) in N.
      destruct (not_allowed cfg username) eqn:Hna; simpl in N.
      * apply emits_print_then. apply emits_ret.
        unfold J, secrets_match_keys, counted. autorewrite with counts.
        repeat split; assumption.
      * apply emits_print_then.
        eapply emits_bind; [apply process_user_keys_accounts | |].
        -- intros dr t1 [[S1' S2'] [U' R']]. apply emits_ret.
           unfold J, secrets_match_keys, counted. autorewrite with counts.
           simpl. repeat split; try lia.
           rewrite U, U'. destruct (DRY_RUN cfg); lia.
        -- intros e t1 [[S1' S2'] _]. unfold Q', Q, secrets_match_keys.
           autorewrite with counts. split; [split; lia | exact I].
    + intros stats' t0 H. exact H.
    + destruct HJ as [[S1 S2] [[U R] N]].
      unfold J, secrets_match_keys, counted. autorewrite with counts. simpl.
      repeat split; try assumption.
  - intros e rest stats t [[S1 S2] _]. unfold Q, secrets_match_keys.
    autorewrite with counts. simpl. split; [split; assumption | exact I].
  - intros stats t [S [C N]]. unfold Q. simpl in N.
    rewrite Nat.add_0_r in N. auto.
  - unfold J, secrets_match_keys, counted. simpl. repeat split; auto.
    destruct (DRY_RUN cfg); reflexivity.
Qed.

(** X6.  When the key step completes, its counters agree with what it did:
    [users_processed] is the number of listed users that the allow-list lets
    through (users without keys included); live, the number of
    [update_access_key] calls issued is [keys_deactivated + keys_rotated],
    and in dry-run it is zero; and no more keys are counted than had their
    last use read, so that no key is counted twice. *)
Theorem counters_agree_with_the_calls
    (cfg : Config) (inv : Inventory) (out : Outcomes) (now : datetime)
    (s : State) :
  let m := manage_iam_keys cfg inv out now in
  match result_of m s with
  | Ok stats =>
      users_processed stats
        = List.length (filter (fun u => negb (not_allowed cfg u))
                         (listed_users inv)) /\
      count_calls is_update (events_of m s) =
        (if DRY_RUN cfg then 0
         else keys_deactivated stats + keys_rotated stats)%nat /\
      (keys_deactivated stats + keys_rotated stats
       <= count_calls is_last_used_read (events_of m s))%nat
  | Raise _ => True
  end.
Proof.
  intros m.
  pose proof (emits_events _ _ (manage_iam_keys_accounts cfg inv out now) s)
    as [_ H].
  fold m in H. destruct (result_of m s) as [stats | e]; [| exact I].
  destruct H as [[U R] N]. auto.
Qed.

(** X7.  Secrets are written for created keys only, once each: whatever
    the run does and however it ends, it makes as many [create_secret] calls
    as [create_access_key] calls succeeded, and at most as many
    [put_secret_value] calls. *)
Theorem one_secret_per_created_key
    (cfg : Config) (inv : Inventory) (out : Outcomes) (now : datetime)
    (s : State) :
  let t := events_of (lambda_handler cfg inv out now) s in
  count_calls is_create_secret t = count_calls is_created_key t /\
  (count_calls is_put_secret t <= count_calls is_create_secret t)%nat.
Proof.
  intros t.
  pose proof (lambda_handler_events cfg inv out now s) as H. cbv zeta in H.
  fold t in H.
  set (s0 := emit (started cfg now) s) in *.
  pose proof (line_or_call_calls _ _
                (emits_events _ _
                   (stop_old_ec2_instances_phase cfg inv out now) s0)) as Fa.
  set (ta := events_of (stop_old_ec2_instances cfg inv out now) s0) in *.
  assert (Za : forall p, (forall c f, is_ec2_call c = true -> p (c, f) = false) ->
                         count_calls p ta = 0%nat).
  { intros p Hp. unfold count_calls.
    induction Fa as [| [c f] cs Hc _ IH]; [reflexivity |].
    simpl. rewrite (Hp c f Hc). exact IH. }
  assert (Z1 : count_calls is_create_secret ta = 0%nat)
    by (apply Za; intros c f Hc; destruct c; try discriminate; reflexivity).
  assert (Z2 : count_calls is_created_key ta = 0%nat)
    by (apply Za; intros c f Hc; destruct c; try discriminate; reflexivity).
  assert (Z3 : count_calls is_put_secret ta = 0%nat)
    by (apply Za; intros c f Hc; destruct c; try discriminate; reflexivity).
  set (a := stop_old_ec2_instances cfg inv out now s0) in *.
  pose proof (emits_events _ _ (manage_iam_keys_accounts cfg inv out now)
                (snd a)) as [[S1 S2] _].
  set (tb := events_of (manage_iam_keys cfg inv out now) (snd a)) in *.
  destruct (fst a) as [ec2 | e].
  - destruct (fst (manage_iam_keys cfg inv out now (snd a))) as [iam | e].
    + destruct H as [tc [_ [He [Hc _]]]]. rewrite He.
      assert (Zc : forall p, count_calls p tc = 0%nat)
        by (intros p; unfold count_calls; rewrite Hc; reflexivity).
      unfold started. autorewrite with counts. rewrite !Zc, Z1, Z2, Z3.
      simpl. split; lia.
    + destruct H as [_ He]. rewrite He.
      unfold started. autorewrite with counts. rewrite Z1, Z2, Z3.
      simpl. split; lia.
  - destruct H as [_ He]. rewrite He.
    unfold started. autorewrite with counts. rewrite Z1, Z2, Z3.
    simpl. split; lia.
Qed.

Example counts_on_account :
  let t := events_of (lambda_handler live_cfg account first_creation_fails
                        day100) start in
  count_calls is_update t = 3%nat /\
  count_calls is_last_used_read t = 3%nat /\
  count_calls is_created_key t = 1%nat /\
  count_calls is_create_secret t = 1%nat /\
  count_calls is_put_secret t = 1%nat.
Proof. repeat split; reflexivity. Qed.

(** X12.  A run creates keys for listed users only, and for a user at most
    as many as the number of times the listing names the user: none for a
    user that is not listed, one at most for a user listed once. *)
Theorem new_keys_only_for_listed_users
    (cfg : Config) (inv : Inventory) (out : Outcomes) (now : datetime)
    (s : State) (u : string) :
  (created_for u (events_of (lambda_handler cfg inv out now) s)
   <= count_occ string_dec (listed_users inv) u)%nat.
Proof.
  destruct (emits_events _ _ (lambda_handler_emits cfg inv out now) s)
    as [_ [_ H]].
  apply H.
Qed.

Example no_key_for_an_unlisted_user :
  created_for "carol"
    (events_of (lambda_handler live_cfg account all_fine day100) start)
  = 0%nat /\
  created_for "alice"
    (events_of (lambda_handler live_cfg
                  (with_user_pages [inr ["alice"]; inr ["alice"]] account)
                  all_fine day100) start)
  = 2%nat.
Proof. split; reflexivity. Qed.

(** ** Secret names *)

Lemma append_cancel_l (p a b : string) :
  (p ++ a)%string = (p ++ b)%string -> a = b.
Proof.
  induction p as [| c p IH]; simpl; intros H; [exact H |].
  injection H as H. exact (IH H).
Qed.

Lemma length_append (a b : string) :
  String.length (a ++ b) = (String.length a + String.length b)%nat.
Proof. induction a as [| c a IH]; simpl; [reflexivity | now rewrite IH]. Qed.

Lemma append_cancel_r (a b x : string) :
  (a ++ x)%string = (b ++ x)%string -> a = b.
Proof.
  revert b. induction a as [| c a IH]; intros [| d b] H; simpl in H.
  - reflexivity.
  - apply (f_equal String.length) in H. simpl in H.
    rewrite length_append in H. lia.
  - apply (f_equal String.length) in H. simpl in H.
    rewrite length_append in H. lia.
  - injection H as -> H. f_equal. exact (IH b H).
Qed.

Lemma secret_name_of_inj (cfg : Config) (u1 u2 : string) :
  secret_name_of cfg u1 = secret_name_of cfg u2 -> u1 = u2.
Proof.
  unfold secret_name_of. intros H.
  apply append_cancel_l in H. exact (append_cancel_r _ _ _ H).
Qed.

Lemma publishes_names (name : string) (p : SecretPayload)
    (cs : list (Call * option Exn)) (n : string) :
  publishes name p cs ->
  In n (flat_map (fun cf =>
                    match fst cf with
                    | CreateSecret name _ | PutSecretValue name _ => [name]
                    | _ => []
                    end) cs) ->
  n = name.
Proof.
  intros [-> | [[m [f ->]] | [m ->]]]; simpl; intuition.
Qed.

(** X8.  Two users never share a secret: the secrets written for a new key
    of [u1] and for a new key of [u2], under the same configuration, have
    different names unless [u1] and [u2] are the same user. *)
Theorem users_do_not_share_a_secret
    (cfg : Config) (out out' : Outcomes) (u1 u2 : string) (k1 k2 : AccessKey)
    (s s' : State) (name : string) :
  In name
    (secret_names
       (events_of (store_access_key_in_secrets_manager cfg out u1 k1) s)) ->
  In name
    (secret_names
       (events_of (store_access_key_in_secrets_manager cfg out' u2 k2) s')) ->
  u1 = u2.
Proof.
  intros H1 H2.
  destruct (emits_events _ _ (store_access_key_emits cfg out u1 k1) s)
    as [_ P1].
  destruct (emits_events _ _ (store_access_key_emits cfg out' u2 k2) s')
    as [_ P2].
  unfold secret_names in H1, H2.
  apply (publishes_names _ _ _ _ P1) in H1.
  apply (publishes_names _ _ _ _ P2) in H2.
  apply (secret_name_of_inj cfg). congruence.
Qed.

Lemma users_do_not_share_a_secret_witness :
  (In "iam/user/alice/access-key"
     (secret_names
        (events_of (store_access_key_in_secrets_manager live_cfg all_fine
                      "alice" new_key) start)) /\
   In "iam/user/alice/access-key"
     (secret_names
        (events_of (store_access_key_in_secrets_manager live_cfg
                      first_creation_fails "alice" new_key) start))) /\
  "alice" = "alice".
Proof.
  assert (H1 : In "iam/user/alice/access-key"
                 (secret_names
                    (events_of (store_access_key_in_secrets_manager live_cfg
                                  all_fine "alice" new_key) start)))
    by (left; reflexivity).
  assert (H2 : In "iam/user/alice/access-key"
                 (secret_names
                    (events_of (store_access_key_in_secrets_manager live_cfg
                                  first_creation_fails "alice" new_key) start)))
    by (left; reflexivity).
  split; [split; assumption |].
  exact (users_do_not_share_a_secret live_cfg all_fine first_creation_fails
           "alice" "alice" new_key new_key start start
           "iam/user/alice/access-key" H1 H2).
Defined.

Example secret_names_of_two_users :
  secret_names
    (events_of (store_access_key_in_secrets_manager live_cfg
                  first_creation_fails "alice" new_key) start)
    = ["iam/user/alice/access-key"; "iam/user/alice/access-key"] /\
  secret_names
    (events_of (store_access_key_in_secrets_manager live_cfg all_fine
                  "bob" new_key) start)
    = ["iam/user/bob/access-key"].
Proof. split; reflexivity. Qed.

(** ** A page that cannot be fetched *)

Lemma for_pages_app {P S} (c : Call) (p1 p2 : list (Exn + P))
    (body : P -> S -> M S) (acc : S) (s : State) :
  for_pages c (p1 ++ p2) body acc s =
  bind (for_pages c p1 body acc) (fun acc' => for_pages c p2 body acc') s.
Proof.
  revert acc s. induction p1 as [| p rest IH]; intros acc s; [reflexivity |].
  simpl. unfold bind.
  destruct (read_call c (fun _ => p) s) as [[page | e] s1]; [| reflexivity].
  destruct (body page acc s1) as [[acc' | e] s2]; [| reflexivity].
  rewrite IH. reflexivity.
Qed.

(** X9.  Nothing is undone when a page of users cannot be fetched: the run
    of the key step is then the run on the pages before it, which keeps all
    it did for their users, followed by the failed fetch, whose exception it
    raises. *)
Theorem a_failed_page_keeps_what_was_done
    (cfg : Config) (inv : Inventory) (out : Outcomes) (now : datetime)
    (s : State) (pages rest : list (Exn + UsersPage)) (e : Exn)
    (stats : IamStats) :
  result_of (manage_iam_keys cfg (with_user_pages pages inv) out now) s
    = Ok stats ->
  let before := manage_iam_keys cfg (with_user_pages pages inv) out now in
  let failing :=
    manage_iam_keys cfg (with_user_pages (pages ++ inl e :: rest) inv) out now in
  result_of failing s = Raise e /\
  events_of failing s = events_of before s ++ [Called ListUsers (Some e)].
Proof.
  intros Hok before failing.
  destruct (manage_iam_keys_emits cfg (with_user_pages pages inv) out now s)
    as [t [Ht _]].
  unfold result_of, events_of, failing, before in *.
  unfold manage_iam_keys in *. cbv zeta in *.
  change (list_users (with_user_pages pages inv)) with pages in *.
  change (list_users (with_user_pages (pages ++ inl e :: rest) inv))
    with (pages ++ inl e :: rest).
  match type of Hok with
  | context [for_pages ListUsers _ ?b ?a] =>
      set (body := b) in *; set (acc := a) in *
  end.
  match goal with
  | |- context [for_pages ListUsers _ ?b _] => change b with body
  end.
  unfold bind, print, ret in *.
  set (s1 := emit (Printed [Txt "Checking IAM access keys..."]) s) in *.
  rewrite for_pages_app. unfold bind.
  destruct (for_pages ListUsers pages body acc s1) as [[a | e'] s2];
    cbn [fst snd] in Hok, Ht; [| discriminate].
  simpl. split; [reflexivity |].
  rewrite (since_app _ _ _ Ht). apply since_app. simpl. rewrite Ht.
  rewrite app_assoc. reflexivity.
Qed.

(** On [account], live, when the second page of users cannot be fetched:
    the keys of [alice] and [bob] have been dealt with all the same. *)
Lemma a_failed_page_keeps_what_was_done_witness :
  result_of (manage_iam_keys live_cfg
               (with_user_pages [inr ["alice"; "bob"]] account) all_fine day100)
    start
    = Ok {| users_processed := 2; keys_deactivated := 1; keys_rotated := 2 |} /\
  result_of (manage_iam_keys live_cfg
               (with_user_pages
                  ([inr ["alice"; "bob"]] ++
                   inl (OtherException "Throttling") :: [inr ["carol"]])
                  account) all_fine day100) start
    = Raise (OtherException "Throttling") /\
  events_of (manage_iam_keys live_cfg
               (with_user_pages
                  ([inr ["alice"; "bob"]] ++
                   inl (OtherException "Throttling") :: [inr ["carol"]])
                  account) all_fine day100) start
    = events_of (manage_iam_keys live_cfg
                   (with_user_pages [inr ["alice"; "bob"]] account) all_fine
                   day100) start
      ++ [Called ListUsers (Some (OtherException "Throttling"))].
Proof.
  split; [reflexivity |].
  apply (a_failed_page_keeps_what_was_done live_cfg account all_fine day100
           start [inr ["alice"; "bob"]] [inr ["carol"]]
           (OtherException "Throttling")
           {| users_processed := 2; keys_deactivated := 1; keys_rotated := 2 |}).
  reflexivity.
Defined.

Example mutations_before_a_failed_page :
  mutations
    (events_of (manage_iam_keys live_cfg
                  (with_user_pages
                     [inr ["alice"]; inl (OtherException "Throttling")]
                     account) all_fine day100) start) =
    [ CreateAccessKey "alice";
      CreateSecret "iam/user/alice/access-key" (payload_of "alice" new_key);
      UpdateAccessKey "alice" "AKIAALICE1" "Inactive";
      UpdateAccessKey "alice" "AKIAALICE2" "Inactive" ].
Proof. reflexivity. Qed.

(** ** The allow-list in the environment *)

Section AllowListFacts.

Variable char : Type.
Variable is_comma : char -> bool.
Variable isspace : char -> bool.

Lemma split_no_comma (s : list char) : Forall (comma_free is_comma) (split is_comma s).
Proof.
  induction s as [| c rest IH]; simpl; [repeat constructor |].
  destruct (is_comma c) eqn:E; [constructor; [constructor | exact IH] |].
  destruct (split is_comma rest) as [| piece pieces]; [repeat constructor; exact E |].
  inversion IH; subst. constructor; [constructor; assumption | assumption].
Qed.

Lemma lstrip_suffix (s : list char) : exists ws, s = ws ++ lstrip isspace s /\ blank isspace ws.
Proof.
  induction s as [| c rest [ws [E B]]]; simpl.
  - exists []. split; [reflexivity | constructor].
  - destruct (isspace c) eqn:Ec.
    + exists (c :: ws). split; [simpl; congruence | constructor; assumption].
    + exists []. split; [reflexivity | constructor].
Qed.

Lemma lstrip_head (s : list char) :
  match lstrip isspace s with [] => True | c :: _ => isspace c = false end.
Proof.
  induction s as [| c rest IH]; simpl; [exact I |].
  destruct (isspace c) eqn:Ec; [exact IH | exact Ec].
Qed.

Lemma lstrip_blank (ws : list char) (s : list char) :
  blank isspace ws -> lstrip isspace (ws ++ s) = lstrip isspace s.
Proof. induction 1 as [| c ws Hc _ IH]; simpl; [| rewrite Hc]; auto. Qed.

Lemma lstrip_fixed (s : list char) :
  match s with [] => True | c :: _ => isspace c = false end ->
  lstrip isspace s = s.
Proof. destruct s as [| c rest]; simpl; [| intros ->]; reflexivity. Qed.

Lemma rstrip_prefix (s : list char) :
  exists ws, s = rstrip isspace s ++ ws /\ blank isspace ws.
Proof.
  unfold rstrip. destruct (lstrip_suffix (rev s)) as [ws [E B]].
  exists (rev ws). split.
  - pose proof (f_equal (@rev char) E) as E2.
    rewrite rev_involutive, rev_app_distr in E2. exact E2.
  - apply Forall_rev. exact B.
Qed.

Lemma rstrip_last (s : list char) :
  match rev (rstrip isspace s) with [] => True | c :: _ => isspace c = false end.
Proof. unfold rstrip. rewrite rev_involutive. apply lstrip_head. Qed.

(** What [strip] leaves: the string between two blank ends, with no white
    space at either end of it. *)
Lemma strip_spec (s : list char) :
  exists ws ws',
    s = ws ++ strip isspace s ++ ws' /\
    blank isspace ws /\ blank isspace ws' /\ trimmed isspace (strip isspace s).
Proof.
  unfold strip. destruct (lstrip_suffix s) as [ws [E B]].
  destruct (rstrip_prefix (lstrip isspace s)) as [ws' [E' B']].
  exists ws, ws'. split; [congruence |]. split; [exact B |]. split; [exact B' |].
  split; [| apply rstrip_last].
  pose proof (lstrip_head s) as H. rewrite E' in H.
  destruct (rstrip isspace (lstrip isspace s)); [exact I | exact H].
Qed.

Lemma comma_free_app (a b : list char) :
  comma_free is_comma (a ++ b) ->
  comma_free is_comma a /\ comma_free is_comma b.
Proof. apply Forall_app. Qed.

Lemma strip_blank (s : list char) : blank isspace s -> strip isspace s = [].
Proof.
  intros B. unfold strip.
  assert (E : lstrip isspace s = []).
  { induction B as [| c s Hc _ IH]; simpl; [| rewrite Hc]; auto. }
  rewrite E. reflexivity.
Qed.

Lemma strip_padded (ws n ws' : list char) :
  blank isspace ws -> blank isspace ws' -> trimmed isspace n ->
  strip isspace (ws ++ n ++ ws') = n.
Proof.
  intros B B' [Hh Hl]. unfold strip. rewrite (lstrip_blank ws _ B).
  destruct n as [| c n].
  - simpl. fold (strip isspace ws'). apply strip_blank. exact B'.
  - rewrite (lstrip_fixed ((c :: n) ++ ws')) by exact Hh.
    unfold rstrip. rewrite rev_app_distr.
    rewrite (lstrip_blank (rev ws') _ (Forall_rev B')).
    rewrite (lstrip_fixed (rev (c :: n))) by exact Hl.
    apply rev_involutive.
Qed.

Lemma split_comma_free (p : list char) :
  comma_free is_comma p -> split is_comma p = [p].
Proof.
  induction 1 as [| c p Hc _ IH]; simpl; [reflexivity |].
  rewrite Hc, IH. reflexivity.
Qed.

Lemma split_app_comma (p rest : list char) (comma : char) :
  comma_free is_comma p -> is_comma comma = true ->
  split is_comma (p ++ comma :: rest) = p :: split is_comma rest.
Proof.
  intros Hp Hc. induction Hp as [| c p Hcc _ IH]; simpl.
  - rewrite Hc. reflexivity.
  - rewrite Hcc, IH. reflexivity.
Qed.

(** X10.  Every name of the allow-list read from the environment is
    non-empty, holds no comma, and has no white space at either end.  A
    value of commas and white space only gives the empty list, as the unset
    variable does, which leaves every user allowed. *)
Theorem allowed_names_are_clean (v : option (list char)) :
  Forall (fun name => name <> [] /\ comma_free is_comma name /\
                      trimmed isspace name)
    (IAM_ALLOWED_USERS_of_env is_comma isspace v) /\
  IAM_ALLOWED_USERS_of_env is_comma isspace None = [] /\
  (forall s,
      Forall (fun c => is_comma c || isspace c = true) s ->
      IAM_ALLOWED_USERS_of_env is_comma isspace (Some s) = []).
Proof.
  split; [| split].
  - unfold IAM_ALLOWED_USERS_of_env.
    set (value := match v with Some s => s | None => [] end).
    pose proof (split_no_comma value) as F.
    induction F as [| piece pieces Hp _ IH]; simpl; [constructor |].
    apply Forall_app. split; [| exact IH].
    destruct (strip_spec piece) as [ws [ws' [E [_ [_ T]]]]].
    destruct (strip isspace piece) as [| c n] eqn:S; constructor; [| constructor].
    split; [discriminate |]. split; [| exact T].
    rewrite E in Hp. apply comma_free_app in Hp. destruct Hp as [_ Hp].
    apply comma_free_app in Hp. exact (proj1 Hp).
  - reflexivity.
  - intros s H. unfold IAM_ALLOWED_USERS_of_env.
    assert (B : Forall (blank isspace) (split is_comma s)).
    { induction H as [| c s Hc _ IH]; simpl; [repeat constructor |].
      destruct (is_comma c) eqn:Ec; [constructor; [constructor | exact IH] |].
      simpl in Hc.
      destruct (split is_comma s) as [| piece pieces];
        [repeat constructor; exact Hc |].
      inversion IH; subst. constructor; [constructor; assumption | assumption]. }
    induction B as [| piece pieces Hb _ IH]; simpl; [reflexivity |].
    rewrite (strip_blank piece Hb). exact IH.
Qed.

(** X11.  Names written with commas between them, each with any white space
    around it, are read back as they are: for names that are non-empty,
    hold no comma and have no white space at either end, the allow-list of
    the joined text is the list of those names. *)
Theorem allow_list_reads_back_its_names
    (comma : char) (names : list (list char))
    (before after : list char -> list char) :
  is_comma comma = true ->
  (forall c, isspace c = true -> is_comma c = false) ->
  (forall n, blank isspace (before n) /\ blank isspace (after n)) ->
  Forall (fun name => name <> [] /\ comma_free is_comma name /\
                      trimmed isspace name) names ->
  IAM_ALLOWED_USERS_of_env is_comma isspace
    (Some (join_commas comma
             (map (fun n => before n ++ n ++ after n) names)))
  = names.
Proof.
  intros Hcomma Hws Hpad Hnames. unfold IAM_ALLOWED_USERS_of_env.
  assert (Hfree : forall n, comma_free is_comma n ->
                            comma_free is_comma (before n ++ n ++ after n)).
  { intros n Hn. destruct (Hpad n) as [B B'].
    apply Forall_app. split; [eapply Forall_impl; [| exact B]; apply Hws |].
    apply Forall_app. split; [exact Hn |].
    eapply Forall_impl; [| exact B']. apply Hws. }
  assert (Hone : forall n, n <> [] -> trimmed isspace n ->
                   match strip isspace (before n ++ n ++ after n) with
                   | [] => []
                   | name => [name]
                   end = [n]).
  { intros n Hn T. destruct (Hpad n) as [B B'].
    rewrite (strip_padded _ _ _ B B' T). destruct n; [contradiction | reflexivity]. }
  induction Hnames as [| n rest [Hn [Hc T]] Hrest IH]; [reflexivity |].
  destruct rest as [| n' rest'].
  - simpl. rewrite (split_comma_free _ (Hfree n Hc)). simpl.
    rewrite (Hone n Hn T). reflexivity.
  - change (join_commas comma
              (map (fun n => before n ++ n ++ after n) (n :: n' :: rest')))
      with ((before n ++ n ++ after n) ++ comma ::
            join_commas comma
              (map (fun n => before n ++ n ++ after n) (n' :: rest'))).
    rewrite (split_app_comma _ _ comma (Hfree n Hc) Hcomma).
    cbn [flat_map]. rewrite (Hone n Hn T). rewrite IH. reflexivity.
Qed.

End AllowListFacts.

Lemma allow_list_reads_back_its_names_witness :
  (ascii_comma ","%char = true /\
   (forall c, ascii_space c = true -> ascii_comma c = false) /\
   (forall n : list ascii,
       blank ascii_space [" "%char] /\ blank ascii_space [" "%char; " "%char]) /\
   Forall (fun name => name <> [] /\ comma_free ascii_comma name /\
                       trimmed ascii_space name)
     [list_ascii_of_string "alice"; list_ascii_of_string "bob"]) /\
  IAM_ALLOWED_USERS_of_env ascii_comma ascii_space
    (Some (join_commas ","%char
             (map (fun n => [" "%char] ++ n ++ [" "%char; " "%char])
                [list_ascii_of_string "alice"; list_ascii_of_string "bob"])))
  = [list_ascii_of_string "alice"; list_ascii_of_string "bob"].
Proof.
  assert (H1 : ascii_comma ","%char = true) by reflexivity.
  assert (H2 : forall c, ascii_space c = true -> ascii_comma c = false).
  { intros c Hc. unfold ascii_comma. destruct (Ascii.eqb_spec c ","%char);
      [subst c; discriminate | reflexivity]. }
  assert (H3 : forall n : list ascii,
             blank ascii_space [" "%char] /\
             blank ascii_space [" "%char; " "%char])
    by (intros n; split; repeat constructor).
  assert (H4 : Forall (fun name => name <> [] /\ comma_free ascii_comma name /\
                                   trimmed ascii_space name)
                 [list_ascii_of_string "alice"; list_ascii_of_string "bob"])
    by (repeat constructor; discriminate).
  split; [exact (conj H1 (conj H2 (conj H3 H4))) |].
  exact (allow_list_reads_back_its_names ascii ascii_comma ascii_space
           ","%char _ (fun _ => [" "%char]) (fun _ => [" "%char; " "%char])
           H1 H2 H3 H4).
Defined.

Example allow_list_of_a_value :
  map string_of_list_ascii
    (IAM_ALLOWED_USERS_of_env ascii_comma ascii_space
       (Some (list_ascii_of_string " alice ,, bob,  ,carol "))) =
    ["alice"; "bob"; "carol"] /\
  IAM_ALLOWED_USERS_of_env ascii_comma ascii_space
    (Some (list_ascii_of_string " , ,")) = [] /\
  IAM_ALLOWED_USERS_of_env ascii_comma ascii_space
    (Some (list_ascii_of_string "")) = [].
Proof. repeat split; reflexivity. Qed.
